(** * Bohrium vector engines: a shallow embedding of the execution paths

    The development follows the C++ sources:
    - [Naive]  : ve/naive/bh_ve_naive.cpp (instruction-at-a-time engine and
                 its user-function registry),
    - [Cpu]    : ve/cpu/engine.cpp (JIT engine: [sij_mode], [fuse_mode],
                 [execute], [register_extension]),
    - [Uni]    : ve/uni/main.cpp (block fuser),
    - [Random] : core/compute/cphvb_compute_random.cpp (Mersenne Twister
                 extension).

    Calls that leave the translated functions (the compiler, the shared
    object loader, the victim cache, extension methods) are answered by an
    oracle record and written to an event trace, so that statements about
    "what was invoked" are statements about that trace. *)

From Stdlib Require Import ZArith Bool Lia.
From stdpp Require Import base gmap strings list sorting.

Local Open Scope Z_scope.

(** Status codes returned to the caller (bh_error). *)
Inductive bh_error : Type :=
  | BH_SUCCESS
  | BH_ERROR
  | BH_TYPE_NOT_SUPPORTED
  | BH_OUT_OF_MEMORY
  | BH_USERFUNC_NOT_SUPPORTED.

#[global] Instance bh_error_eq_dec : EqDecision bh_error.
Proof. solve_decision. Defined.

Definition is_success (e : bh_error) : bool :=
  match e with BH_SUCCESS => true | _ => false end.

(* ===================================================================== *)
(** * ve/naive/bh_ve_naive.cpp *)
(* ===================================================================== *)
Module Naive.

(** Opcodes as far as the dispatcher of [bh_ve_naive_execute] tells them
    apart; every other opcode is a built-in operation. *)
Inductive bh_opcode : Type :=
  | BH_NONE
  | BH_DISCARD
  | BH_SYNC
  | BH_FREE
  | BH_USERFUNC
  | BH_BUILTIN (code : Z).

(** The fields of an instruction the engine reads: the opcode, the id of
    the attached user function, and a name for the base array of
    operand[0]. *)
Record bh_instruction : Type := {
  opcode : bh_opcode;
  userfunc_id : Z;
  operand0_base : nat
}.

Section Engine.
(** [impl] stands for non-NULL function pointers of type
    bh_userfunc_impl; a NULL pointer is [None]. *)
Variable impl : Type.
(** bh_component_get_func(myself, fun, &ptr): what the component lookup
    stores into [ptr]. *)
Variable bh_component_get_func : string -> option impl.

(** The file-level statics. *)
Record statics : Type := {
  random_impl : option impl;
  random_impl_id : Z;
  matmul_impl : option impl;
  matmul_impl_id : Z;
  nselect_impl : option impl;
  nselect_impl_id : Z
}.

Definition initial_statics : statics :=
  {| random_impl := None; random_impl_id := 0;
     matmul_impl := None; matmul_impl_id := 0;
     nselect_impl := None; nselect_impl_id := 0 |}.

Definition set_random (f : option impl) (i : Z) (st : statics) : statics :=
  {| random_impl := f; random_impl_id := i;
     matmul_impl := matmul_impl st; matmul_impl_id := matmul_impl_id st;
     nselect_impl := nselect_impl st; nselect_impl_id := nselect_impl_id st |}.

Definition set_matmul (f : option impl) (i : Z) (st : statics) : statics :=
  {| random_impl := random_impl st; random_impl_id := random_impl_id st;
     matmul_impl := f; matmul_impl_id := i;
     nselect_impl := nselect_impl st; nselect_impl_id := nselect_impl_id st |}.

Definition set_nselect (f : option impl) (i : Z) (st : statics) : statics :=
  {| random_impl := random_impl st; random_impl_id := random_impl_id st;
     matmul_impl := matmul_impl st; matmul_impl_id := matmul_impl_id st;
     nselect_impl := f; nselect_impl_id := i |}.

(** One branch of [bh_ve_naive_reg_func]: [cur]/[cur_id] are the two
    statics of the function, [set] writes them back.  The result is the
    status, the value of [*id] after the call, and the statics. *)
Definition reg_branch (cur : option impl) (cur_id : Z)
    (set : option impl -> Z -> statics -> statics)
    (fn : string) (id : Z) (st : statics) : bh_error * Z * statics :=
  match cur with
  | None =>
      match bh_component_get_func fn with
      | None => (BH_USERFUNC_NOT_SUPPORTED, id, set None cur_id st)
      | Some f => (BH_SUCCESS, id, set (Some f) id st)
      end
  | Some _ => (BH_SUCCESS, cur_id, st)
  end.

(** bh_error bh_ve_naive_reg_func(char *fun, bh_intp *id) *)
Definition bh_ve_naive_reg_func (fn : string) (id : Z) (st : statics)
    : bh_error * Z * statics :=
  if String.eqb "bh_random" fn then
    reg_branch (random_impl st) (random_impl_id st) set_random fn id st
  else if String.eqb "bh_matmul" fn then
    reg_branch (matmul_impl st) (matmul_impl_id st) set_matmul fn id st
  else if String.eqb "bh_nselect" fn then
    reg_branch (nselect_impl st) (nselect_impl_id st) set_nselect fn id st
  else (BH_USERFUNC_NOT_SUPPORTED, id, st).

(** A sequence of registration calls, each with its own [*id]. *)
Fixpoint reg_calls (calls : list (string * Z)) (st : statics) : statics :=
  match calls with
  | [] => st
  | (fn, id) :: rest => reg_calls rest (bh_ve_naive_reg_func fn id st).2
  end.

Definition supported (fn : string) : bool :=
  String.eqb "bh_random" fn || String.eqb "bh_matmul" fn
  || String.eqb "bh_nselect" fn.

(** The implementation pointer and the id the statics hold for a name. *)
Definition impl_of (fn : string) (st : statics) : option impl :=
  if String.eqb "bh_random" fn then random_impl st
  else if String.eqb "bh_matmul" fn then matmul_impl st
  else if String.eqb "bh_nselect" fn then nselect_impl st
  else None.

Definition id_of (fn : string) (st : statics) : Z :=
  if String.eqb "bh_random" fn then random_impl_id st
  else if String.eqb "bh_matmul" fn then matmul_impl_id st
  else if String.eqb "bh_nselect" fn then nselect_impl_id st
  else 0.

(** ** bh_ve_naive_execute *)

(** [W] is the memory the engine works on (base arrays and the victim
    cache); the four routines below live in other translation units. *)
Variable W : Type.
Variable bh_vcache_free : bh_instruction -> W -> bh_error * W.
Variable bh_vcache_malloc : bh_instruction -> W -> bh_error * W.
Variable bh_compute_apply_naive : bh_instruction -> W -> bh_error * W.
(** bh_base_array(inst->operand[0])->data == NULL *)
Variable data_is_null : bh_instruction -> W -> bool.
(** Calling a registered implementation on inst->userfunc. *)
Variable call_impl : impl -> bh_instruction -> W -> bh_error * W.

(** Calling through a function pointer; a NULL pointer has no result. *)
Definition call_ptr (p : option impl) (inst : bh_instruction) (w : W)
    : option (bh_error * W) :=
  match p with
  | Some f => Some (call_impl f inst w)
  | None => None
  end.

(** The body of the switch for one instruction. *)
Definition dispatch (st : statics) (inst : bh_instruction) (w : W)
    : option (bh_error * W) :=
  match opcode inst with
  | BH_NONE | BH_DISCARD | BH_SYNC => Some (BH_SUCCESS, w)
  | BH_FREE => Some (bh_vcache_free inst w)
  | BH_USERFUNC =>
      if Z.eqb (userfunc_id inst) (random_impl_id st) then
        call_ptr (random_impl st) inst w
      else if Z.eqb (userfunc_id inst) (matmul_impl_id st) then
        call_ptr (matmul_impl st) inst w
      else if Z.eqb (userfunc_id inst) (nselect_impl_id st) then
        call_ptr (nselect_impl st) inst w
      else Some (BH_USERFUNC_NOT_SUPPORTED, w)
  | BH_BUILTIN _ =>
      let '(res, w1) :=
        if data_is_null inst w then bh_vcache_malloc inst w
        else (BH_SUCCESS, w) in
      if is_success res then Some (bh_compute_apply_naive inst w1)
      else Some (res, w1)
  end.

(** The for-loop: leaves at the first instruction whose status is not
    BH_SUCCESS and returns that status. *)
Fixpoint bh_ve_naive_execute (st : statics)
    (instruction_list : list bh_instruction) (w : W)
    : option (bh_error * W) :=
  match instruction_list with
  | [] => Some (BH_SUCCESS, w)
  | inst :: rest =>
      match dispatch st inst w with
      | None => None
      | Some (res, w1) =>
          if is_success res then bh_ve_naive_execute st rest w1
          else Some (res, w1)
      end
  end.

(** ** Properties of the registry *)

#[local] Arguments String.eqb : simpl never.

Ltac name_cases fn :=
  unfold bh_ve_naive_reg_func, impl_of, id_of, supported, reg_branch in *;
  repeat match goal with
  | |- context [String.eqb ?a fn] =>
      destruct (String.eqb_spec a fn); subst; simpl in *
  | H : context [String.eqb ?a fn] |- _ =>
      destruct (String.eqb_spec a fn); subst; simpl in *
  end.

(** A name whose implementation pointer is set is answered from the
    statics, which stay as they are. *)
Lemma reg_func_registered (fn : string) (id : Z) (st : statics) (f : impl) :
  impl_of fn st = Some f ->
  bh_ve_naive_reg_func fn id st = (BH_SUCCESS, id_of fn st, st).
Proof.
  intros H. name_cases fn; try discriminate; rewrite H; reflexivity.
Qed.

(** No call, whatever its name, touches a pointer that is already set,
    nor the id stored next to it. *)
Lemma reg_func_keeps (fn fn' : string) (id' : Z) (st : statics) (f : impl) :
  impl_of fn st = Some f ->
  impl_of fn (bh_ve_naive_reg_func fn' id' st).2 = Some f /\
  id_of fn (bh_ve_naive_reg_func fn' id' st).2 = id_of fn st.
Proof.
  intros H. unfold bh_ve_naive_reg_func, reg_branch.
  repeat match goal with
  | |- context [String.eqb ?a fn'] =>
      destruct (String.eqb_spec a fn'); subst; simpl
  end;
  repeat match goal with
  | |- context [match ?x with _ => _ end] => destruct x eqn:?; simpl
  end;
  name_cases fn; try discriminate; try congruence; auto.
Qed.

Lemma reg_calls_keep (calls : list (string * Z)) (fn : string)
    (st : statics) (f : impl) :
  impl_of fn st = Some f ->
  impl_of fn (reg_calls calls st) = Some f /\
  id_of fn (reg_calls calls st) = id_of fn st.
Proof.
  revert st. induction calls as [|[fn' id'] rest IH]; intros st H; simpl.
  - auto.
  - destruct (reg_func_keeps fn fn' id' st f H) as [H1 H2].
    destruct (IH _ H1) as [H3 H4]. split; congruence.
Qed.

(** C10. bh_ve_naive_reg_func is idempotent per function name.  A name
    other than bh_random, bh_matmul, bh_nselect yields
    BH_USERFUNC_NOT_SUPPORTED (and changes nothing).  For a supported name
    whose pointer is still NULL, a successful call leaves [*id] as the
    caller passed it, records it as the function's id and stores the
    implementation found by the component lookup; after that, behind any
    sequence of further registration calls, a call with the same name
    returns BH_SUCCESS, writes the recorded id into [*id] and leaves the
    statics, hence the implementation, unchanged. *)
Theorem reg_func_idempotent (fn : string) (id : Z) (st : statics)
    (err : bh_error) (id1 : Z) (st1 : statics) :
  bh_ve_naive_reg_func fn id st = (err, id1, st1) ->
  (supported fn = false ->
     err = BH_USERFUNC_NOT_SUPPORTED /\ id1 = id /\ st1 = st) /\
  (supported fn = true -> impl_of fn st = None -> err = BH_SUCCESS ->
     id1 = id /\ id_of fn st1 = id /\
     is_Some (impl_of fn st1) /\
     impl_of fn st1 = bh_component_get_func fn /\
     forall (calls : list (string * Z)) (id2 : Z),
       bh_ve_naive_reg_func fn id2 (reg_calls calls st1)
         = (BH_SUCCESS, id, reg_calls calls st1) /\
       impl_of fn (reg_calls calls st1) = impl_of fn st1).
Proof.
  intros Hcall. split.
  - intros Hs. name_cases fn; try discriminate. inversion Hcall; auto.
  - intros Hs Hnull Hok.
    assert (Hfirst : id1 = id /\ id_of fn st1 = id /\
                     impl_of fn st1 = bh_component_get_func fn /\
                     is_Some (impl_of fn st1)).
    { name_cases fn; try discriminate;
        rewrite Hnull in Hcall;
        destruct (bh_component_get_func _) eqn:Hget;
        inversion Hcall; subst; try discriminate; simpl; eauto. }
    destruct Hfirst as (-> & Hid & Himpl & [f Hf]).
    repeat split; eauto.
    + destruct (reg_calls_keep calls fn st1 f Hf) as [H1 H2].
      rewrite (reg_func_registered fn id2 _ f H1). congruence.
    + destruct (reg_calls_keep calls fn st1 f Hf) as [H1 H2]. congruence.
Qed.

(** ** Properties of the dispatch loop *)

(** X1. The loop stops at the first instruction whose status is not
    BH_SUCCESS and hands that status to the caller: the instructions after
    it are not looked at. *)
Lemma naive_execute_stops (st : statics) (pre post : list bh_instruction)
    (inst : bh_instruction) (w w1 w2 : W) (e : bh_error) :
  bh_ve_naive_execute st pre w = Some (BH_SUCCESS, w1) ->
  dispatch st inst w1 = Some (e, w2) ->
  e <> BH_SUCCESS ->
  bh_ve_naive_execute st (pre ++ inst :: post) w = Some (e, w2).
Proof.
  revert w. induction pre as [|i pre IH]; intros w Hpre Hd Hne; simpl in *.
  - inversion Hpre; subst. rewrite Hd.
    destruct e; simpl; congruence.
  - destruct (dispatch st i w) as [[r w']|]; [|discriminate].
    destruct (is_success r) eqn:Hr.
    + eauto.
    + inversion Hpre; subst. discriminate.
Qed.

(** A user function whose id matches none of the three recorded ids ends
    the batch with BH_USERFUNC_NOT_SUPPORTED. *)
Lemma naive_execute_unknown_userfunc (st : statics)
    (inst : bh_instruction) (post : list bh_instruction) (w : W) :
  opcode inst = BH_USERFUNC ->
  userfunc_id inst <> random_impl_id st ->
  userfunc_id inst <> matmul_impl_id st ->
  userfunc_id inst <> nselect_impl_id st ->
  bh_ve_naive_execute st (inst :: post) w
    = Some (BH_USERFUNC_NOT_SUPPORTED, w).
Proof.
  intros Hop H1 H2 H3. simpl. unfold dispatch. rewrite Hop.
  apply Z.eqb_neq in H1, H2, H3. rewrite H1, H2, H3. reflexivity.
Qed.

(** ** Further properties of the dispatch loop and the registry *)

(** X2. A batch executed in two parts: the second part runs on the memory
    the first part left if the first part returned BH_SUCCESS; otherwise
    the result of the first part is the result of the whole. *)
Theorem naive_execute_app (st : statics) (l1 l2 : list bh_instruction)
    (w : W) :
  bh_ve_naive_execute st (l1 ++ l2) w
  = match bh_ve_naive_execute st l1 w with
    | Some (res, w1) =>
        if is_success res then bh_ve_naive_execute st l2 w1
        else Some (res, w1)
    | None => None
    end.
Proof.
  revert w. induction l1 as [|i l1 IH]; intros w; simpl; [reflexivity|].
  destruct (dispatch st i w) as [[r w1]|]; [|reflexivity].
  destruct (is_success r) eqn:Hr; [apply IH|]. rewrite Hr. reflexivity.
Qed.

(** The ids that are compared before the id of [fn] in the dispatcher. *)
Definition earlier_ids (fn : string) (st : statics) : list Z :=
  if String.eqb "bh_random" fn then []
  else if String.eqb "bh_matmul" fn then [random_impl_id st]
  else if String.eqb "bh_nselect" fn
       then [random_impl_id st; matmul_impl_id st]
  else [].

(** X3. Registration and dispatch fit together: after a first successful
    registration of a supported name under an id that none of the
    functions compared earlier carries, a BH_USERFUNC instruction with
    that id is handed to the implementation the component lookup found
    for the name. *)
Theorem registered_userfunc_dispatched (fn : string) (id : Z)
    (st st1 : statics) (id1 : Z) (inst : bh_instruction) (w : W) :
  bh_ve_naive_reg_func fn id st = (BH_SUCCESS, id1, st1) ->
  impl_of fn st = None ->
  ~ In id (earlier_ids fn st1) ->
  opcode inst = BH_USERFUNC -> userfunc_id inst = id ->
  exists f, bh_component_get_func fn = Some f
            /\ dispatch st1 inst w = Some (call_impl f inst w).
Proof.
  intros Hreg Hnull Hfresh Hop Hid.
  unfold dispatch. rewrite Hop, Hid. clear Hop Hid.
  revert Hreg Hnull Hfresh.
  unfold bh_ve_naive_reg_func, impl_of, earlier_ids, reg_branch.
  destruct (String.eqb "bh_random" fn).
  { intros Hreg Hnull _. rewrite Hnull in Hreg.
    destruct (bh_component_get_func fn) as [f|] eqn:Hget;
      inversion Hreg; subst; simpl.
    rewrite Z.eqb_refl. eauto. }
  destruct (String.eqb "bh_matmul" fn).
  { intros Hreg Hnull Hfresh. rewrite Hnull in Hreg.
    destruct (bh_component_get_func fn) as [f|] eqn:Hget;
      inversion Hreg; subst; simpl in *.
    destruct (Z.eqb_spec id1 (random_impl_id st)) as [He|_];
      [exfalso; apply Hfresh; auto|].
    rewrite Z.eqb_refl. eauto. }
  destruct (String.eqb "bh_nselect" fn).
  { intros Hreg Hnull Hfresh. rewrite Hnull in Hreg.
    destruct (bh_component_get_func fn) as [f|] eqn:Hget;
      inversion Hreg; subst; simpl in *.
    destruct (Z.eqb_spec id1 (random_impl_id st)) as [He|_];
      [exfalso; apply Hfresh; auto|].
    destruct (Z.eqb_spec id1 (matmul_impl_id st)) as [He|_];
      [exfalso; apply Hfresh; auto|].
    rewrite Z.eqb_refl. eauto. }
  intros Hreg. inversion Hreg.
Qed.

(** As long as a function is not registered, the id stored for it is the
    0 of its initialiser. *)
Definition null_ids_zero (st : statics) : Prop :=
  (random_impl st = None -> random_impl_id st = 0)
  /\ (matmul_impl st = None -> matmul_impl_id st = 0)
  /\ (nselect_impl st = None -> nselect_impl_id st = 0).

Lemma reg_func_null_ids_zero (fn : string) (id : Z) (st : statics) :
  null_ids_zero st -> null_ids_zero (bh_ve_naive_reg_func fn id st).2.
Proof.
  intros (H1 & H2 & H3).
  unfold bh_ve_naive_reg_func, reg_branch, null_ids_zero.
  destruct (String.eqb "bh_random" fn).
  { destruct (random_impl st) eqn:Hr; simpl; [rewrite Hr; auto|].
    destruct (bh_component_get_func fn); simpl; auto.
    repeat split; auto; discriminate. }
  destruct (String.eqb "bh_matmul" fn).
  { destruct (matmul_impl st) eqn:Hr; simpl; [rewrite Hr; auto|].
    destruct (bh_component_get_func fn); simpl; auto.
    repeat split; auto; discriminate. }
  destruct (String.eqb "bh_nselect" fn).
  { destruct (nselect_impl st) eqn:Hr; simpl; [rewrite Hr; auto|].
    destruct (bh_component_get_func fn); simpl; auto.
    repeat split; auto; discriminate. }
  simpl. auto.
Qed.

Lemma reg_calls_null_ids_zero (calls : list (string * Z)) (st : statics) :
  null_ids_zero st -> null_ids_zero (reg_calls calls st).
Proof.
  revert st. induction calls as [|[fn id] rest IH]; intros st H; simpl;
    [exact H|].
  apply IH. apply reg_func_null_ids_zero. exact H.
Qed.

(** X4. The dispatcher compares ids without looking at the pointers: after
    any sequence of registration calls in which bh_random was not
    registered, a BH_USERFUNC instruction with id 0 is not answered with
    BH_USERFUNC_NOT_SUPPORTED but called through the NULL pointer
    random_impl. *)
Theorem userfunc_zero_before_registration (calls : list (string * Z))
    (inst : bh_instruction) (rest : list bh_instruction) (w : W) :
  random_impl (reg_calls calls initial_statics) = None ->
  opcode inst = BH_USERFUNC -> userfunc_id inst = 0 ->
  bh_ve_naive_execute (reg_calls calls initial_statics) (inst :: rest) w
  = None.
Proof.
  intros Hnull Hop Hid.
  assert (Hinv : null_ids_zero (reg_calls calls initial_statics)).
  { apply reg_calls_null_ids_zero. repeat split; reflexivity. }
  destruct Hinv as (H0 & _). specialize (H0 Hnull).
  simpl. unfold dispatch. rewrite Hop, Hid, H0, Hnull. reflexivity.
Qed.

End Engine.

(** A component that exports the three user functions under their names. *)
Definition demo_get_func (fn : string) : option string :=
  if supported fn then Some fn else None.

Lemma reg_func_idempotent_witness :
  bh_ve_naive_reg_func string demo_get_func "bh_matmul" 7
      (initial_statics string)
    = (BH_SUCCESS, 7, set_matmul string (Some "bh_matmul"%string) 7
                        (initial_statics string)) /\
  bh_ve_naive_reg_func string demo_get_func "bh_matmul" 99
      (reg_calls string demo_get_func
         [("bh_random"%string, 3); ("bh_matmul"%string, 4)]
         (set_matmul string (Some "bh_matmul"%string) 7
            (initial_statics string)))
    = (BH_SUCCESS, 7,
       reg_calls string demo_get_func
         [("bh_random"%string, 3); ("bh_matmul"%string, 4)]
         (set_matmul string (Some "bh_matmul"%string) 7
            (initial_statics string))).
Proof.
  split; [reflexivity|].
  pose proof (reg_func_idempotent string demo_get_func "bh_matmul" 7
                (initial_statics string) BH_SUCCESS 7
                (set_matmul string (Some "bh_matmul"%string) 7
                   (initial_statics string)) eq_refl) as [_ H].
  destruct (H eq_refl eq_refl eq_refl) as (_ & _ & _ & _ & Hlater).
  exact (proj1 (Hlater [("bh_random"%string, 3); ("bh_matmul"%string, 4)] 99)).
Defined.

(** ** The dispatch loop on a memory that logs what was called *)

Definition log_free (inst : bh_instruction) (w : list string)
    : bh_error * list string := (BH_SUCCESS, w ++ ["free"%string]).
Definition log_malloc (inst : bh_instruction) (w : list string)
    : bh_error * list string := (BH_SUCCESS, w ++ ["malloc"%string]).
(** The built-in operation 13 fails, the others succeed. *)
Definition log_compute (inst : bh_instruction) (w : list string)
    : bh_error * list string :=
  (match opcode inst with
   | BH_BUILTIN 13 => BH_TYPE_NOT_SUPPORTED
   | _ => BH_SUCCESS
   end, w ++ ["compute"%string]).
Definition log_call (f : string) (inst : bh_instruction) (w : list string)
    : bh_error * list string := (BH_SUCCESS, w ++ [f]).

Definition run_naive (st : statics string)
    : list bh_instruction -> list string -> option (bh_error * list string) :=
  bh_ve_naive_execute string (list string) log_free log_malloc log_compute
    (fun _ _ => false) log_call st.

Definition instr (c : bh_opcode) (id : Z) : bh_instruction :=
  {| opcode := c; userfunc_id := id; operand0_base := 0%nat |}.

Lemma naive_execute_stops_witness :
  run_naive (initial_statics string)
    ([instr BH_SYNC 0] ++ instr (BH_BUILTIN 13) 0 :: [instr BH_FREE 0]) []
  = Some (BH_TYPE_NOT_SUPPORTED, ["compute"%string]).
Proof.
  apply (naive_execute_stops string (list string) log_free log_malloc
           log_compute (fun _ _ => false) log_call (initial_statics string)
           [instr BH_SYNC 0] [instr BH_FREE 0] (instr (BH_BUILTIN 13) 0)
           [] [] ["compute"%string] BH_TYPE_NOT_SUPPORTED).
  - reflexivity.
  - reflexivity.
  - discriminate.
Defined.

Lemma registered_userfunc_dispatched_witness :
  exists f,
    demo_get_func "bh_matmul" = Some f
    /\ dispatch string (list string) log_free log_malloc log_compute
         (fun _ _ => false) log_call
         (set_matmul string (Some "bh_matmul"%string) 7
            (initial_statics string))
         (instr BH_USERFUNC 7) []
       = Some (log_call f (instr BH_USERFUNC 7) []).
Proof.
  apply (registered_userfunc_dispatched string demo_get_func (list string)
           log_free log_malloc log_compute (fun _ _ => false) log_call
           "bh_matmul" 7 (initial_statics string)
           (set_matmul string (Some "bh_matmul"%string) 7
              (initial_statics string))
           7 (instr BH_USERFUNC 7) []).
  - reflexivity.
  - reflexivity.
  - simpl. intros [H|[]]. discriminate.
  - reflexivity.
  - reflexivity.
Defined.

Lemma userfunc_zero_before_registration_witness :
  run_naive
    (reg_calls string demo_get_func [("bh_matmul"%string, 7)]
       (initial_statics string))
    [instr BH_USERFUNC 0; instr BH_SYNC 0] []
  = None.
Proof.
  apply (userfunc_zero_before_registration string demo_get_func
           (list string) log_free log_malloc log_compute (fun _ _ => false)
           log_call [("bh_matmul"%string, 7)] (instr BH_USERFUNC 0)
           [instr BH_SYNC 0] []).
  - reflexivity.
  - reflexivity.
  - reflexivity.
Defined.

End Naive.

(* ===================================================================== *)
(** * ve/cpu/engine.cpp *)
(* ===================================================================== *)
Module Cpu.

(** ** Data of the TAC program *)

Inductive OPERATION : Type :=
  | MAP | ZIP | REDUCE | SCAN | GENERATE | SYSTEM | EXTENSION | NOOP.

(** The operators the engine names (DISCARD, FREE, SYNC); every other
    enumerator (NONE, ADD, MULTIPLY, ...) is [PRIMITIVE] with its code. *)
Inductive OPERATOR : Type :=
  | DISCARD | FREE | SYNC | PRIMITIVE (code : Z).

(** Modelled from the spec: the LAYOUT enum is declared in a header that
    is not part of the sources at hand; the spec gives its members and
    their order, SCALAR < CONSTANT < CONTIGUOUS < STRIDED < SPARSE. *)
Inductive LAYOUT : Type :=
  | SCALAR | CONSTANT | CONTIGUOUS | STRIDED | SPARSE.

Definition LAYOUT_ord (l : LAYOUT) : Z :=
  match l with
  | SCALAR => 0 | CONSTANT => 1 | CONTIGUOUS => 2 | STRIDED => 3 | SPARSE => 4
  end.

#[global] Instance OPERATION_eq_dec : EqDecision OPERATION.
Proof. solve_decision. Defined.
#[global] Instance OPERATOR_eq_dec : EqDecision OPERATOR.
Proof. solve_decision. Defined.
#[global] Instance LAYOUT_eq_dec : EqDecision LAYOUT.
Proof. solve_decision. Defined.

(** tac_t: operation, operator, three symbol handles, and [ext], the
    opcode of the instruction the ext pointer of an EXTENSION TAC refers
    to. *)
Record tac_t : Type := {
  op : OPERATION;
  oper : OPERATOR;
  out : nat;
  in1 : nat;
  in2 : nat;
  ext : Z
}.

(** operand_t: a view (base, shape, stride, start) with its layout tag.
    Bases are named by numbers. *)
Record operand_t : Type := {
  layout : LAYOUT;
  base : nat;
  shape : list Z;
  stride : list Z;
  start : Z
}.

(** What the engine reads and writes of a bh_base: the element count and
    whether the data pointer is set. *)
Record bh_base : Type := {
  nelem : Z;
  data : bool
}.

(** SymbolTable: operands by handle, and the set [temp()]. *)
Record SymbolTable : Type := {
  table : list operand_t;
  temp : gset nat
}.

Definition null_operand : operand_t :=
  {| layout := CONSTANT; base := 0%nat; shape := []; stride := []; start := 0 |}.

(** symbol_table[handle]; a handle outside the table, which
    instrs_to_tacs does not produce, reads a null operand. *)
Definition symbol_at (st : SymbolTable) (h : nat) : operand_t :=
  nth h (table st) null_operand.

Definition null_tac : tac_t :=
  {| op := NOOP; oper := PRIMITIVE 0; out := 0%nat; in1 := 0%nat;
     in2 := 0%nat; ext := 0 |}.

(** A Block is the list of its TACs (in program order); block.tac(i),
    with a NOOP for an index the block does not have. *)
Definition block_tac (block : list tac_t) (i : nat) : tac_t :=
  nth i block null_tac.

(** triplet_t {begin, end, layout}: a fuse range, both ends included. *)
Record triplet_t : Type := {
  r_begin : nat;
  r_end : nat;
  r_layout : LAYOUT
}.

(** A subgraph of the Dag: its operation mask and the global indices of
    its vertices, in vertex order. *)
Record Subgraph : Type := {
  sg_omask : Z;
  sg_vertices : list nat
}.

(** ** The engine and what it calls *)

(** Calls that leave engine.cpp, in the order they are made. *)
Inductive event : Type :=
  | EvWriteFile (fp : string)
  | EvCompile (fp : string) (src : string) (ok : bool)
  | EvAddSymbol (fp : string)
  | EvLoad (fp : string) (ok : bool)
  | EvMalloc (b : nat) (res : bh_error)
  | EvFree (b : nat) (res : bh_error)
  | EvLaunch (fp : string)
  | EvExtmethod (opcode : Z) (res : bh_error).

#[global] Instance event_eq_dec : EqDecision event.
Proof. solve_decision. Defined.

(** The answers of the outside world during one helper invocation:
    whether the external compiler produces the object for a fingerprint
    and source, whether the shared object can be opened and its launcher
    resolved, whether the allocator can serve a base, and the statuses
    of bh_vcache_free_base and of a registered extension method. *)
Record oracle : Type := {
  compile_ok : string -> string -> bool;
  load_ok : string -> bool;
  alloc_ok : nat -> bool;
  free_status : nat -> bh_error;
  extmethod_status : nat -> Z -> bh_error
}.

Record Config : Type := {
  jit_enabled : bool;
  jit_fusion : bool;
  jit_dumpsrc : bool;
  dump_rep : bool
}.

(** Modelled from the spec: class Storage is not part of the sources at
    hand.  Following section 4.6, [funcs] holds the fingerprints whose
    launcher is resolved in memory, and [symbols] the (fingerprint, object
    file) pairs recorded by add_symbol. *)
Record Storage : Type := {
  funcs : gset string;
  symbols : list (string * string)
}.

Record Engine : Type := {
  config : Config;
  exec_count : Z;
  storage : Storage;
  extensions : gmap Z nat;
  memory : gmap nat bh_base;
  trace : list event
}.

Definition log (ev : event) (e : Engine) : Engine :=
  {| config := config e; exec_count := exec_count e; storage := storage e;
     extensions := extensions e; memory := memory e;
     trace := trace e ++ [ev] |}.

Definition set_storage (s : Storage) (e : Engine) : Engine :=
  {| config := config e; exec_count := exec_count e; storage := s;
     extensions := extensions e; memory := memory e; trace := trace e |}.

Definition set_memory (m : gmap nat bh_base) (e : Engine) : Engine :=
  {| config := config e; exec_count := exec_count e; storage := storage e;
     extensions := extensions e; memory := m; trace := trace e |}.

Definition set_extensions (x : gmap Z nat) (e : Engine) : Engine :=
  {| config := config e; exec_count := exec_count e; storage := storage e;
     extensions := x; memory := memory e; trace := trace e |}.

Definition bump_exec_count (e : Engine) : Engine :=
  {| config := config e; exec_count := exec_count e + 1;
     storage := storage e; extensions := extensions e; memory := memory e;
     trace := trace e |}.

(** storage.symbol_ready(fp) *)
Definition symbol_ready (fp : string) (e : Engine) : bool :=
  bool_decide (fp ∈ funcs (storage e)).

(** storage.obj_filename(fp): the object file's name, derived from the
    fingerprint alone. *)
Definition obj_filename (fp : string) : string := (fp ++ ".so")%string.

(** storage.add_symbol(fp, obj_filename(fp)) *)
Definition add_symbol (fp : string) (e : Engine) : Engine :=
  log (EvAddSymbol fp)
    (set_storage {| funcs := funcs (storage e);
                    symbols := symbols (storage e) ++ [(fp, obj_filename fp)] |}
       e).

(** storage.load(fp): on success the launcher is cached in [funcs]. *)
Definition storage_load (o : oracle) (fp : string) (e : Engine)
    : bool * Engine :=
  if load_ok o fp then
    (true, log (EvLoad fp true)
             (set_storage {| funcs := {[fp]} ∪ funcs (storage e);
                             symbols := symbols (storage e) |} e))
  else (false, log (EvLoad fp false) e).

Definition null_base : bh_base := {| nelem := 0; data := false |}.

Definition base_at (e : Engine) (b : nat) : bh_base :=
  default null_base (memory e !! b).

(** Modelled from the spec: the victim cache (bh_vcache.h) is not part of
    the sources at hand.  Following section 4.1, malloc is a no-op on a
    base that has a buffer, and otherwise hands out a buffer or fails with
    OUT_OF_MEMORY; whether the buffer is recycled or fresh is not told
    apart. *)
Definition bh_vcache_malloc_base (o : oracle) (b : nat) (e : Engine)
    : bh_error * Engine :=
  if data (base_at e b) then (BH_SUCCESS, log (EvMalloc b BH_SUCCESS) e)
  else if alloc_ok o b then
    (BH_SUCCESS,
     log (EvMalloc b BH_SUCCESS)
       (set_memory (<[b := {| nelem := nelem (base_at e b); data := true |}]>
                      (memory e)) e))
  else (BH_OUT_OF_MEMORY, log (EvMalloc b BH_OUT_OF_MEMORY) e).

(** Modelled from the spec: free detaches the buffer of the base. *)
Definition bh_vcache_free_base (o : oracle) (b : nat) (e : Engine)
    : bh_error * Engine :=
  let res := free_status o b in
  if is_success res then
    (res,
     log (EvFree b res)
       (set_memory (<[b := {| nelem := nelem (base_at e b); data := false |}]>
                      (memory e)) e))
  else (res, log (EvFree b res) e).

(** storage.funcs[fp](block.operands()): calling the cached launcher.  A
    fingerprint without a launcher is a call through a null pointer and
    has no result. *)
Definition launch (fp : string) (e : Engine) : option Engine :=
  if symbol_ready fp e then Some (log (EvLaunch fp) e) else None.

(** bh_error Engine::register_extension(instance, name, opcode);
    [bh_component_extmethod] is the component lookup, giving a status and
    the method it found. *)
Definition register_extension
    (bh_component_extmethod : string -> bh_error * nat)
    (name : string) (opcode : Z) (e : Engine) : bh_error * Engine :=
  let '(err, extmethod) := bh_component_extmethod name in
  if negb (is_success err) then (err, e)
  else (BH_SUCCESS, set_extensions (<[opcode := extmethod]> (extensions e)) e).

Section Helpers.
(** Functions and constants of the core library that engine.cpp uses but
    does not define. *)
(** block.symbolize() followed by block.symbol(): whether a symbol could
    be created, and the fingerprint the block then carries. *)
Variable symbolize : SymbolTable -> list tac_t -> bool * string.
(** specializer.specialize(symbol_table, block, 0, 0) *)
Variable specialize_sij : SymbolTable -> list tac_t -> string.
(** specializer.specialize(symbol_table, block, ranges) *)
Variable specialize_fuse :
  SymbolTable -> list tac_t -> list triplet_t -> string.
(** core::compatible and core::tac_noperands *)
Variable compatible : operand_t -> operand_t -> bool.
Variable tac_noperands : tac_t -> nat.
(** The enumerator values of OPERATION and the two masks over them. *)
Variable OPERATION_val : OPERATION -> Z.
Variable ARRAY_OPS : Z.
Variable NON_FUSABLE : Z.

(** The block both helpers contain under "JIT-compile the block if
    enabled", entered when the guard in front of it holds: optionally
    dump the source, send it to the compiler, and inform storage only if
    the compiler succeeded. *)
Definition jit_compile (o : oracle) (fp src : string) (e : Engine)
    : bh_error * Engine :=
  let e1 := if jit_dumpsrc (config e) then log (EvWriteFile fp) e else e in
  let compile_res := compile_ok o fp src in
  let e2 := log (EvCompile fp src compile_res) e1 in
  if compile_res then (BH_SUCCESS, add_symbol fp e2)
  else (BH_ERROR, e2).

(** "Load the compiled code": storage.load is only called when the
    symbol is not ready (the && short-circuits). *)
Definition load_if_needed (o : oracle) (fp : string) (e : Engine)
    : bh_error * Engine :=
  if symbol_ready fp e then (BH_SUCCESS, e)
  else
    let '(loaded, e1) := storage_load o fp e in
    if loaded then (BH_SUCCESS, e1) else (BH_ERROR, e1).

(** The case "Array operations (MAP | ZIP | REDUCE | SCAN)" of
    [sij_mode], which the labels MAP, ZIP, GENERATE, REDUCE and SCAN
    share. *)
Definition sij_array_operation (o : oracle) (symbol_table : SymbolTable)
    (block : list tac_t) (tac : tac_t) (e : Engine)
    : option (bh_error * Engine) :=
  let fp := (symbolize symbol_table block).2 in
  let '(res, e1) :=
    if jit_enabled (config e) && negb (symbol_ready fp e) then
      jit_compile o fp (specialize_sij symbol_table block) e
    else (BH_SUCCESS, e) in
  if negb (is_success res) then Some (res, e1) else
  let '(res, e2) := load_if_needed o fp e1 in
  if negb (is_success res) then Some (res, e2) else
  let '(res, e3) :=
    bh_vcache_malloc_base o (base (symbol_at symbol_table (out tac))) e2 in
  if negb (is_success res) then Some (res, e3) else
  match launch fp e3 with
  | Some e4 => Some (BH_SUCCESS, e4)
  | None => None
  end.

(** bh_error Engine::sij_mode(symbol_table, program, block) *)
Definition sij_mode (o : oracle) (symbol_table : SymbolTable)
    (block : list tac_t) (e : Engine) : option (bh_error * Engine) :=
  let tac := block_tac block 0 in
  match op tac with
  | NOOP => Some (BH_SUCCESS, e)
  | SYSTEM =>
      match oper tac with
      | DISCARD | SYNC => Some (BH_SUCCESS, e)
      | FREE =>
          let '(res, e1) :=
            bh_vcache_free_base o (base (symbol_at symbol_table (out tac))) e in
          if is_success res then Some (BH_SUCCESS, e1) else Some (res, e1)
      | PRIMITIVE _ => Some (BH_ERROR, e)
      end
  | EXTENSION =>
      match extensions e !! ext tac with
      | Some extmethod =>
          let res := extmethod_status o extmethod (ext tac) in
          let e1 := log (EvExtmethod (ext tac) res) e in
          if is_success res then Some (BH_SUCCESS, e1) else Some (res, e1)
      | None => Some (BH_SUCCESS, e)
      end
  | MAP | ZIP | GENERATE | REDUCE | SCAN =>
      sij_array_operation o symbol_table block tac e
  end.

(** *** fuse_mode: determining the fuse ranges *)

(** The variables the sweep carries from one TAC to the next; [first] is
    the index of the TAC the pointer [first] refers to. *)
Record sweep : Type := {
  ranges : list triplet_t;
  range_begin : nat;
  first : nat;
  fusion_layout : LAYOUT
}.

Definition sweep_init : sweep :=
  {| ranges := []; range_begin := 0%nat; first := 0%nat;
     fusion_layout := CONSTANT |}.

Definition triplet (b e : nat) (l : LAYOUT) : triplet_t :=
  {| r_begin := b; r_end := e; r_layout := l |}.

(** next_layout = ...; if (next_layout > fusion_layout) fusion_layout =
    next_layout; *)
Definition note_layout (next_layout fusion : LAYOUT) : LAYOUT :=
  if LAYOUT_ord next_layout >? LAYOUT_ord fusion then next_layout else fusion.

(** One case label of the operand switch: note the layout of operand [h]
    of [next] and test it against the output of [first]. *)
Definition check_operand (st : SymbolTable) (first_tac : tac_t) (h : nat)
    (acc : bool * LAYOUT) : bool * LAYOUT :=
  (acc.1 && compatible (symbol_at st (out first_tac)) (symbol_at st h),
   note_layout (layout (symbol_at st h)) acc.2).

(** switch(core::tac_noperands(next)), with its fall-through from 3 to 2. *)
Definition check_operands (st : SymbolTable) (first_tac next : tac_t)
    (fusion : LAYOUT) : bool * LAYOUT :=
  match tac_noperands next with
  | 3%nat =>
      check_operand st first_tac (out next)
        (check_operand st first_tac (in1 next)
           (check_operand st first_tac (in2 next) (true, fusion)))
  | 2%nat =>
      check_operand st first_tac (out next)
        (check_operand st first_tac (in1 next) (true, fusion))
  | _ => (true, fusion)
  end.

(** The guard under "Ignore these", as written in the source. *)
Definition ignored (next : tac_t) : bool :=
  bool_decide (op next = SYSTEM) && bool_decide (op next = NOOP).

(** The guard as the specification words it: SYSTEM or NOOP. *)
Definition ignored_as_specified (next : tac_t) : bool :=
  bool_decide (op next = SYSTEM) || bool_decide (op next = NOOP).

(** The body of the sweep for the TAC at [tac_idx]; [skip] is the guard
    under "Ignore these". *)
Definition sweep_step_with (skip : tac_t -> bool) (st : SymbolTable)
    (block : list tac_t) (s : sweep) (tac_idx : nat) : sweep :=
  let ntacs := length block in
  let range_end := tac_idx in
  let next := block_tac block tac_idx in
  if skip next then s
  else if negb (bool_decide (op next = MAP) || bool_decide (op next = ZIP))
  then
    let rs :=
      if (range_begin s <? range_end)%nat then
        ranges s ++ [triplet (range_begin s) (range_end - 1) (fusion_layout s);
                     triplet range_end range_end (fusion_layout s)]
      else
        ranges s ++ [triplet (range_begin s) (range_begin s) (fusion_layout s)]
    in
    let rb := (tac_idx + 1)%nat in
    {| ranges := rs; range_begin := rb;
       first := if (rb <? ntacs)%nat then rb else first s;
       fusion_layout := fusion_layout s |}
  else
    let '(compat_operands, fl) :=
      check_operands st (block_tac block (first s)) next (fusion_layout s) in
    if negb compat_operands then
      let rs :=
        if (range_begin s <? range_end)%nat then
          ranges s ++ [triplet (range_begin s) (range_end - 1) fl]
        else
          ranges s ++ [triplet (range_begin s) (range_begin s) fl]
      in
      let rb := tac_idx in
      {| ranges := rs; range_begin := rb;
         first := if (rb <? ntacs)%nat then rb else first s;
         fusion_layout := fl |}
    else
      {| ranges := ranges s; range_begin := range_begin s; first := first s;
         fusion_layout := fl |}.

(** The sweep over the block and "Store the last range". *)
Definition fuse_ranges_with (skip : tac_t -> bool) (st : SymbolTable)
    (block : list tac_t) : list triplet_t :=
  let ntacs := length block in
  let s := fold_left (sweep_step_with skip st block) (seq 0 ntacs) sweep_init in
  if (range_begin s <? ntacs)%nat then
    ranges s ++ [triplet (range_begin s) (ntacs - 1) (fusion_layout s)]
  else ranges s.

(** The sweep of the source. *)
Definition sweep_step : SymbolTable -> list tac_t -> sweep -> nat -> sweep :=
  sweep_step_with ignored.

Definition fuse_ranges : SymbolTable -> list tac_t -> list triplet_t :=
  fuse_ranges_with ignored.

(** *** fuse_mode: scalar replacement *)

(** The reference count of one range: [inputs], [outputs] and the set
    [all_operands]. *)
Record refcount : Type := {
  inputs : list nat;
  outputs : list nat;
  all_operands : gset nat
}.

Definition push_input (h : nat) (r : refcount) : refcount :=
  {| inputs := inputs r ++ [h]; outputs := outputs r;
     all_operands := {[h]} ∪ all_operands r |}.

Definition push_output (h : nat) (r : refcount) : refcount :=
  {| inputs := inputs r; outputs := outputs r ++ [h];
     all_operands := {[h]} ∪ all_operands r |}.

(** switch(core::tac_noperands(tac)) of the ref-count, falling through
    from 3 to 2 to 1. *)
Definition count_tac (r : refcount) (tac : tac_t) : refcount :=
  match tac_noperands tac with
  | 3%nat =>
      let r1 := if bool_decide (in2 tac ≠ in1 tac)
                then push_input (in2 tac) r else r in
      push_output (out tac) (push_input (in1 tac) r1)
  | 2%nat => push_output (out tac) (push_input (in1 tac) r)
  | 1%nat => push_output (out tac) r
  | _ => r
  end.

(** Ref-count within the range [r_begin .. r_end]. *)
Definition range_refcount (block : list tac_t) (r : triplet_t) : refcount :=
  fold_left count_tac
    (map (block_tac block) (seq (r_begin r) (r_end r + 1 - r_begin r)))
    {| inputs := []; outputs := []; all_operands := ∅ |}.

(** The condition in front of "Turning ... scalar": read once and written
    once within the range, and a member of temp(). *)
Definition scalar_candidate (st : SymbolTable) (block : list tac_t)
    (r : triplet_t) (operand : nat) : bool :=
  let rc := range_refcount block r in
  bool_decide (operand ∈ all_operands rc)
  && bool_decide (count_occ Nat.eq_dec (inputs rc) operand = 1%nat)
  && bool_decide (count_occ Nat.eq_dec (outputs rc) operand = 1%nat)
  && bool_decide (operand ∈ temp st).

(** The operands for which the loop reaches its body.  The body holds a
    debug message only (the call of turn_scalar is commented out), so the
    pass changes neither the symbol table nor the block. *)
Definition scalar_replacement (st : SymbolTable) (block : list tac_t)
    (rs : list triplet_t) : list (triplet_t * nat) :=
  flat_map (fun r =>
      map (fun operand => (r, operand))
        (filter (fun operand => scalar_candidate st block r operand = true)
           (elements (all_operands (range_refcount block r)))))
    rs.

(** *** fuse_mode: the rest of the helper *)

(** (x & ARRAY_OPS) > 0 *)
Definition has_array_ops (x : Z) : bool := Z.land x ARRAY_OPS >? 0.

(** if ((operand.layout == SCALAR) && (operand.base->data == NULL))
      operand.base->nelem = 1; *)
Definition scalar_nelem (operand : operand_t) (e : Engine) : Engine :=
  if bool_decide (layout operand = SCALAR)
     && negb (data (base_at e (base operand)))
  then set_memory (<[base operand := {| nelem := 1; data := false |}]>
                     (memory e)) e
  else e.

(** "Allocate memory for output": for the TACs from [tacs] on. *)
Fixpoint allocate_outputs (o : oracle) (st : SymbolTable)
    (tacs : list tac_t) (e : Engine) : bh_error * Engine :=
  match tacs with
  | [] => (BH_SUCCESS, e)
  | tac :: rest =>
      if has_array_ops (OPERATION_val (op tac)) then
        let operand := symbol_at st (out tac) in
        let '(res, e1) :=
          bh_vcache_malloc_base o (base operand) (scalar_nelem operand e) in
        if is_success res then allocate_outputs o st rest e1
        else (res, e1)
      else allocate_outputs o st rest e
  end.

(** "De-Allocate operand memory": for the TACs from [tacs] on. *)
Fixpoint free_operands (o : oracle) (st : SymbolTable)
    (tacs : list tac_t) (e : Engine) : bh_error * Engine :=
  match tacs with
  | [] => (BH_SUCCESS, e)
  | tac :: rest =>
      if bool_decide (oper tac = FREE) then
        let '(res, e1) :=
          bh_vcache_free_base o (base (symbol_at st (out tac))) e in
        if is_success res then free_operands o st rest e1
        else (res, e1)
      else free_operands o st rest e
  end.

(** bh_error Engine::fuse_mode(symbol_table, program, graph, subgraph_idx,
    block); [omask] is graph.omask(subgraph_idx). *)
Definition fuse_mode (o : oracle) (symbol_table : SymbolTable) (omask : Z)
    (block : list tac_t) (e : Engine) : option (bh_error * Engine) :=
  let ranges := fuse_ranges symbol_table block in
  let _turned := scalar_replacement symbol_table block ranges in
  let '(symbolized, fp) := symbolize symbol_table block in
  if negb symbolized then Some (BH_ERROR, e) else
  let '(res, e1) :=
    if jit_enabled (config e) && has_array_ops omask
       && negb (symbol_ready fp e) then
      jit_compile o fp (specialize_fuse symbol_table block ranges) e
    else (BH_SUCCESS, e) in
  if negb (is_success res) then Some (res, e1) else
  let '(res, e2) :=
    if has_array_ops omask then load_if_needed o fp e1
    else (BH_SUCCESS, e1) in
  if negb (is_success res) then Some (res, e2) else
  let '(res, e3) := allocate_outputs o symbol_table block e2 in
  if negb (is_success res) then Some (res, e3) else
  match launch fp e3 with
  | None => None
  | Some e4 =>
      let '(res, e5) := free_operands o symbol_table block e4 in
      if negb (is_success res) then Some (res, e5)
      else Some (BH_SUCCESS, e5)
  end.

(** ** Engine::execute *)

(** The front half of execute, which lives in other files: the
    instruction type, instrs_to_tacs followed by count_tmp (the program
    and the symbol table of a batch), and the Dag constructor with
    subgraphs() and omask(). *)
Variable bh_instruction : Type.
Variable instrs_to_tacs : list bh_instruction -> list tac_t * SymbolTable.
Variable count_tmp : SymbolTable -> SymbolTable.
Variable Dag : SymbolTable -> list tac_t -> list Subgraph.

(** Modelled from the spec: Block::compose is not part of the sources at
    hand.  Following section 4.4, composing a subgraph takes its TACs in
    program order; compose(v, v) takes the single TAC [v]. *)
Definition compose (program : list tac_t) (vertices : list nat)
    : list tac_t :=
  map (fun v => nth v program null_tac) vertices.

(** What execute hands to one helper call. *)
Inductive invocation : Type :=
  | FuseMode (st : SymbolTable) (omask : Z) (block : list tac_t)
  | SijMode (st : SymbolTable) (block : list tac_t).

Definition invoke (o : oracle) (i : invocation) (e : Engine)
    : option (bh_error * Engine) :=
  match i with
  | FuseMode st omask block => fuse_mode o st omask block e
  | SijMode st block => sij_mode o st block e
  end.

(** The helper calls of one subgraph: the branch of the loop body. *)
Definition subgraph_invocations (cfg : Config) (st : SymbolTable)
    (program : list tac_t) (sg : Subgraph) : list invocation :=
  if jit_fusion cfg
     && (Z.land (sg_omask sg) NON_FUSABLE =? 0)
     && has_array_ops (sg_omask sg)
  then [FuseMode st (sg_omask sg) (compose program (sg_vertices sg))]
  else map (fun v => SijMode st (compose program [v])) (sg_vertices sg).

(** The helper calls of a batch, in the order execute makes them. *)
Definition batch_invocations (cfg : Config)
    (instrs : list bh_instruction) : list invocation :=
  let '(program, st0) := instrs_to_tacs instrs in
  let st := count_tmp st0 in
  flat_map (subgraph_invocations cfg st program) (Dag st program).

(** The helper calls as execute writes them: as statements, so the status
    a helper returns is dropped and the next call is made on the engine
    the previous one left. *)
Fixpoint call_helpers (o : oracle) (calls : list invocation) (e : Engine)
    : option Engine :=
  match calls with
  | [] => Some e
  | i :: rest =>
      match invoke o i e with
      | None => None
      | Some (_, e1) => call_helpers o rest e1
      end
  end.

(** bh_error Engine::execute(bh_instruction* instrs, bh_intp ninstrs):
    [res] is initialised to BH_SUCCESS, never assigned, and returned.
    The graph file written under dump_rep is not part of the engine
    state and is left out. *)
Definition execute (o : oracle) (instrs : list bh_instruction) (e : Engine)
    : option (bh_error * Engine) :=
  let e0 := bump_exec_count e in
  let res := BH_SUCCESS in
  match call_helpers o (batch_invocations (config e0) instrs) e0 with
  | None => None
  | Some e1 => Some (res, e1)
  end.

(** The engine after its constructor: nothing executed yet, no extension
    registered; [preloaded] are the fingerprints storage.preload() found
    (none when preloading is off). *)
Definition new_engine (cfg : Config) (preloaded : gset string)
    (mem : gmap nat bh_base) : Engine :=
  {| config := cfg; exec_count := 0;
     storage := {| funcs := preloaded; symbols := [] |};
     extensions := ∅; memory := mem; trace := [] |}.

(** A lifetime of helper calls, each under the answers of its moment. *)
Fixpoint lifetime (calls : list (oracle * invocation)) (e : Engine)
    : option Engine :=
  match calls with
  | [] => Some e
  | (o, i) :: rest =>
      match invoke o i e with
      | None => None
      | Some (_, e1) => lifetime rest e1
      end
  end.

(** ** What a helper call leaves in the trace and in storage *)

(** Events that neither compile nor load. *)
Definition quiet (ev : event) : bool :=
  match ev with
  | EvCompile _ _ _ | EvLoad _ _ | EvAddSymbol _ => false
  | _ => true
  end.

(** Whether an event is a call of the compiler for fingerprint [fp]. *)
Definition is_compile_of (fp : string) (ev : event) : bool :=
  match ev with
  | EvCompile fp' _ _ => bool_decide (fp' = fp)
  | _ => false
  end.

(** How often the compiler was called for [fp] in a trace. *)
Definition compiles (fp : string) (t : list event) : nat :=
  length (List.filter (is_compile_of fp) t).

(** [e'] continues [e]: same configuration and extensions, and the trace
    grown by [t]. *)
Definition continues (e e' : Engine) (t : list event) : Prop :=
  trace e' = trace e ++ t /\ config e' = config e
  /\ extensions e' = extensions e.

Lemma continues_refl (e : Engine) : continues e e [].
Proof. unfold continues. rewrite app_nil_r. auto. Qed.

Lemma continues_trans (e1 e2 e3 : Engine) (t1 t2 : list event) :
  continues e1 e2 t1 -> continues e2 e3 t2 -> continues e1 e3 (t1 ++ t2).
Proof.
  unfold continues. intros (H1 & H2 & H3) (H4 & H5 & H6).
  rewrite H4, H1, app_assoc. repeat split; congruence.
Qed.

Lemma continues_log (ev : event) (e : Engine) : continues e (log ev e) [ev].
Proof. unfold continues. simpl. auto. Qed.

Lemma compiles_app (fp : string) (t1 t2 : list event) :
  compiles fp (t1 ++ t2) = (compiles fp t1 + compiles fp t2)%nat.
Proof. unfold compiles. rewrite List.filter_app, length_app. reflexivity. Qed.

Lemma compiles_quiet (fp : string) (t : list event) :
  forallb quiet t = true -> compiles fp t = 0%nat.
Proof.
  unfold compiles. induction t as [|ev t IH]; simpl; [reflexivity|].
  intros H. apply andb_true_iff in H as [H1 H2].
  destruct ev; simpl in *; try discriminate; auto.
Qed.

Lemma quiet_no_load (fp : string) (ok : bool) (t : list event) :
  forallb quiet t = true -> ~ In (EvLoad fp ok) t.
Proof.
  intros H Hin. rewrite forallb_forall in H. apply H in Hin. discriminate.
Qed.

Lemma malloc_base_continues (o : oracle) (b : nat) (e e' : Engine)
    (r : bh_error) :
  bh_vcache_malloc_base o b e = (r, e') ->
  continues e e' [EvMalloc b r] /\ storage e' = storage e.
Proof.
  unfold bh_vcache_malloc_base, continues.
  destruct (data (base_at e b)); [|destruct (alloc_ok o b)];
    intros H; inversion H; subst; simpl; auto.
Qed.

Lemma free_base_continues (o : oracle) (b : nat) (e e' : Engine)
    (r : bh_error) :
  bh_vcache_free_base o b e = (r, e') ->
  continues e e' [EvFree b r] /\ storage e' = storage e.
Proof.
  unfold bh_vcache_free_base, continues.
  destruct (is_success (free_status o b));
    intros H; inversion H; subst; simpl; auto.
Qed.

Lemma scalar_nelem_continues (operand : operand_t) (e : Engine) :
  continues e (scalar_nelem operand e) []
  /\ storage (scalar_nelem operand e) = storage e.
Proof.
  unfold scalar_nelem, continues.
  destruct (_ && _); simpl; rewrite app_nil_r; auto.
Qed.

(** The allocation loop: on success every array operation of the block
    had bh_vcache_malloc_base called on the base of its output. *)
Lemma allocate_outputs_trace (o : oracle) (st : SymbolTable)
    (tacs : list tac_t) (e e' : Engine) (r : bh_error) :
  allocate_outputs o st tacs e = (r, e') ->
  exists t, continues e e' t /\ storage e' = storage e
    /\ forallb quiet t = true
    /\ (r = BH_SUCCESS -> forall tac, In tac tacs ->
          has_array_ops (OPERATION_val (op tac)) = true ->
          In (EvMalloc (base (symbol_at st (out tac))) BH_SUCCESS) t).
Proof.
  revert e. induction tacs as [|tac rest IH]; intros e H; simpl in H.
  - inversion H; subst. exists []. split; [apply continues_refl|].
    repeat split; auto; intros _ ? [].
  - destruct (has_array_ops (OPERATION_val (op tac))) eqn:Ha.
    + destruct (bh_vcache_malloc_base _ _ _) as [res e1] eqn:Hm.
      apply malloc_base_continues in Hm as [Hc Hs].
      destruct (scalar_nelem_continues (symbol_at st (out tac)) e)
        as [Hc0 Hs0].
      pose proof (continues_trans _ _ _ _ _ Hc0 Hc) as Hc1. simpl in Hc1.
      destruct (is_success res) eqn:Hres.
      * destruct res; try discriminate.
        apply IH in H as (t & Hc2 & Hs2 & Hq & Hall).
        exists ([EvMalloc (base (symbol_at st (out tac))) BH_SUCCESS] ++ t).
        split; [eapply continues_trans; eauto|].
        split; [congruence|]. split; [simpl; auto|].
        intros Hr tac' [<-|Hin] Hop; simpl; auto.
      * inversion H; subst.
        exists [EvMalloc (base (symbol_at st (out tac))) r].
        split; [auto|]. split; [congruence|]. split; [reflexivity|].
        intros ->. discriminate.
    + apply IH in H as (t & Hc2 & Hs2 & Hq & Hall).
      exists t. repeat split; try apply Hc2; auto.
      intros Hr tac' [<-|Hin] Hop; [congruence|auto].
Qed.

(** The de-allocation loop: on success every TAC whose operator is FREE
    had bh_vcache_free_base called on the base of its operand. *)
Lemma free_operands_trace (o : oracle) (st : SymbolTable)
    (tacs : list tac_t) (e e' : Engine) (r : bh_error) :
  free_operands o st tacs e = (r, e') ->
  exists t, continues e e' t /\ storage e' = storage e
    /\ forallb quiet t = true
    /\ (r = BH_SUCCESS -> forall tac, In tac tacs -> oper tac = FREE ->
          In (EvFree (base (symbol_at st (out tac))) BH_SUCCESS) t).
Proof.
  revert e. induction tacs as [|tac rest IH]; intros e H; simpl in H.
  - inversion H; subst. exists []. split; [apply continues_refl|].
    repeat split; auto; intros _ ? [].
  - destruct (bool_decide (oper tac = FREE)) eqn:Hf.
    + destruct (bh_vcache_free_base _ _ _) as [res e1] eqn:Hm.
      apply free_base_continues in Hm as [Hc Hs].
      destruct (is_success res) eqn:Hres.
      * destruct res; try discriminate.
        apply IH in H as (t & Hc2 & Hs2 & Hq & Hall).
        exists ([EvFree (base (symbol_at st (out tac))) BH_SUCCESS] ++ t).
        split; [eapply continues_trans; eauto|].
        split; [congruence|]. split; [simpl; auto|].
        intros Hr tac' [<-|Hin] Hop; simpl; auto.
      * inversion H; subst.
        exists [EvFree (base (symbol_at st (out tac))) r].
        split; [auto|]. split; [congruence|]. split; [reflexivity|].
        intros ->. discriminate.
    + apply IH in H as (t & Hc2 & Hs2 & Hq & Hall).
      exists t. repeat split; try apply Hc2; auto.
      intros Hr tac' [<-|Hin] Hop; [|auto].
      apply bool_decide_eq_false in Hf. contradiction.
Qed.

(** The source dump in front of a compiler call. *)
Definition dump_events (e : Engine) (fp : string) : list event :=
  if jit_dumpsrc (config e) then [EvWriteFile fp] else [].

(** The exact trace of the compile block. *)
Lemma jit_compile_trace (o : oracle) (fp src : string) (e : Engine) :
  exists e',
    jit_compile o fp src e
      = (if compile_ok o fp src then BH_SUCCESS else BH_ERROR, e')
    /\ continues e e'
         (dump_events e fp ++
          EvCompile fp src (compile_ok o fp src) ::
          (if compile_ok o fp src then [EvAddSymbol fp] else []))
    /\ funcs (storage e') = funcs (storage e)
    /\ memory e' = memory e
    /\ (compile_ok o fp src = false -> storage e' = storage e).
Proof.
  unfold jit_compile, dump_events, continues, add_symbol.
  destruct (jit_dumpsrc (config e)), (compile_ok o fp src);
    eexists; (split; [reflexivity|]); simpl;
    rewrite <- ?app_assoc; simpl; repeat split; auto; discriminate.
Qed.

(** The exact trace of the load block. *)
Lemma load_if_needed_trace (o : oracle) (fp : string) (e : Engine) :
  exists e',
    load_if_needed o fp e
      = (if symbol_ready fp e || load_ok o fp then BH_SUCCESS else BH_ERROR,
         e')
    /\ continues e e'
         (if symbol_ready fp e then [] else [EvLoad fp (load_ok o fp)])
    /\ funcs (storage e')
         = (if negb (symbol_ready fp e) && load_ok o fp
            then {[fp]} ∪ funcs (storage e) else funcs (storage e))
    /\ memory e' = memory e.
Proof.
  unfold load_if_needed, storage_load, continues.
  destruct (symbol_ready fp e); [|destruct (load_ok o fp)];
    eexists; (split; [reflexivity|]); simpl;
    rewrite ?app_nil_r; repeat split; auto.
Qed.

(** An oracle under which the toolchain never fails. *)
Definition healthy (o : oracle) : Prop :=
  (forall fp src, compile_ok o fp src = true)
  /\ (forall fp, load_ok o fp = true).

(** What one helper call does to storage, read off the trace [t] it
    adds: launchers are only added, exactly the successfully loaded
    ones; and the compiler is called at most once, for a fingerprint
    that had no launcher, which has one afterwards if the toolchain did
    not fail. *)
Definition helper_summary (o : oracle) (e e' : Engine) (t : list event)
    : Prop :=
  continues e e' t
  /\ funcs (storage e) ⊆ funcs (storage e')
  /\ (forall f, In (EvLoad f true) t -> f ∈ funcs (storage e'))
  /\ (forall f, f ∈ funcs (storage e') ->
        (f ∈ funcs (storage e)) \/ In (EvLoad f true) t)
  /\ ((forall f, compiles f t = 0%nat)
      \/ exists fp, (fp ∉ funcs (storage e)) /\ compiles fp t = 1%nat
           /\ (forall f, f <> fp -> compiles f t = 0%nat)
           /\ (healthy o -> fp ∈ funcs (storage e'))).

Lemma quiet_summary (o : oracle) (e e' : Engine) (t : list event) :
  continues e e' t -> storage e' = storage e -> forallb quiet t = true ->
  helper_summary o e e' t.
Proof.
  intros Hc Hs Hq. unfold helper_summary. rewrite Hs.
  split; [exact Hc|]. split; [reflexivity|].
  split; [intros f Hin; exfalso; eapply quiet_no_load; eauto|].
  split; [auto|]. left. intros f. apply compiles_quiet; auto.
Qed.

Lemma summary_quiet_tail (o : oracle) (e e1 e2 : Engine)
    (t t2 : list event) :
  helper_summary o e e1 t -> continues e1 e2 t2 ->
  storage e2 = storage e1 -> forallb quiet t2 = true ->
  helper_summary o e e2 (t ++ t2).
Proof.
  intros (Hc & Hsub & Hl & Hf & Hcomp) Hc2 Hs Hq.
  unfold helper_summary. rewrite Hs.
  split; [eapply continues_trans; eauto|]. split; [auto|].
  split.
  { intros f Hin. apply in_app_or in Hin as [Hin|Hin]; [auto|].
    exfalso; eapply quiet_no_load; eauto. }
  split.
  { intros f Hin. destruct (Hf f Hin); [auto|right; apply in_or_app; auto]. }
  destruct Hcomp as [Hz|(fp & Hn & H1 & H0 & Hh)].
  - left. intros f. rewrite compiles_app, Hz, compiles_quiet; auto.
  - right. exists fp. split; [auto|].
    split; [rewrite compiles_app, H1, compiles_quiet; auto|].
    split; [|auto].
    intros f Hne. rewrite compiles_app, H0, compiles_quiet; auto.
Qed.

Lemma symbol_ready_true (fp : string) (e : Engine) :
  symbol_ready fp e = true <-> fp ∈ funcs (storage e).
Proof. unfold symbol_ready. apply bool_decide_eq_true. Qed.

Lemma symbol_ready_false (fp : string) (e : Engine) :
  symbol_ready fp e = false <-> fp ∉ funcs (storage e).
Proof. unfold symbol_ready. apply bool_decide_eq_false. Qed.

Lemma compiles_dump (f : string) (e : Engine) (fp : string) :
  compiles f (dump_events e fp) = 0%nat.
Proof. unfold dump_events. destruct (jit_dumpsrc _); reflexivity. Qed.

Lemma compiles_compile_event (f fp src : string) (ok : bool)
    (e : Engine) (rest : list event) :
  compiles f (dump_events e fp ++ EvCompile fp src ok :: rest)
    = ((if bool_decide (fp = f) then 1 else 0) + compiles f rest)%nat.
Proof.
  rewrite compiles_app, compiles_dump. unfold compiles. simpl.
  destruct (bool_decide (fp = f)); reflexivity.
Qed.

(** The compile block followed by the load block, as both helpers chain
    them: [g1] is the part of the compile guard in front of the
    symbol_ready test, [g2] the guard of the load block. *)
Lemma compile_load_summary (o : oracle) (fp src : string) (g1 g2 : bool)
    (e e1 e2 : Engine) (r1 r2 : bh_error) :
  (g1 = true -> g2 = true) ->
  (if g1 && negb (symbol_ready fp e) then jit_compile o fp src e
   else (BH_SUCCESS, e)) = (r1, e1) ->
  (if is_success r1
   then (if g2 then load_if_needed o fp e1 else (BH_SUCCESS, e1))
   else (r1, e1)) = (r2, e2) ->
  exists t, helper_summary o e e2 t /\ memory e2 = memory e
    /\ (g2 = true -> r2 = BH_SUCCESS -> symbol_ready fp e2 = true).
Proof.
  intros Hg H1 H2.
  destruct (g1 && negb (symbol_ready fp e)) eqn:Hguard.
  - apply andb_true_iff in Hguard as [-> Hnr]. rewrite (Hg eq_refl) in *.
    apply negb_true_iff in Hnr.
    destruct (jit_compile_trace o fp src e) as (e1' & Hj & Hc1 & Hf1 & Hm1 & _).
    rewrite Hj in H1. inversion H1; subst e1' r1; clear H1.
    destruct (compile_ok o fp src) eqn:Hok; simpl in H2.
    + destruct (load_if_needed_trace o fp e1) as (e2' & Hl & Hc2 & Hf2 & Hm2).
      rewrite Hl in H2. inversion H2; subst e2' r2; clear H2.
      assert (Hnr1 : symbol_ready fp e1 = false).
      { apply symbol_ready_false. rewrite Hf1.
        apply symbol_ready_false; auto. }
      rewrite Hnr1 in *. simpl in *.
      eexists. split; [|split; [congruence|]].
      * unfold helper_summary.
        split; [eapply continues_trans; eauto|].
        rewrite Hf2, Hf1.
        split; [destruct (load_ok o fp); [apply union_subseteq_r|reflexivity]|].
        split.
        { intros f Hin. apply in_app_or in Hin as [Hin|Hin].
          - exfalso. unfold dump_events in Hin.
            destruct (jit_dumpsrc _); simpl in Hin;
              intuition discriminate.
          - destruct Hin as [Hin|[]]. injection Hin as -> Hlo.
            rewrite Hlo. apply elem_of_union_l, elem_of_singleton; reflexivity. }
        split.
        { intros f Hin. destruct (load_ok o fp) eqn:Hlo; [|auto].
          apply elem_of_union in Hin as [Hin|Hin]; [|auto].
          apply elem_of_singleton in Hin as ->.
          right. apply in_or_app. right. simpl. auto. }
        right. exists fp.
        split; [apply symbol_ready_false; auto|].
        split.
        { rewrite compiles_app, compiles_compile_event.
          rewrite bool_decide_eq_true_2 by reflexivity. reflexivity. }
        split.
        { intros f Hne. rewrite compiles_app, compiles_compile_event.
          rewrite bool_decide_eq_false_2 by congruence. reflexivity. }
        intros [_ Hload]. rewrite Hload.
        apply elem_of_union_l, elem_of_singleton; reflexivity.
      * intros _ Hr. apply symbol_ready_true. rewrite Hf2.
        destruct (load_ok o fp); [|discriminate].
        apply elem_of_union_l, elem_of_singleton; reflexivity.
    + inversion H2; subst e2 r2; clear H2.
      eexists. split; [|split; [congruence|intros _; discriminate]].
      unfold helper_summary. split; [exact Hc1|]. rewrite Hf1.
      split; [reflexivity|].
      split.
      { intros f Hin. exfalso. apply in_app_or in Hin as [Hin|Hin].
        - unfold dump_events in Hin.
          destruct (jit_dumpsrc _); simpl in Hin; intuition discriminate.
        - simpl in Hin. intuition discriminate. }
      split; [auto|].
      right. exists fp.
      split; [apply symbol_ready_false; auto|].
      split.
      { rewrite compiles_compile_event.
        rewrite bool_decide_eq_true_2 by reflexivity. reflexivity. }
      split.
      { intros f Hne. rewrite compiles_compile_event.
        rewrite bool_decide_eq_false_2 by congruence. reflexivity. }
      intros [Hcomp _]. rewrite Hcomp in Hok. discriminate.
  - inversion H1; subst e1 r1; clear H1. simpl in H2.
    destruct g2.
    + destruct (load_if_needed_trace o fp e) as (e2' & Hl & Hc2 & Hf2 & Hm2).
      rewrite Hl in H2. inversion H2; subst e2' r2; clear H2.
      eexists. split; [|split; [congruence|]].
      * unfold helper_summary. split; [exact Hc2|]. rewrite Hf2.
        split; [destruct (negb (symbol_ready fp e) && load_ok o fp);
                [apply union_subseteq_r|reflexivity]|].
        split.
        { intros f Hin. destruct (symbol_ready fp e); [destruct Hin|].
          destruct Hin as [Hin|[]]. injection Hin as -> Hlo.
          rewrite Hlo. simpl.
          apply elem_of_union_l, elem_of_singleton; reflexivity. }
        split.
        { intros f Hin. destruct (symbol_ready fp e); simpl in *; [auto|].
          destruct (load_ok o fp); [|auto].
          apply elem_of_union in Hin as [Hin|Hin]; [|auto].
          apply elem_of_singleton in Hin as ->. auto. }
        left. intros f. destruct (symbol_ready fp e); reflexivity.
      * intros _ Hr. apply symbol_ready_true. rewrite Hf2.
        destruct (symbol_ready fp e) eqn:Hsr; simpl in *.
        { apply symbol_ready_true; auto. }
        destruct (load_ok o fp); [|discriminate].
        apply elem_of_union_l, elem_of_singleton; reflexivity.
    + inversion H2; subst e2 r2; clear H2.
      eexists. split; [|split; [reflexivity|intros; discriminate]].
      apply quiet_summary; [apply continues_refl|reflexivity|reflexivity].
Qed.

Lemma launch_continues (fp : string) (e e' : Engine) :
  launch fp e = Some e' ->
  continues e e' [EvLaunch fp] /\ storage e' = storage e
  /\ symbol_ready fp e = true.
Proof.
  unfold launch. destruct (symbol_ready fp e); [|discriminate].
  intros H; inversion H; subst. split; [apply continues_log|auto].
Qed.

Lemma sij_array_summary (o : oracle) (st : SymbolTable)
    (block : list tac_t) (tac : tac_t) (e e' : Engine) (r : bh_error) :
  sij_array_operation o st block tac e = Some (r, e') ->
  exists t, helper_summary o e e' t.
Proof.
  unfold sij_array_operation.
  set (fp := (symbolize st block).2). set (src := specialize_sij st block).
  destruct (if jit_enabled (config e) && negb (symbol_ready fp e)
            then jit_compile o fp src e else (BH_SUCCESS, e))
    as [r1 e1] eqn:H1.
  destruct (is_success r1) eqn:Hs1; simpl.
  - destruct (load_if_needed o fp e1) as [r2 e2] eqn:H2.
    pose proof (compile_load_summary o fp src (jit_enabled (config e)) true
                  e e1 e2 r1 r2 (fun _ => eq_refl) H1) as Hcl.
    rewrite Hs1 in Hcl. destruct (Hcl H2) as (t & Hsum & _ & _).
    destruct (is_success r2); simpl.
    + destruct (bh_vcache_malloc_base _ _ _) as [r3 e3] eqn:H3.
      apply malloc_base_continues in H3 as [Hc3 Hst3].
      pose proof (summary_quiet_tail o _ _ _ _ _ Hsum Hc3 Hst3 eq_refl)
        as Hsum3.
      destruct (is_success r3); simpl.
      * destruct (launch fp e3) as [e4|] eqn:H4; [|discriminate].
        apply launch_continues in H4 as (Hc4 & Hst4 & _).
        intros H; inversion H; subst. eexists.
        exact (summary_quiet_tail o _ _ _ _ _ Hsum3 Hc4 Hst4 eq_refl).
      * intros H; inversion H; subst. eauto.
    + intros H; inversion H; subst. eauto.
  - intros H; inversion H; subst.
    pose proof (compile_load_summary o fp src (jit_enabled (config e)) true
                  e e' e' r r (fun _ => eq_refl) H1) as Hcl.
    rewrite Hs1 in Hcl. destruct (Hcl eq_refl) as (t & Hsum & _). eauto.
Qed.

Lemma sij_summary (o : oracle) (st : SymbolTable) (block : list tac_t)
    (e e' : Engine) (r : bh_error) :
  sij_mode o st block e = Some (r, e') ->
  exists t, helper_summary o e e' t.
Proof.
  unfold sij_mode.
  destruct (op (block_tac block 0));
    try (apply sij_array_summary).
  - destruct (oper (block_tac block 0)).
    + intros H; inversion H; subst. exists [].
      apply quiet_summary; [apply continues_refl|reflexivity|reflexivity].
    + destruct (bh_vcache_free_base _ _ _) as [r1 e1] eqn:Hf.
      apply free_base_continues in Hf as [Hc Hs].
      destruct (is_success r1); intros H; inversion H; subst;
        eexists; apply quiet_summary; eauto.
    + intros H; inversion H; subst. exists [].
      apply quiet_summary; [apply continues_refl|reflexivity|reflexivity].
    + intros H; inversion H; subst. exists [].
      apply quiet_summary; [apply continues_refl|reflexivity|reflexivity].
  - destruct (extensions e !! ext (block_tac block 0)).
    + destruct (is_success _); intros H; inversion H; subst;
        eexists; (apply quiet_summary;
                  [apply continues_log|reflexivity|reflexivity]).
    + intros H; inversion H; subst. exists [].
      apply quiet_summary; [apply continues_refl|reflexivity|reflexivity].
  - intros H; inversion H; subst. exists [].
    apply quiet_summary; [apply continues_refl|reflexivity|reflexivity].
Qed.

Lemma fuse_summary (o : oracle) (st : SymbolTable) (omask : Z)
    (block : list tac_t) (e e' : Engine) (r : bh_error) :
  fuse_mode o st omask block e = Some (r, e') ->
  exists t, helper_summary o e e' t.
Proof.
  unfold fuse_mode.
  destruct (symbolize st block) as [symbolized fp].
  set (src := specialize_fuse st block (fuse_ranges st block)).
  destruct symbolized; simpl.
  2:{ intros H; inversion H; subst. exists [].
      apply quiet_summary; [apply continues_refl|reflexivity|reflexivity]. }
  destruct (if jit_enabled (config e) && has_array_ops omask
               && negb (symbol_ready fp e)
            then jit_compile o fp src e else (BH_SUCCESS, e))
    as [r1 e1] eqn:H1.
  assert (Hg : jit_enabled (config e) && has_array_ops omask = true ->
               has_array_ops omask = true).
  { intros Hg. apply andb_true_iff in Hg as [_ Hg]. exact Hg. }
  destruct (is_success r1) eqn:Hs1; simpl.
  - destruct (if has_array_ops omask then load_if_needed o fp e1
              else (BH_SUCCESS, e1)) as [r2 e2] eqn:H2.
    pose proof (compile_load_summary o fp src _ _ e e1 e2 r1 r2 Hg H1)
      as Hcl.
    rewrite Hs1 in Hcl. destruct (Hcl H2) as (t & Hsum & _ & _).
    destruct (is_success r2); simpl.
    + destruct (allocate_outputs o st block e2) as [r3 e3] eqn:H3.
      apply allocate_outputs_trace in H3 as (t3 & Hc3 & Hst3 & Hq3 & _).
      pose proof (summary_quiet_tail o _ _ _ _ _ Hsum Hc3 Hst3 Hq3)
        as Hsum3.
      destruct (is_success r3); simpl.
      * destruct (launch fp e3) as [e4|] eqn:H4; [|discriminate].
        apply launch_continues in H4 as (Hc4 & Hst4 & _).
        pose proof (summary_quiet_tail o _ _ _ _ _ Hsum3 Hc4 Hst4 eq_refl)
          as Hsum4.
        destruct (free_operands o st block e4) as [r5 e5] eqn:H5.
        apply free_operands_trace in H5 as (t5 & Hc5 & Hst5 & Hq5 & _).
        pose proof (summary_quiet_tail o _ _ _ _ _ Hsum4 Hc5 Hst5 Hq5)
          as Hsum5.
        destruct (is_success r5); simpl;
          intros H; inversion H; subst; eauto.
      * intros H; inversion H; subst. eauto.
    + intros H; inversion H; subst. eauto.
  - intros H; inversion H; subst.
    pose proof (compile_load_summary o fp src _ _ e e' e' r r Hg H1) as Hcl.
    rewrite Hs1 in Hcl. destruct (Hcl eq_refl) as (t & Hsum & _). eauto.
Qed.

Lemma invoke_summary (o : oracle) (i : invocation) (e e' : Engine)
    (r : bh_error) :
  invoke o i e = Some (r, e') -> exists t, helper_summary o e e' t.
Proof.
  destruct i; simpl; [apply fuse_summary|apply sij_summary].
Qed.

(** *** A symbol that is not ready is compiled *)

(** The operations [sij_mode] treats as array operations. *)
Definition is_array_operation (x : OPERATION) : bool :=
  match x with
  | MAP | ZIP | GENERATE | REDUCE | SCAN => true
  | _ => false
  end.

Lemma sij_mode_array (o : oracle) (st : SymbolTable) (block : list tac_t)
    (e : Engine) :
  is_array_operation (op (block_tac block 0)) = true ->
  sij_mode o st block e
    = sij_array_operation o st block (block_tac block 0) e.
Proof.
  unfold sij_mode. destruct (op (block_tac block 0)); simpl;
    intros H; try discriminate; reflexivity.
Qed.

(** The compile block entered, followed by the load block: the trace
    starts with the compiler call, and a failed compile ends it there,
    with storage as it was. *)
Lemma compile_load_starts (o : oracle) (fp src : string) (g2 : bool)
    (e e1 e2 : Engine) (r1 r2 : bh_error) :
  jit_compile o fp src e = (r1, e1) ->
  (if is_success r1
   then (if g2 then load_if_needed o fp e1 else (BH_SUCCESS, e1))
   else (r1, e1)) = (r2, e2) ->
  exists t',
    continues e e2
      (dump_events e fp ++ EvCompile fp src (compile_ok o fp src) :: t')
    /\ (compile_ok o fp src = false ->
          r2 = BH_ERROR /\ t' = [] /\ storage e2 = storage e).
Proof.
  intros H1 H2.
  destruct (jit_compile_trace o fp src e) as (e1' & Hj & Hc1 & _ & _ & Hst).
  rewrite Hj in H1. inversion H1; subst e1' r1; clear H1.
  destruct (compile_ok o fp src) eqn:Hok; simpl in H2.
  - assert (Hc2 : exists t2, continues e1 e2 t2).
    { destruct g2.
      - destruct (load_if_needed_trace o fp e1) as (e2' & Hl & Hc2 & _).
        rewrite Hl in H2. inversion H2; subst. eauto.
      - inversion H2; subst. exists []. apply continues_refl. }
    destruct Hc2 as [t2 Hc2].
    exists ([EvAddSymbol fp] ++ t2). split; [|discriminate].
    pose proof (continues_trans _ _ _ _ _ Hc1 Hc2) as Hc.
    rewrite <- app_assoc in Hc. exact Hc.
  - inversion H2; subst e2 r2. exists []. split; [exact Hc1|].
    intros _. auto.
Qed.

(** After a load block that reports BH_SUCCESS the symbol is ready. *)
Lemma load_success_ready (o : oracle) (fp : string) (e1 e2 : Engine)
    (r2 : bh_error) :
  load_if_needed o fp e1 = (r2, e2) -> is_success r2 = true ->
  symbol_ready fp e2 = true.
Proof.
  intros H2 Hs.
  destruct (load_if_needed_trace o fp e1) as (e2' & Hl & _ & Hf2 & _).
  rewrite Hl in H2. inversion H2; subst e2' r2; clear H2.
  apply symbol_ready_true. rewrite Hf2.
  destruct (symbol_ready fp e1) eqn:Hr; simpl in *.
  - apply symbol_ready_true; exact Hr.
  - destruct (load_ok o fp); [|discriminate].
    apply elem_of_union_l, elem_of_singleton; reflexivity.
Qed.

Lemma continues_prefix (e e1 e2 : Engine) (pre t t2 : list event)
    (ev : event) :
  continues e e1 (pre ++ ev :: t) -> continues e1 e2 t2 ->
  continues e e2 (pre ++ ev :: (t ++ t2)).
Proof.
  intros H1 H2. pose proof (continues_trans _ _ _ _ _ H1 H2) as H.
  rewrite <- app_assoc in H. exact H.
Qed.

(** [sij_mode] on an array operation whose symbol is not ready, with the
    JIT enabled: the call returns, its trace starts with the compiler
    call, and if the compiler fails the status is BH_ERROR, nothing
    follows the compiler call and storage is as before. *)
Lemma sij_array_compiles (o : oracle) (st : SymbolTable)
    (block : list tac_t) (tac : tac_t) (e : Engine) :
  let fp := (symbolize st block).2 in
  let src := specialize_sij st block in
  jit_enabled (config e) = true -> symbol_ready fp e = false ->
  exists r e' t',
    sij_array_operation o st block tac e = Some (r, e')
    /\ continues e e'
         (dump_events e fp ++ EvCompile fp src (compile_ok o fp src) :: t')
    /\ (compile_ok o fp src = false ->
          r = BH_ERROR /\ t' = [] /\ storage e' = storage e).
Proof.
  intros fp src Hjit Hnr. unfold sij_array_operation.
  fold fp. fold src. rewrite Hjit, Hnr. simpl.
  destruct (jit_compile o fp src e) as [r1 e1] eqn:H1.
  destruct (is_success r1) eqn:Hs1; simpl.
  - destruct (load_if_needed o fp e1) as [r2 e2] eqn:H2.
    destruct (compile_load_starts o fp src true e e1 e2 r1 r2 H1)
      as (t' & Hc & Hfail); [rewrite Hs1; exact H2|].
    destruct (is_success r2) eqn:Hs2; simpl.
    + destruct (bh_vcache_malloc_base _ _ _) as [r3 e3] eqn:H3.
      apply malloc_base_continues in H3 as [Hc3 Hst3].
      pose proof (continues_prefix _ _ _ _ _ _ _ Hc Hc3) as Hc'.
      assert (Hok : compile_ok o fp src = true).
      { destruct (compile_ok o fp src); [reflexivity|].
        destruct (Hfail eq_refl) as [-> _]. discriminate. }
      destruct (is_success r3); simpl.
      * assert (Hr3 : symbol_ready fp e3 = true).
        { unfold symbol_ready. rewrite Hst3.
          exact (load_success_ready o fp e1 e2 r2 H2 Hs2). }
        unfold launch. rewrite Hr3.
        do 3 eexists. split; [reflexivity|]. split.
        -- exact (continues_prefix _ _ _ _ _ _ _ Hc'
                    (continues_log (EvLaunch fp) e3)).
        -- rewrite Hok. discriminate.
      * do 3 eexists. split; [reflexivity|]. split; [exact Hc'|].
        rewrite Hok. discriminate.
    + do 3 eexists. split; [reflexivity|]. split; [exact Hc|]. exact Hfail.
  - destruct (compile_load_starts o fp src true e e1 e1 r1 r1 H1)
      as (t' & Hc & Hfail); [rewrite Hs1; reflexivity|].
    do 3 eexists. split; [reflexivity|]. split; [exact Hc|]. exact Hfail.
Qed.

(** The same for [fuse_mode], on a block that can be symbolized and a
    subgraph whose mask holds an array operation. *)
Lemma fuse_compiles (o : oracle) (st : SymbolTable) (omask : Z)
    (block : list tac_t) (e : Engine) (fp : string) :
  let src := specialize_fuse st block (fuse_ranges st block) in
  symbolize st block = (true, fp) ->
  jit_enabled (config e) = true -> has_array_ops omask = true ->
  symbol_ready fp e = false ->
  exists r e' t',
    fuse_mode o st omask block e = Some (r, e')
    /\ continues e e'
         (dump_events e fp ++ EvCompile fp src (compile_ok o fp src) :: t')
    /\ (compile_ok o fp src = false ->
          r = BH_ERROR /\ t' = [] /\ storage e' = storage e).
Proof.
  intros src Hsym Hjit Hmask Hnr. unfold fuse_mode.
  rewrite Hsym. fold src. rewrite Hjit, Hmask, Hnr. simpl.
  destruct (jit_compile o fp src e) as [r1 e1] eqn:H1.
  destruct (is_success r1) eqn:Hs1; simpl.
  - destruct (load_if_needed o fp e1) as [r2 e2] eqn:H2.
    destruct (compile_load_starts o fp src true e e1 e2 r1 r2 H1)
      as (t' & Hc & Hfail); [rewrite Hs1; exact H2|].
    destruct (is_success r2) eqn:Hs2; simpl.
    + destruct (allocate_outputs o st block e2) as [r3 e3] eqn:H3.
      apply allocate_outputs_trace in H3 as (t3 & Hc3 & Hst3 & _ & _).
      pose proof (continues_prefix _ _ _ _ _ _ _ Hc Hc3) as Hc'.
      assert (Hok : compile_ok o fp src = true).
      { destruct (compile_ok o fp src); [reflexivity|].
        destruct (Hfail eq_refl) as [-> _]. discriminate. }
      destruct (is_success r3); simpl.
      * assert (Hr3 : symbol_ready fp e3 = true).
        { unfold symbol_ready. rewrite Hst3.
          exact (load_success_ready o fp e1 e2 r2 H2 Hs2). }
        unfold launch. rewrite Hr3.
        pose proof (continues_prefix _ _ _ _ _ _ _ Hc'
                      (continues_log (EvLaunch fp) e3)) as Hc4.
        destruct (free_operands o st block (log (EvLaunch fp) e3))
          as [r5 e5] eqn:H5.
        apply free_operands_trace in H5 as (t5 & Hc5 & _).
        pose proof (continues_prefix _ _ _ _ _ _ _ Hc4 Hc5) as Hc6.
        destruct (is_success r5); simpl;
          (do 3 eexists; split; [reflexivity|]; split; [exact Hc6|];
           rewrite Hok; discriminate).
      * do 3 eexists. split; [reflexivity|]. split; [exact Hc'|].
        rewrite Hok. discriminate.
    + do 3 eexists. split; [reflexivity|]. split; [exact Hc|]. exact Hfail.
  - destruct (compile_load_starts o fp src true e e1 e1 r1 r1 H1)
      as (t' & Hc & Hfail); [rewrite Hs1; reflexivity|].
    do 3 eexists. split; [reflexivity|]. split; [exact Hc|]. exact Hfail.
Qed.

(** ** Compilation over the lifetime of an engine *)

Lemma invoke_ready_kept (o : oracle) (i : invocation) (e e' : Engine)
    (r : bh_error) (fp : string) :
  invoke o i e = Some (r, e') -> fp ∈ funcs (storage e) ->
  fp ∈ funcs (storage e')
  /\ compiles fp (trace e') = compiles fp (trace e).
Proof.
  intros H Hin.
  destruct (invoke_summary o i e e' r H)
    as (t & (Ht & _ & _) & Hsub & _ & _ & Hcomp).
  split; [apply Hsub; exact Hin|].
  rewrite Ht, compiles_app.
  destruct Hcomp as [Hz|(fp0 & Hn & _ & H0 & _)].
  - rewrite Hz. lia.
  - rewrite H0; [lia|]. intros ->. contradiction.
Qed.

Lemma lifetime_ready_kept (calls : list (oracle * invocation))
    (e e' : Engine) (fp : string) :
  lifetime calls e = Some e' -> fp ∈ funcs (storage e) ->
  fp ∈ funcs (storage e')
  /\ compiles fp (trace e') = compiles fp (trace e).
Proof.
  revert e. induction calls as [|[o i] rest IH]; intros e H Hin; simpl in H.
  - inversion H; subst. auto.
  - destruct (invoke o i e) as [[r e1]|] eqn:Hi; [|discriminate].
    destruct (invoke_ready_kept o i e e1 r fp Hi Hin) as [Hin1 Hc1].
    destruct (IH e1 H Hin1) as [Hin2 Hc2]. split; [auto|congruence].
Qed.

(** The launchers an engine holds are the preloaded ones and those a
    load in its trace has resolved. *)
Definition loaded_inv (pre : gset string) (e : Engine) : Prop :=
  forall f, f ∈ funcs (storage e) <->
            (f ∈ pre) \/ In (EvLoad f true) (trace e).

Lemma lifetime_loaded_inv (pre : gset string)
    (calls : list (oracle * invocation)) (e e' : Engine) :
  loaded_inv pre e -> lifetime calls e = Some e' -> loaded_inv pre e'.
Proof.
  revert e. induction calls as [|[o i] rest IH]; intros e Hinv H; simpl in H.
  - inversion H; subst. exact Hinv.
  - destruct (invoke o i e) as [[r e1]|] eqn:Hi; [|discriminate].
    apply (IH e1); [|exact H].
    destruct (invoke_summary o i e e1 r Hi)
      as (t & (Ht & _ & _) & Hsub & Hl & Hf & _).
    intros f. rewrite Ht. split.
    + intros Hin. destruct (Hf f Hin) as [Hin0|Hin0].
      * apply Hinv in Hin0 as [Hp|Hp]; [auto|].
        right. apply in_or_app. auto.
      * right. apply in_or_app. auto.
    + intros [Hp|Hin].
      * apply Hsub. apply Hinv. auto.
      * apply in_app_or in Hin as [Hin|Hin]; [|auto].
        apply Hsub. apply Hinv. auto.
Qed.

(** Under a toolchain that never fails, a fingerprint is compiled at most
    once, and a compiled fingerprint has its launcher. *)
Definition compiled_once (e : Engine) : Prop :=
  forall fp, (compiles fp (trace e) <= 1)%nat
    /\ (compiles fp (trace e) = 1%nat -> fp ∈ funcs (storage e)).

Lemma lifetime_compiled_once (calls : list (oracle * invocation))
    (e e' : Engine) :
  (forall o i, In (o, i) calls -> healthy o) ->
  compiled_once e -> lifetime calls e = Some e' -> compiled_once e'.
Proof.
  revert e. induction calls as [|[o i] rest IH]; intros e Hh Hinv H;
    simpl in H.
  - inversion H; subst. exact Hinv.
  - destruct (invoke o i e) as [[r e1]|] eqn:Hi; [|discriminate].
    apply (IH e1); [intros o' i' Hin; apply (Hh o' i'); right; exact Hin
                   | |exact H].
    assert (Hho : healthy o) by (apply (Hh o i); left; reflexivity).
    destruct (invoke_summary o i e e1 r Hi)
      as (t & (Ht & _ & _) & Hsub & _ & _ & Hcomp).
    intros fp. destruct (Hinv fp) as [Hle Hin]. rewrite Ht, compiles_app.
    destruct Hcomp as [Hz|(fp0 & Hn & H1 & H0 & Hrdy)].
    + rewrite Hz, Nat.add_0_r. split; [exact Hle|].
      intros Hc. apply Hsub. auto.
    + destruct (decide (fp = fp0)) as [->|Hne].
      * rewrite H1.
        assert (compiles fp0 (trace e) = 0%nat) as ->.
        { destruct (compiles fp0 (trace e)) as [|[|n]] eqn:Hc;
            [reflexivity| |lia].
          exfalso. apply Hn. auto. }
        split; [lia|]. intros _. apply Hrdy. exact Hho.
      * rewrite (H0 fp Hne), Nat.add_0_r. split; [exact Hle|].
        intros Hc. apply Hsub. auto.
Qed.

(** C3, as amended.  Over the lifetime of an engine, started by its constructor and
    driven by any sequence of sij_mode and fuse_mode invocations, each
    under the toolchain answers of its moment: once the symbol of a
    fingerprint has been loaded (or was preloaded), no later invocation
    calls the compiler for it again; and as long as the toolchain does not
    fail, the compiler is called at most once per fingerprint. *)
Theorem compile_at_most_once (calls1 calls2 : list (oracle * invocation))
    (cfg : Config) (pre : gset string) (mem : gmap nat bh_base)
    (e1 e2 : Engine) (fp : string) :
  lifetime calls1 (new_engine cfg pre mem) = Some e1 ->
  lifetime calls2 e1 = Some e2 ->
  ((fp ∈ pre) \/ In (EvLoad fp true) (trace e1) ->
     compiles fp (trace e2) = compiles fp (trace e1)
     /\ symbol_ready fp e2 = true)
  /\ ((forall o i, In (o, i) (calls1 ++ calls2) -> healthy o) ->
      (compiles fp (trace e2) <= 1)%nat).
Proof.
  intros H1 H2.
  assert (Hinv0 : loaded_inv pre (new_engine cfg pre mem)).
  { intros f. simpl. split; [auto|]. intros [Hp|[]]. exact Hp. }
  pose proof (lifetime_loaded_inv pre calls1 _ _ Hinv0 H1) as Hinv1.
  split.
  - intros Hloaded. apply Hinv1 in Hloaded.
    destruct (lifetime_ready_kept calls2 e1 e2 fp H2 Hloaded) as [Hin Hc].
    split; [exact Hc|]. apply symbol_ready_true. exact Hin.
  - intros Hh.
    assert (Hk0 : compiled_once (new_engine cfg pre mem)).
    { intros f. simpl. split; [unfold compiles; simpl; lia|].
      unfold compiles; simpl. discriminate. }
    assert (Hk1 : compiled_once e1).
    { apply (lifetime_compiled_once calls1 (new_engine cfg pre mem) e1);
        [|exact Hk0|exact H1].
      intros o i Hin. apply (Hh o i). apply in_or_app. auto. }
    assert (Hk2 : compiled_once e2).
    { apply (lifetime_compiled_once calls2 e1 e2); [|exact Hk1|exact H2].
      intros o i Hin. apply (Hh o i). apply in_or_app. auto. }
    apply Hk2.
Qed.

(** C7. When the external compiler fails for the fingerprint of a block
    (JIT enabled, symbol not ready), the helper returns BH_ERROR; the
    trace ends with the failed compiler call, so add_symbol is not called,
    and storage is as it was.  A later submission of a block with the same
    fingerprint therefore calls the compiler again.  This holds for
    sij_mode on an array operation and for fuse_mode on a subgraph with
    array operations. *)
Theorem compile_failure_not_stored (o : oracle) (st : SymbolTable)
    (block : list tac_t) (e : Engine) (fp : string) :
  jit_enabled (config e) = true ->
  symbol_ready fp e = false ->
  (is_array_operation (op (block_tac block 0)) = true ->
   (symbolize st block).2 = fp ->
   compile_ok o fp (specialize_sij st block) = false ->
   exists e',
     sij_mode o st block e = Some (BH_ERROR, e')
     /\ trace e' = trace e ++ dump_events e fp
                     ++ [EvCompile fp (specialize_sij st block) false]
     /\ storage e' = storage e
     /\ forall (o2 : oracle) (st2 : SymbolTable) (block2 : list tac_t),
          is_array_operation (op (block_tac block2 0)) = true ->
          (symbolize st2 block2).2 = fp ->
          exists r e2 t,
            sij_mode o2 st2 block2 e' = Some (r, e2)
            /\ trace e2 = trace e' ++ t
            /\ In (EvCompile fp (specialize_sij st2 block2)
                     (compile_ok o2 fp (specialize_sij st2 block2))) t)
  /\ (forall omask : Z,
      has_array_ops omask = true ->
      symbolize st block = (true, fp) ->
      compile_ok o fp (specialize_fuse st block (fuse_ranges st block))
        = false ->
      exists e',
        fuse_mode o st omask block e = Some (BH_ERROR, e')
        /\ trace e' = trace e ++ dump_events e fp
             ++ [EvCompile fp
                   (specialize_fuse st block (fuse_ranges st block)) false]
        /\ storage e' = storage e
        /\ forall (o2 : oracle) (st2 : SymbolTable) (omask2 : Z)
                  (block2 : list tac_t),
             has_array_ops omask2 = true ->
             symbolize st2 block2 = (true, fp) ->
             exists r e2 t,
               fuse_mode o2 st2 omask2 block2 e' = Some (r, e2)
               /\ trace e2 = trace e' ++ t
               /\ In (EvCompile fp
                        (specialize_fuse st2 block2 (fuse_ranges st2 block2))
                        (compile_ok o2 fp
                           (specialize_fuse st2 block2
                              (fuse_ranges st2 block2)))) t).
Proof.
  intros Hjit Hnr. split.
  - intros Harr Hfp Hfail. subst fp.
    destruct (sij_array_compiles o st block (block_tac block 0) e Hjit Hnr)
      as (r & e' & t' & Hrun & (Ht & Hcfg & _) & Hf).
    destruct (Hf Hfail) as (-> & -> & Hst).
    exists e'. rewrite sij_mode_array by exact Harr.
    rewrite Hfail in Ht.
    split; [exact Hrun|]. split; [exact Ht|]. split; [exact Hst|].
    intros o2 st2 block2 Harr2 Hfp2.
    assert (Hjit' : jit_enabled (config e') = true) by congruence.
    assert (Hnr' : symbol_ready (symbolize st2 block2).2 e' = false).
    { rewrite Hfp2. unfold symbol_ready in *. rewrite Hst. exact Hnr. }
    destruct (sij_array_compiles o2 st2 block2 (block_tac block2 0) e'
                Hjit' Hnr')
      as (r2 & e2 & t2 & Hrun2 & (Ht2 & _) & _).
    rewrite Hfp2 in Ht2.
    exists r2, e2. eexists.
    rewrite sij_mode_array by exact Harr2.
    split; [exact Hrun2|]. split; [exact Ht2|].
    apply in_or_app. right. left. reflexivity.
  - intros omask Hmask Hsym Hfail.
    destruct (fuse_compiles o st omask block e fp Hsym Hjit Hmask Hnr)
      as (r & e' & t' & Hrun & (Ht & Hcfg & _) & Hf).
    destruct (Hf Hfail) as (-> & -> & Hst).
    exists e'. rewrite Hfail in Ht.
    split; [exact Hrun|]. split; [exact Ht|]. split; [exact Hst|].
    intros o2 st2 omask2 block2 Hmask2 Hsym2.
    assert (Hjit' : jit_enabled (config e') = true) by congruence.
    assert (Hnr' : symbol_ready fp e' = false).
    { unfold symbol_ready in *. rewrite Hst. exact Hnr. }
    destruct (fuse_compiles o2 st2 omask2 block2 e' fp Hsym2 Hjit' Hmask2
                Hnr')
      as (r2 & e2 & t2 & Hrun2 & (Ht2 & _) & _).
    exists r2, e2. eexists.
    split; [exact Hrun2|]. split; [exact Ht2|].
    apply in_or_app. right. left. reflexivity.
Qed.

(** ** Scalar replacement *)

Lemma is_success_eq (r : bh_error) : is_success r = true -> r = BH_SUCCESS.
Proof. destruct r; simpl; intros H; try discriminate; reflexivity. Qed.

(** A successful [fuse_mode] has gone through both loops: every array
    operation of the block had its output allocated and every FREE was
    honoured. *)
Lemma fuse_success_trace (o : oracle) (st : SymbolTable) (omask : Z)
    (block : list tac_t) (e e' : Engine) :
  fuse_mode o st omask block e = Some (BH_SUCCESS, e') ->
  exists t, continues e e' t
    /\ (forall tac, In tac block ->
          has_array_ops (OPERATION_val (op tac)) = true ->
          In (EvMalloc (base (symbol_at st (out tac))) BH_SUCCESS) t)
    /\ (forall tac, In tac block -> oper tac = FREE ->
          In (EvFree (base (symbol_at st (out tac))) BH_SUCCESS) t).
Proof.
  unfold fuse_mode.
  destruct (symbolize st block) as [symbolized fp].
  set (src := specialize_fuse st block (fuse_ranges st block)).
  destruct symbolized; simpl; [|discriminate].
  destruct (if jit_enabled (config e) && has_array_ops omask
               && negb (symbol_ready fp e)
            then jit_compile o fp src e else (BH_SUCCESS, e))
    as [r1 e1] eqn:H1.
  assert (Hg : jit_enabled (config e) && has_array_ops omask = true ->
               has_array_ops omask = true).
  { intros Hg. apply andb_true_iff in Hg as [_ Hg]. exact Hg. }
  destruct (is_success r1) eqn:Hs1; simpl.
  2:{ intros H; inversion H; subst. discriminate. }
  destruct (if has_array_ops omask then load_if_needed o fp e1
            else (BH_SUCCESS, e1)) as [r2 e2] eqn:H2.
  pose proof (compile_load_summary o fp src _ _ e e1 e2 r1 r2 Hg H1) as Hcl.
  rewrite Hs1 in Hcl. destruct (Hcl H2) as (t & (Hc & _) & _ & _).
  destruct (is_success r2) eqn:Hs2; simpl.
  2:{ intros H; inversion H; subst. discriminate. }
  destruct (allocate_outputs o st block e2) as [r3 e3] eqn:H3.
  apply allocate_outputs_trace in H3 as (t3 & Hc3 & _ & _ & Hm).
  destruct (is_success r3) eqn:Hs3; simpl.
  2:{ intros H; inversion H; subst. discriminate. }
  apply is_success_eq in Hs3. specialize (Hm Hs3).
  destruct (launch fp e3) as [e4|] eqn:H4; [|discriminate].
  apply launch_continues in H4 as (Hc4 & _ & _).
  destruct (free_operands o st block e4) as [r5 e5] eqn:H5.
  apply free_operands_trace in H5 as (t5 & Hc5 & _ & _ & Hf).
  destruct (is_success r5) eqn:Hs5; simpl.
  2:{ intros H; inversion H; subst. discriminate. }
  apply is_success_eq in Hs5. specialize (Hf Hs5).
  intros H; inversion H; subst e5.
  exists (((t ++ t3) ++ [EvLaunch fp]) ++ t5). split.
  - repeat (eapply continues_trans; eauto).
  - split.
    + intros tac Hin Hop. apply in_or_app. left. apply in_or_app. left.
      apply in_or_app. right. auto.
    + intros tac Hin Hop. apply in_or_app. right. auto.
Qed.

(** What C2 asks of one call of [fuse_mode]: no operand that meets the
    three conditions in some fuse range has bh_vcache_malloc_base or
    bh_vcache_free_base called on its base. *)
Definition scalar_replaced (o : oracle) (st : SymbolTable) (omask : Z)
    (block : list tac_t) (e : Engine) : Prop :=
  forall (rg : triplet_t) (operand : nat) (e' : Engine) (res : bh_error),
    In rg (fuse_ranges st block) ->
    scalar_candidate st block rg operand = true ->
    fuse_mode o st omask block e = Some (BH_SUCCESS, e') ->
    ~ In (EvMalloc (base (symbol_at st operand)) res) (trace e')
    /\ ~ In (EvFree (base (symbol_at st operand)) res) (trace e').

(** The loop under "Turn the operand into a scalar" finds the operand
    that is written exactly once and read exactly once in a fuse range
    and is in temp(), and does nothing with it: turn_scalar is commented
    out.  The operand is treated like every other one: in a call that
    returns BH_SUCCESS, each array operation of the block that writes it
    has bh_vcache_malloc_base called on its base, and each TAC with
    operator FREE that names it has bh_vcache_free_base called on its
    base. *)
Lemma scalar_candidate_keeps_buffer (o : oracle) (st : SymbolTable)
    (omask : Z) (block : list tac_t) (e e' : Engine) (rg : triplet_t)
    (operand : nat) :
  In rg (fuse_ranges st block) ->
  scalar_candidate st block rg operand = true ->
  fuse_mode o st omask block e = Some (BH_SUCCESS, e') ->
  exists t, trace e' = trace e ++ t
    /\ (forall tac, In tac block -> out tac = operand ->
          has_array_ops (OPERATION_val (op tac)) = true ->
          In (EvMalloc (base (symbol_at st operand)) BH_SUCCESS) t)
    /\ (forall tac, In tac block -> out tac = operand -> oper tac = FREE ->
          In (EvFree (base (symbol_at st operand)) BH_SUCCESS) t).
Proof.
  intros _ _ Hrun.
  destruct (fuse_success_trace o st omask block e e' Hrun)
    as (t & (Ht & _) & Hm & Hf).
  exists t. split; [exact Ht|]. split.
  - intros tac Hin <- Hop. auto.
  - intros tac Hin <- Hop. auto.
Qed.

(** ** The fuse-range sweep on SYSTEM and NOOP *)

(** The guard under "Ignore these" never holds: no operation is both
    SYSTEM and NOOP. *)
Lemma ignored_never (next : tac_t) : ignored next = false.
Proof. unfold ignored. destruct (op next); reflexivity. Qed.

(** A SYSTEM or NOOP TAC takes the branch of the operations that are not
    fused: it closes the current range, is given a range of its own, and
    the next range starts behind it. *)
Lemma sweep_step_system (st : SymbolTable) (block : list tac_t) (s : sweep)
    (tac_idx : nat) :
  op (block_tac block tac_idx) = SYSTEM \/ op (block_tac block tac_idx) = NOOP ->
  (range_begin s <= tac_idx)%nat ->
  range_begin (sweep_step st block s tac_idx) = (tac_idx + 1)%nat
  /\ exists closed,
       ranges (sweep_step st block s tac_idx)
       = ranges s ++ closed ++ [triplet tac_idx tac_idx (fusion_layout s)].
Proof.
  intros Hop Hle. unfold sweep_step, sweep_step_with. rewrite ignored_never.
  assert (Hb : negb (bool_decide (op (block_tac block tac_idx) = MAP)
                     || bool_decide (op (block_tac block tac_idx) = ZIP))
               = true).
  { destruct Hop as [-> | ->]; reflexivity. }
  rewrite Hb. simpl. split; [reflexivity|].
  destruct (Nat.ltb_spec (range_begin s) tac_idx) as [Hlt|Hge].
  - exists [triplet (range_begin s) (tac_idx - 1) (fusion_layout s)].
    reflexivity.
  - exists []. simpl. replace (range_begin s) with tac_idx by lia.
    reflexivity.
Qed.

(** Each step of the sweep keeps the ranges stored so far, and the
    current range never starts behind the next TAC. *)
Lemma sweep_step_grows (st : SymbolTable) (block : list tac_t) (s : sweep)
    (tac_idx : nat) :
  (range_begin s <= tac_idx)%nat ->
  (range_begin (sweep_step st block s tac_idx) <= tac_idx + 1)%nat
  /\ exists more, ranges (sweep_step st block s tac_idx) = ranges s ++ more.
Proof.
  intros Hle. unfold sweep_step, sweep_step_with. rewrite ignored_never.
  destruct (negb _).
  - simpl. split; [lia|]. destruct (_ <? _)%nat; eauto.
  - destruct (check_operands _ _ _ _) as [c fl].
    destruct (negb c); simpl.
    + split; [lia|]. destruct (_ <? _)%nat; eauto.
    + split; [lia|]. exists []. rewrite app_nil_r. reflexivity.
Qed.

Lemma sweep_grows (st : SymbolTable) (block : list tac_t) (n a : nat)
    (s : sweep) :
  (range_begin s <= a)%nat ->
  (range_begin (fold_left (sweep_step st block) (seq a n) s) <= a + n)%nat
  /\ exists more,
       ranges (fold_left (sweep_step st block) (seq a n) s)
       = ranges s ++ more.
Proof.
  revert a s. induction n as [|n IH]; intros a s Hle; simpl.
  - split; [lia|]. exists []. rewrite app_nil_r. reflexivity.
  - destruct (sweep_step_grows st block s a Hle) as [Hb [m1 Hm1]].
    destruct (IH (S a) (sweep_step st block s a)) as [Hb2 [m2 Hm2]]; [lia|].
    split; [lia|]. exists (m1 ++ m2). rewrite Hm2, Hm1, app_assoc.
    reflexivity.
Qed.

(** No SYSTEM or NOOP TAC is skipped by the sweep of the source: each
    one ends up as a fuse range of its own. *)
Lemma system_tac_own_range (st : SymbolTable) (block : list tac_t)
    (i : nat) :
  (i < length block)%nat ->
  op (block_tac block i) = SYSTEM \/ op (block_tac block i) = NOOP ->
  exists l, In (triplet i i l) (fuse_ranges st block).
Proof.
  intros Hi Hop. unfold fuse_ranges, fuse_ranges_with.
  fold (sweep_step st block).
  replace (seq 0 (length block))
    with (seq 0 i ++ seq i (S (length block - S i))).
  2:{ rewrite <- seq_app. f_equal. lia. }
  rewrite fold_left_app. simpl.
  set (s0 := fold_left (sweep_step st block) (seq 0 i) sweep_init).
  destruct (sweep_grows st block i 0 sweep_init) as [Hb0 _]; [simpl; lia|].
  fold s0 in Hb0. simpl in Hb0.
  destruct (sweep_step_system st block s0 i Hop Hb0) as [Hb1 [closed Hc]].
  destruct (sweep_grows st block (length block - S i) (S i)
              (sweep_step st block s0 i)) as [_ [more Hm]]; [lia|].
  exists (fusion_layout s0).
  assert (Hin : In (triplet i i (fusion_layout s0))
                  (ranges (fold_left (sweep_step st block)
                             (seq (S i) (length block - S i))
                             (sweep_step st block s0 i)))).
  { rewrite Hm, Hc. apply in_or_app. left. apply in_or_app. right.
    apply in_or_app. right. left. reflexivity. }
  destruct (_ <? _)%nat; [apply in_or_app; left|]; exact Hin.
Qed.

(** ** Statuses of execute and of an unregistered extension *)

(** Whatever the helpers return, [execute] returns BH_SUCCESS. *)
Lemma execute_status (o : oracle) (instrs : list bh_instruction)
    (e e' : Engine) (r : bh_error) :
  execute o instrs e = Some (r, e') -> r = BH_SUCCESS.
Proof.
  unfold execute. destruct (call_helpers _ _ _); intros H; inversion H.
  reflexivity.
Qed.

(** A helper that fails does not end the sequence of helper calls. *)
Lemma call_helpers_continue (o : oracle) (i : invocation)
    (rest : list invocation) (e e1 : Engine) (r : bh_error) :
  invoke o i e = Some (r, e1) ->
  call_helpers o (i :: rest) e = call_helpers o rest e1.
Proof. intros H. simpl. rewrite H. reflexivity. Qed.

(** An EXTENSION TAC whose opcode has no entry in [extensions] is passed
    over: [sij_mode] returns BH_SUCCESS and the engine is unchanged. *)
Lemma sij_unregistered_extension (o : oracle) (st : SymbolTable)
    (block : list tac_t) (e : Engine) :
  op (block_tac block 0) = EXTENSION ->
  extensions e !! ext (block_tac block 0) = None ->
  sij_mode o st block e = Some (BH_SUCCESS, e).
Proof. intros Hop Hext. unfold sij_mode. rewrite Hop, Hext. reflexivity. Qed.

(** ** Invariants of the fuse ranges *)

Lemma note_layout_ge (next fl : LAYOUT) :
  LAYOUT_ord fl <= LAYOUT_ord (note_layout next fl).
Proof. unfold note_layout. destruct (Z.gtb_spec (LAYOUT_ord next) (LAYOUT_ord fl)); lia. Qed.

Lemma check_operands_ge (st : SymbolTable) (first_tac next : tac_t)
    (fl : LAYOUT) :
  LAYOUT_ord fl <= LAYOUT_ord (check_operands st first_tac next fl).2.
Proof.
  unfold check_operands, check_operand.
  destruct (tac_noperands next) as [|[|[|[|n]]]]; simpl; try lia.
  - etransitivity; [|apply note_layout_ge]. apply note_layout_ge.
  - etransitivity; [|apply note_layout_ge].
    etransitivity; [|apply note_layout_ge]. apply note_layout_ge.
Qed.

(** A range lies within the first [n] TACs. *)
Definition range_within (n : nat) (r : triplet_t) : Prop :=
  (r_begin r <= r_end r)%nat /\ (r_end r < n)%nat.

(** TAC [i] lies in one of the ranges. *)
Definition in_some_range (rs : list triplet_t) (i : nat) : Prop :=
  exists r, In r rs /\ (r_begin r <= i)%nat /\ (i <= r_end r)%nat.

(** The layouts of the ranges never go down along the list. *)
Definition layouts_ascend (rs : list triplet_t) : Prop :=
  StronglySorted (fun a b => LAYOUT_ord a <= LAYOUT_ord b) (map r_layout rs).

(** What the sweep keeps from TAC to TAC, in front of TAC [k]. *)
Definition sweep_inv (k : nat) (s : sweep) : Prop :=
  (range_begin s <= k)%nat
  /\ (forall r, In r (ranges s) -> range_within k r)
  /\ (forall i, (i < range_begin s)%nat -> in_some_range (ranges s) i)
  /\ (forall r, In r (ranges s) ->
        LAYOUT_ord (r_layout r) <= LAYOUT_ord (fusion_layout s))
  /\ layouts_ascend (ranges s).

Lemma range_within_mono (k : nat) (r : triplet_t) :
  range_within k r -> range_within (S k) r.
Proof. unfold range_within. lia. Qed.

Lemma in_some_range_app (rs more : list triplet_t) (i : nat) :
  in_some_range rs i \/ in_some_range more i -> in_some_range (rs ++ more) i.
Proof.
  intros [(r & Hin & H)|(r & Hin & H)]; exists r;
    (split; [apply in_or_app; auto|exact H]).
Qed.

(** Storing ranges whose layout is the (new) fusion layout keeps the
    ranges ascending. *)
Lemma layouts_ascend_app (rs more : list triplet_t) (fl fl' : LAYOUT) :
  layouts_ascend rs ->
  (forall r, In r rs -> LAYOUT_ord (r_layout r) <= LAYOUT_ord fl) ->
  LAYOUT_ord fl <= LAYOUT_ord fl' ->
  (forall r, In r more -> r_layout r = fl') ->
  layouts_ascend (rs ++ more)
  /\ (forall r, In r (rs ++ more) ->
        LAYOUT_ord (r_layout r) <= LAYOUT_ord fl').
Proof.
  intros Hs Hle Hfl Hmore. split.
  - unfold layouts_ascend. rewrite map_app. apply StronglySorted_app_2.
    + intros x1 x2 Hx1 Hx2.
      apply list_elem_of_In, in_map_iff in Hx1 as (r1 & <- & Hr1).
      apply list_elem_of_In, in_map_iff in Hx2 as (r2 & <- & Hr2).
      rewrite (Hmore r2 Hr2). specialize (Hle r1 Hr1). lia.
    + exact Hs.
    + clear Hs Hle. induction more as [|m more IH]; simpl; [constructor|].
      constructor.
      * apply IH. intros r Hr. apply Hmore. right. exact Hr.
      * apply Forall_forall. intros x Hx. apply list_elem_of_In in Hx.
        apply in_map_iff in Hx as (r & <- & Hr).
        rewrite (Hmore m), (Hmore r); [lia|right; exact Hr|left; reflexivity].
  - intros r Hr. apply in_app_or in Hr as [Hr|Hr].
    + specialize (Hle r Hr). lia.
    + rewrite (Hmore r Hr). lia.
Qed.

Lemma sweep_step_inv (st : SymbolTable) (block : list tac_t) (s : sweep)
    (k : nat) :
  (k < length block)%nat -> sweep_inv k s ->
  sweep_inv (S k) (sweep_step st block s k).
Proof.
  intros Hk (Hb & Hr & Hc & Hl & Hs).
  unfold sweep_inv, sweep_step, sweep_step_with. rewrite ignored_never.
  destruct (negb _).
  - (* an operation that is not fused *)
    simpl.
    destruct (Nat.ltb_spec (range_begin s) k) as [Hlt|Hge].
    + destruct (layouts_ascend_app (ranges s)
                  [triplet (range_begin s) (k - 1) (fusion_layout s);
                   triplet k k (fusion_layout s)]
                  (fusion_layout s) (fusion_layout s) Hs Hl)
        as [Hs' Hl']; [lia| |].
      { intros r [<-|[<-|[]]]; reflexivity. }
      simpl. split; [lia|]. split; [|split; [|split; [exact Hl'|exact Hs']]].
      * intros r Hin. apply in_app_or in Hin as [Hin|[<-|[<-|[]]]].
        -- apply range_within_mono. auto.
        -- unfold range_within. simpl. lia.
        -- unfold range_within. simpl. lia.
      * intros i Hi. apply in_some_range_app.
        destruct (Nat.lt_ge_cases i (range_begin s)) as [Hi1|Hi1]; [auto|].
        right. destruct (Nat.eq_dec i k) as [->|Hne].
        -- exists (triplet k k (fusion_layout s)). simpl. split; [auto|lia].
        -- exists (triplet (range_begin s) (k - 1) (fusion_layout s)).
           simpl. split; [auto|lia].
    + assert (Heq : range_begin s = k) by lia.
      destruct (layouts_ascend_app (ranges s)
                  [triplet (range_begin s) (range_begin s) (fusion_layout s)]
                  (fusion_layout s) (fusion_layout s) Hs Hl)
        as [Hs' Hl']; [lia| |].
      { intros r [<-|[]]; reflexivity. }
      simpl. split; [lia|]. split; [|split; [|split; [exact Hl'|exact Hs']]].
      * intros r Hin. apply in_app_or in Hin as [Hin|[<-|[]]].
        -- apply range_within_mono. auto.
        -- unfold range_within. simpl. lia.
      * intros i Hi. apply in_some_range_app.
        destruct (Nat.lt_ge_cases i (range_begin s)) as [Hi1|Hi1]; [auto|].
        right. exists (triplet (range_begin s) (range_begin s)
                         (fusion_layout s)).
        simpl. split; [auto|lia].
  - pose proof (check_operands_ge st (block_tac block (first s))
                  (block_tac block k) (fusion_layout s)) as Hge.
    destruct (check_operands _ _ _ _) as [c fl]. simpl in Hge.
    destruct (negb c); simpl.
    + (* operands that are not compatible *)
      destruct (Nat.ltb_spec (range_begin s) k) as [Hlt|Hge'].
      * destruct (layouts_ascend_app (ranges s)
                    [triplet (range_begin s) (k - 1) fl]
                    (fusion_layout s) fl Hs Hl Hge)
          as [Hs' Hl'].
        { intros r [<-|[]]; reflexivity. }
        simpl. split; [lia|]. split; [|split; [|split; [exact Hl'|exact Hs']]].
        -- intros r Hin. apply in_app_or in Hin as [Hin|[<-|[]]].
           ++ apply range_within_mono. auto.
           ++ unfold range_within. simpl. lia.
        -- intros i Hi. apply in_some_range_app.
           destruct (Nat.lt_ge_cases i (range_begin s)) as [Hi1|Hi1]; [auto|].
           right. exists (triplet (range_begin s) (k - 1) fl).
           simpl. split; [auto|lia].
      * assert (Heq : range_begin s = k) by lia.
        destruct (layouts_ascend_app (ranges s)
                    [triplet (range_begin s) (range_begin s) fl]
                    (fusion_layout s) fl Hs Hl Hge)
          as [Hs' Hl'].
        { intros r [<-|[]]; reflexivity. }
        simpl. split; [lia|]. split; [|split; [|split; [exact Hl'|exact Hs']]].
        -- intros r Hin. apply in_app_or in Hin as [Hin|[<-|[]]].
           ++ apply range_within_mono. auto.
           ++ unfold range_within. simpl. lia.
        -- intros i Hi. apply in_some_range_app. left. apply Hc. lia.
    + (* the TAC joins the current range *)
      simpl. split; [lia|]. split; [|split; [exact Hc|split; [|exact Hs]]].
      * intros r Hin. apply range_within_mono. auto.
      * intros r Hin. specialize (Hl r Hin). lia.
Qed.

Lemma sweep_inv_fold (st : SymbolTable) (block : list tac_t) (n a : nat)
    (s : sweep) :
  (a + n <= length block)%nat -> sweep_inv a s ->
  sweep_inv (a + n) (fold_left (sweep_step st block) (seq a n) s).
Proof.
  revert a s. induction n as [|n IH]; intros a s Hlen Hinv; simpl.
  - rewrite Nat.add_0_r. exact Hinv.
  - replace (a + S n)%nat with (S a + n)%nat by lia.
    apply IH; [lia|]. apply sweep_step_inv; [lia|exact Hinv].
Qed.

Lemma sweep_inv_init : sweep_inv 0 sweep_init.
Proof.
  unfold sweep_inv, sweep_init, layouts_ascend. simpl.
  split; [lia|]. split; [intros r []|]. split; [intros i Hi; lia|].
  split; [intros r []|constructor].
Qed.

(** The fuse ranges of a block are well formed: every range runs from a
    begin to an end that is not in front of it and lies inside the block;
    every TAC of the block lies in some range; and along the list of
    ranges the layout never goes down (the fusion layout is not reset
    when a new range starts). *)
Lemma fuse_ranges_well_formed (st : SymbolTable) (block : list tac_t) :
  (forall r, In r (fuse_ranges st block) ->
     (r_begin r <= r_end r)%nat /\ (r_end r < length block)%nat)
  /\ (forall i, (i < length block)%nat ->
        exists r, In r (fuse_ranges st block)
                  /\ (r_begin r <= i)%nat /\ (i <= r_end r)%nat)
  /\ layouts_ascend (fuse_ranges st block).
Proof.
  pose proof (sweep_inv_fold st block (length block) 0 sweep_init
                (Nat.le_refl _) sweep_inv_init) as Hinv.
  simpl in Hinv. unfold fuse_ranges, fuse_ranges_with.
  fold (sweep_step st block).
  set (s := fold_left (sweep_step st block) (seq 0 (length block)) sweep_init)
    in *.
  destruct Hinv as (Hb & Hr & Hc & Hl & Hs).
  destruct (Nat.ltb_spec (range_begin s) (length block)) as [Hlt|Hge].
  - destruct (layouts_ascend_app (ranges s)
                [triplet (range_begin s) (length block - 1) (fusion_layout s)]
                (fusion_layout s) (fusion_layout s) Hs Hl)
      as [Hs' _]; [lia| |].
    { intros r [<-|[]]; reflexivity. }
    split; [|split; [|exact Hs']].
    + intros r Hin. apply in_app_or in Hin as [Hin|[<-|[]]].
      * apply Hr. exact Hin.
      * simpl. lia.
    + intros i Hi. apply in_some_range_app.
      destruct (Nat.lt_ge_cases i (range_begin s)) as [Hi1|Hi1]; [auto|].
      right. exists (triplet (range_begin s) (length block - 1)
                       (fusion_layout s)).
      simpl. split; [auto|lia].
  - split; [|split; [|exact Hs]].
    + intros r Hin. apply Hr. exact Hin.
    + intros i Hi. apply Hc. lia.
Qed.

(** X5. Every fuse range runs from a begin to an end that is not in front of
    it, and ends inside the block. *)
Theorem fuse_ranges_within_block (st : SymbolTable) (block : list tac_t)
    (r : triplet_t) :
  In r (fuse_ranges st block) ->
  (r_begin r <= r_end r)%nat /\ (r_end r < length block)%nat.
Proof. apply (fuse_ranges_well_formed st block). Qed.

(** X6. Every TAC of the block lies in some fuse range. *)
Theorem fuse_ranges_cover_block (st : SymbolTable) (block : list tac_t)
    (i : nat) :
  (i < length block)%nat ->
  exists r, In r (fuse_ranges st block)
            /\ (r_begin r <= i)%nat /\ (i <= r_end r)%nat.
Proof. apply (fuse_ranges_well_formed st block). Qed.

(** X7. The fusion layout is carried over from range to range and only ever
    raised: along the list of fuse ranges the layout never goes down. *)
Theorem fuse_ranges_layouts_ascend (st : SymbolTable) (block : list tac_t) :
  layouts_ascend (fuse_ranges st block).
Proof. apply (fuse_ranges_well_formed st block). Qed.

(** ** The helpers always reach a loaded launcher *)

Lemma sij_mode_some (o : oracle) (st : SymbolTable)
    (block : list tac_t) (e : Engine) :
  exists r e', sij_mode o st block e = Some (r, e').
Proof.
  assert (Harr : forall tac, exists r e',
            sij_array_operation o st block tac e = Some (r, e')).
  { intros tac. unfold sij_array_operation.
    set (fp := (symbolize st block).2).
    destruct (if jit_enabled (config e) && negb (symbol_ready fp e)
              then jit_compile o fp (specialize_sij st block) e
              else (BH_SUCCESS, e)) as [r1 e1].
    destruct (is_success r1); simpl; [|eauto].
    destruct (load_if_needed o fp e1) as [r2 e2] eqn:H2.
    destruct (is_success r2) eqn:Hs2; simpl; [|eauto].
    destruct (bh_vcache_malloc_base _ _ _) as [r3 e3] eqn:H3.
    apply malloc_base_continues in H3 as [_ Hst3].
    destruct (is_success r3); simpl; [|eauto].
    unfold launch, symbol_ready. rewrite Hst3.
    pose proof (load_success_ready o fp e1 e2 r2 H2 Hs2) as Hr.
    unfold symbol_ready in Hr. rewrite Hr. eauto. }
  unfold sij_mode.
  destruct (op (block_tac block 0)); try apply Harr.
  - destruct (oper (block_tac block 0)); eauto.
    destruct (bh_vcache_free_base _ _ _) as [r1 e1].
    destruct (is_success r1); eauto.
  - destruct (extensions e !! ext (block_tac block 0)); eauto.
    destruct (is_success _); eauto.
  - eauto.
Qed.

(** X8. [sij_mode] never calls a launcher that is not loaded: whatever the
    TAC, the engine and the answers of the toolchain, the call
    returns. *)
Theorem sij_mode_returns (o : oracle) (st : SymbolTable)
    (block : list tac_t) (e : Engine) :
  exists r e', sij_mode o st block e = Some (r, e').
Proof. apply sij_mode_some. Qed.

(** [fuse_mode] on a subgraph whose mask holds an array operation never
    calls a launcher that is not loaded either. *)
Lemma fuse_mode_returns (o : oracle) (st : SymbolTable) (omask : Z)
    (block : list tac_t) (e : Engine) :
  has_array_ops omask = true ->
  exists r e', fuse_mode o st omask block e = Some (r, e').
Proof.
  intros Hmask. unfold fuse_mode.
  destruct (symbolize st block) as [symbolized fp].
  destruct symbolized; simpl; [|eauto]. rewrite Hmask.
  destruct (if jit_enabled (config e) && true && negb (symbol_ready fp e)
            then jit_compile o fp
                   (specialize_fuse st block (fuse_ranges st block)) e
            else (BH_SUCCESS, e)) as [r1 e1].
  destruct (is_success r1); simpl; [|eauto].
  destruct (load_if_needed o fp e1) as [r2 e2] eqn:H2.
  destruct (is_success r2) eqn:Hs2; simpl; [|eauto].
  destruct (allocate_outputs o st block e2) as [r3 e3] eqn:H3.
  apply allocate_outputs_trace in H3 as (t3 & _ & Hst3 & _).
  destruct (is_success r3); simpl; [|eauto].
  unfold launch, symbol_ready. rewrite Hst3.
  pose proof (load_success_ready o fp e1 e2 r2 H2 Hs2) as Hr.
  unfold symbol_ready in Hr. rewrite Hr.
  destruct (free_operands _ _ _ _) as [r5 e5].
  destruct (is_success r5); simpl; eauto.
Qed.

(** The helper calls execute makes for a subgraph are calls of sij_mode,
    or the one call of fuse_mode on a mask with array operations. *)
Definition guarded (i : invocation) : Prop :=
  match i with
  | FuseMode _ omask _ => has_array_ops omask = true
  | SijMode _ _ => True
  end.

Lemma batch_invocations_guarded (cfg : Config)
    (instrs : list bh_instruction) :
  Forall guarded (batch_invocations cfg instrs).
Proof.
  unfold batch_invocations. destruct (instrs_to_tacs instrs) as [program st0].
  apply Forall_forall. intros i Hi. apply list_elem_of_In in Hi.
  apply in_flat_map in Hi as (sg & _ & Hi).
  unfold subgraph_invocations in Hi.
  destruct (jit_fusion cfg && _ && has_array_ops (sg_omask sg)) eqn:Hg.
  - destruct Hi as [<-|[]]. simpl.
    apply andb_true_iff in Hg as [_ Hg]. exact Hg.
  - apply in_map_iff in Hi as (v & <- & _). exact I.
Qed.

Lemma call_helpers_returns (o : oracle) (calls : list invocation)
    (e : Engine) :
  Forall guarded calls -> exists e', call_helpers o calls e = Some e'.
Proof.
  revert e. induction calls as [|i rest IH]; intros e Hg; simpl; [eauto|].
  apply Forall_cons in Hg as [Hi Hrest].
  assert (Hinv : exists r e1, invoke o i e = Some (r, e1)).
  { destruct i; simpl in *;
      [apply fuse_mode_returns; exact Hi|apply sij_mode_some]. }
  destruct Hinv as (r & e1 & ->). apply IH. exact Hrest.
Qed.

(** X9. [execute] always returns, and what it returns is BH_SUCCESS: it
    enters fuse_mode only for subgraphs with array operations, so no
    helper call of a batch ends in a launcher that is not loaded, and the
    statuses of the helpers are not looked at. *)
Theorem execute_returns_success (o : oracle)
    (instrs : list bh_instruction) (e : Engine) :
  exists e', execute o instrs e = Some (BH_SUCCESS, e').
Proof.
  unfold execute.
  destruct (call_helpers_returns o
              (batch_invocations (config (bump_exec_count e)) instrs)
              (bump_exec_count e)) as [e' He'].
  - apply batch_invocations_guarded.
  - rewrite He'. eauto.
Qed.

(** X10. [fuse_mode] leaves the load out when the mask of the subgraph holds
    no array operation, but calls the launcher all the same: on such a
    mask, a block without array operations whose symbol is not ready ends
    in a call through a pointer that is not set. *)
Theorem fuse_mode_needs_array_mask (o : oracle) (st : SymbolTable)
    (omask : Z) (block : list tac_t) (e : Engine) (fp : string) :
  has_array_ops omask = false ->
  (forall tac, In tac block ->
     has_array_ops (OPERATION_val (op tac)) = false) ->
  symbolize st block = (true, fp) ->
  symbol_ready fp e = false ->
  fuse_mode o st omask block e = None.
Proof.
  intros Hmask Hops Hsym Hnr. unfold fuse_mode.
  rewrite Hsym, Hmask, andb_false_r. simpl.
  assert (Ha : allocate_outputs o st block e = (BH_SUCCESS, e)).
  { clear Hsym. induction block as [|tac rest IH]; simpl; [reflexivity|].
    rewrite (Hops tac) by (left; reflexivity).
    apply IH. intros t Ht. apply Hops. right. exact Ht. }
  rewrite Ha. simpl. unfold launch. rewrite Hnr. reflexivity.
Qed.

(** ** The compiler is only called with the JIT enabled *)

Lemma no_jit_sij_array (o : oracle) (st : SymbolTable) (block : list tac_t)
    (tac : tac_t) (e e' : Engine) (r : bh_error) :
  jit_enabled (config e) = false ->
  sij_array_operation o st block tac e = Some (r, e') ->
  exists t, continues e e' t /\ forall f, compiles f t = 0%nat.
Proof.
  intros Hjit. unfold sij_array_operation. rewrite Hjit. simpl.
  set (fp := (symbolize st block).2).
  destruct (load_if_needed_trace o fp e) as (e2 & Hl & Hc2 & _).
  rewrite Hl.
  assert (Hz2 : forall f,
            compiles f (if symbol_ready fp e then []
                        else [EvLoad fp (load_ok o fp)]) = 0%nat).
  { intros f. destruct (symbol_ready fp e); reflexivity. }
  destruct (is_success _); simpl.
  - destruct (bh_vcache_malloc_base _ _ _) as [r3 e3] eqn:H3.
    apply malloc_base_continues in H3 as [Hc3 _].
    pose proof (continues_trans _ _ _ _ _ Hc2 Hc3) as Hc23.
    destruct (is_success r3); simpl.
    + destruct (launch fp e3) as [e4|] eqn:H4; [|discriminate].
      apply launch_continues in H4 as (Hc4 & _).
      intros H; inversion H; subst. eexists.
      split; [exact (continues_trans _ _ _ _ _ Hc23 Hc4)|].
      intros f. rewrite !compiles_app, Hz2. reflexivity.
    + intros H; inversion H; subst. eexists. split; [exact Hc23|].
      intros f. rewrite compiles_app, Hz2. reflexivity.
  - intros H; inversion H; subst. eexists. split; [exact Hc2|exact Hz2].
Qed.

Lemma no_jit_invoke (o : oracle) (i : invocation) (e e' : Engine)
    (r : bh_error) :
  jit_enabled (config e) = false ->
  invoke o i e = Some (r, e') ->
  exists t, continues e e' t /\ forall f, compiles f t = 0%nat.
Proof.
  intros Hjit. destruct i as [st omask block|st block]; simpl.
  - unfold fuse_mode. rewrite Hjit. simpl.
    destruct (symbolize st block) as [symbolized fp].
    destruct symbolized; simpl.
    2:{ intros H; inversion H; subst. exists [].
        split; [apply continues_refl|reflexivity]. }
    assert (Hload : exists e2 t2 r2,
              (if has_array_ops omask then load_if_needed o fp e
               else (BH_SUCCESS, e)) = (r2, e2)
              /\ continues e e2 t2 /\ forall f, compiles f t2 = 0%nat).
    { destruct (has_array_ops omask).
      - destruct (load_if_needed_trace o fp e) as (e2 & Hl & Hc2 & _).
        do 3 eexists. split; [exact Hl|]. split; [exact Hc2|].
        intros f. destruct (symbol_ready fp e); reflexivity.
      - do 3 eexists. split; [reflexivity|].
        split; [apply continues_refl|reflexivity]. }
    destruct Hload as (e2 & t2 & r2 & -> & Hc2 & Hz2).
    destruct (is_success r2); simpl.
    2:{ intros H; inversion H; subst. eauto. }
    destruct (allocate_outputs o st block e2) as [r3 e3] eqn:H3.
    apply allocate_outputs_trace in H3 as (t3 & Hc3 & _ & Hq3 & _).
    pose proof (continues_trans _ _ _ _ _ Hc2 Hc3) as Hc23.
    destruct (is_success r3); simpl.
    2:{ intros H; inversion H; subst. eexists. split; [exact Hc23|].
        intros f. rewrite compiles_app, Hz2, compiles_quiet; auto. }
    destruct (launch fp e3) as [e4|] eqn:H4; [|discriminate].
    apply launch_continues in H4 as (Hc4 & _).
    pose proof (continues_trans _ _ _ _ _ Hc23 Hc4) as Hc234.
    destruct (free_operands o st block e4) as [r5 e5] eqn:H5.
    apply free_operands_trace in H5 as (t5 & Hc5 & _ & Hq5 & _).
    pose proof (continues_trans _ _ _ _ _ Hc234 Hc5) as Hc.
    assert (Hz : forall f, compiles f (((t2 ++ t3) ++ [EvLaunch fp]) ++ t5)
                           = 0%nat).
    { intros f. rewrite !compiles_app, Hz2, !compiles_quiet; auto. }
    destruct (is_success r5); simpl; intros H; inversion H; subst; eauto.
  - unfold sij_mode.
    destruct (op (block_tac block 0));
      try (apply no_jit_sij_array; exact Hjit).
    + destruct (oper (block_tac block 0)).
      * intros H; inversion H; subst. exists [].
        split; [apply continues_refl|reflexivity].
      * destruct (bh_vcache_free_base _ _ _) as [r1 e1] eqn:Hf.
        apply free_base_continues in Hf as [Hc _].
        destruct (is_success r1); intros H; inversion H; subst;
          (eexists; split; [exact Hc|reflexivity]).
      * intros H; inversion H; subst. exists [].
        split; [apply continues_refl|reflexivity].
      * intros H; inversion H; subst. exists [].
        split; [apply continues_refl|reflexivity].
    + destruct (extensions e !! ext (block_tac block 0)).
      * destruct (is_success _); intros H; inversion H; subst;
          (eexists; split; [apply continues_log|reflexivity]).
      * intros H; inversion H; subst. exists [].
        split; [apply continues_refl|reflexivity].
    + intros H; inversion H; subst. exists [].
      split; [apply continues_refl|reflexivity].
Qed.

(** X11. An engine constructed with jit_enabled = false never calls the
    compiler: over any sequence of helper invocations, whatever symbols
    are missing, the count of compiler calls stays at zero for every
    fingerprint. *)
Theorem no_jit_no_compile (calls : list (oracle * invocation))
    (cfg : Config) (pre : gset string) (mem : gmap nat bh_base)
    (e' : Engine) (f : string) :
  jit_enabled cfg = false ->
  lifetime calls (new_engine cfg pre mem) = Some e' ->
  compiles f (trace e') = 0%nat.
Proof.
  intros Hjit.
  assert (Hgen : forall e, jit_enabled (config e) = false ->
            lifetime calls e = Some e' ->
            compiles f (trace e') = compiles f (trace e)).
  { induction calls as [|[o i] rest IH]; intros e He H; simpl in H.
    - inversion H; subst. reflexivity.
    - destruct (invoke o i e) as [[r e1]|] eqn:Hi; [|discriminate].
      destruct (no_jit_invoke o i e e1 r He Hi) as (t & (Ht & Hcfg & _) & Hz).
      rewrite (IH e1); [|congruence|exact H].
      rewrite Ht, compiles_app, Hz. lia. }
  intros H. rewrite (Hgen (new_engine cfg pre mem) Hjit H). reflexivity.
Qed.

(** ** Registering an extension and dispatching to it *)

(** X12. After register_extension has found the method for a name, an
    EXTENSION TAC with the registered opcode is handed to that method,
    and [sij_mode] returns the status of the method; entries of other
    opcodes are as before.  Registering an opcode again replaces its
    method. *)
Theorem register_then_dispatch
    (lookup : string -> bh_error * nat) (name : string) (opcode : Z)
    (m : nat) (o : oracle) (st : SymbolTable) (block : list tac_t)
    (e : Engine) :
  lookup name = (BH_SUCCESS, m) ->
  op (block_tac block 0) = EXTENSION ->
  ext (block_tac block 0) = opcode ->
  exists e1,
    register_extension lookup name opcode e = (BH_SUCCESS, e1)
    /\ extensions e1 !! opcode = Some m
    /\ (forall opcode', opcode' <> opcode ->
          extensions e1 !! opcode' = extensions e !! opcode')
    /\ sij_mode o st block e1
       = Some (extmethod_status o m opcode,
               log (EvExtmethod opcode (extmethod_status o m opcode)) e1).
Proof.
  intros Hlook Hop Hext. unfold register_extension. rewrite Hlook. simpl.
  eexists. split; [reflexivity|]. simpl.
  split; [apply lookup_insert_eq|].
  split; [intros opcode' Hne; apply lookup_insert_ne; congruence|].
  unfold sij_mode. rewrite Hop, Hext. simpl. rewrite lookup_insert_eq.
  destruct (extmethod_status o m opcode); reflexivity.
Qed.

(** A name the component lookup does not know leaves the engine as it
    is, and an EXTENSION TAC for the opcode is still passed over. *)
Theorem register_unknown_extension
    (lookup : string -> bh_error * nat) (name : string) (opcode : Z)
    (err : bh_error) (m : nat) (o : oracle) (st : SymbolTable)
    (block : list tac_t) (e : Engine) :
  lookup name = (err, m) -> err <> BH_SUCCESS ->
  op (block_tac block 0) = EXTENSION ->
  ext (block_tac block 0) = opcode ->
  extensions e !! opcode = None ->
  register_extension lookup name opcode e = (err, e)
  /\ sij_mode o st block (register_extension lookup name opcode e).2
     = Some (BH_SUCCESS, e).
Proof.
  intros Hlook Herr Hop Hext Hnone. unfold register_extension.
  rewrite Hlook.
  assert (Hs : is_success err = false)
    by (destruct err; simpl; congruence).
  rewrite Hs. simpl. split; [reflexivity|].
  unfold sij_mode. rewrite Hop, Hext, Hnone. reflexivity.
Qed.

(** ** The kernel is launched only after its outputs are allocated *)

(** Events of the compile and load blocks. *)
Definition storage_event (ev : event) : bool :=
  match ev with
  | EvWriteFile _ | EvCompile _ _ _ | EvAddSymbol _ | EvLoad _ _ => true
  | _ => false
  end.

Definition malloc_event (ev : event) : bool :=
  match ev with EvMalloc _ _ => true | _ => false end.

Definition malloc_ok_event (ev : event) : bool :=
  match ev with EvMalloc _ BH_SUCCESS => true | _ => false end.

Definition free_event (ev : event) : bool :=
  match ev with EvFree _ _ => true | _ => false end.

Lemma compile_load_events (o : oracle) (fp src : string) (g1 g2 : bool)
    (e e1 e2 : Engine) (r1 r2 : bh_error) :
  (if g1 then jit_compile o fp src e else (BH_SUCCESS, e)) = (r1, e1) ->
  (if is_success r1
   then (if g2 then load_if_needed o fp e1 else (BH_SUCCESS, e1))
   else (r1, e1)) = (r2, e2) ->
  exists t, continues e e2 t /\ forallb storage_event t = true.
Proof.
  intros H1 H2.
  assert (Hc1 : exists t1, continues e e1 t1
                           /\ forallb storage_event t1 = true).
  { destruct g1.
    - destruct (jit_compile_trace o fp src e) as (e1' & Hj & Hc & _).
      rewrite Hj in H1. inversion H1; subst. eexists. split; [exact Hc|].
      unfold dump_events.
      destruct (jit_dumpsrc (config e)), (compile_ok o fp src); reflexivity.
    - inversion H1; subst. exists []. split; [apply continues_refl|auto]. }
  destruct Hc1 as (t1 & Hc1 & Hq1).
  destruct (is_success r1).
  - destruct g2.
    + destruct (load_if_needed_trace o fp e1) as (e2' & Hl & Hc2 & _).
      rewrite Hl in H2. inversion H2; subst. eexists.
      split; [exact (continues_trans _ _ _ _ _ Hc1 Hc2)|].
      rewrite forallb_app, Hq1. destruct (symbol_ready fp e1); reflexivity.
    + inversion H2; subst. eauto.
  - inversion H2; subst. eauto.
Qed.

(** The allocation loop calls bh_vcache_malloc_base and nothing else,
    and stops at the first call that fails. *)
Lemma allocate_outputs_mallocs (o : oracle) (st : SymbolTable)
    (tacs : list tac_t) (e e' : Engine) (r : bh_error) :
  allocate_outputs o st tacs e = (r, e') ->
  exists t, continues e e' t /\ forallb malloc_event t = true
    /\ (r = BH_SUCCESS -> forallb malloc_ok_event t = true).
Proof.
  revert e. induction tacs as [|tac rest IH]; intros e H; simpl in H.
  - inversion H; subst. exists []. split; [apply continues_refl|auto].
  - destruct (has_array_ops (OPERATION_val (op tac))); [|auto].
    destruct (bh_vcache_malloc_base _ _ _) as [res e1] eqn:Hm.
    apply malloc_base_continues in Hm as [Hc _].
    destruct (scalar_nelem_continues (symbol_at st (out tac)) e) as [Hc0 _].
    pose proof (continues_trans _ _ _ _ _ Hc0 Hc) as Hc1. simpl in Hc1.
    destruct (is_success res) eqn:Hres.
    + apply is_success_eq in Hres. subst res.
      apply IH in H as (t & Hc2 & Hq & Hok). eexists.
      split; [exact (continues_trans _ _ _ _ _ Hc1 Hc2)|].
      simpl. split; [exact Hq|exact Hok].
    + inversion H; subst. eexists. split; [exact Hc1|].
      split; [reflexivity|]. intros ->. discriminate.
Qed.

Lemma free_operands_frees (o : oracle) (st : SymbolTable)
    (tacs : list tac_t) (e e' : Engine) (r : bh_error) :
  free_operands o st tacs e = (r, e') ->
  exists t, continues e e' t /\ forallb free_event t = true.
Proof.
  revert e. induction tacs as [|tac rest IH]; intros e H; simpl in H.
  - inversion H; subst. exists []. split; [apply continues_refl|auto].
  - destruct (bool_decide (oper tac = FREE)); [|auto].
    destruct (bh_vcache_free_base _ _ _) as [res e1] eqn:Hm.
    apply free_base_continues in Hm as [Hc _].
    destruct (is_success res).
    + apply IH in H as (t & Hc2 & Hq). eexists.
      split; [exact (continues_trans _ _ _ _ _ Hc Hc2)|]. exact Hq.
    + inversion H; subst. eexists. split; [exact Hc|reflexivity].
Qed.

Lemma no_launch_in (p : event -> bool) (t : list event) (fp : string) :
  p (EvLaunch fp) = false -> forallb p t = true -> ~ In (EvLaunch fp) t.
Proof.
  intros Hp Hall Hin. rewrite forallb_forall in Hall.
  apply Hall in Hin. congruence.
Qed.

Lemma mallocs_in (p : event -> bool) (t : list event) (b : nat)
    (res : bh_error) :
  p (EvMalloc b res) = false -> forallb p t = true -> ~ In (EvMalloc b res) t.
Proof.
  intros Hp Hall Hin. rewrite forallb_forall in Hall.
  apply Hall in Hin. congruence.
Qed.

Lemma continues_unique (e e' : Engine) (t1 t2 : list event) :
  continues e e' t1 -> continues e e' t2 -> t1 = t2.
Proof.
  intros (H1 & _) (H2 & _). rewrite H1 in H2.
  apply app_inv_head in H2. exact H2.
Qed.

(** X13. In a call of [fuse_mode], the kernel is launched only after the
    compile and load blocks went through and every allocation succeeded:
    if the trace of the call holds a launch, then every array operation
    of the block had its output allocated, and no call of
    bh_vcache_malloc_base in that trace failed. *)
Theorem fuse_mode_launch_after_allocation (o : oracle) (st : SymbolTable)
    (omask : Z) (block : list tac_t) (e e' : Engine) (r : bh_error)
    (t : list event) (fp : string) :
  fuse_mode o st omask block e = Some (r, e') ->
  trace e' = trace e ++ t ->
  In (EvLaunch fp) t ->
  (forall tac, In tac block ->
     has_array_ops (OPERATION_val (op tac)) = true ->
     In (EvMalloc (base (symbol_at st (out tac))) BH_SUCCESS) t)
  /\ (forall b res, In (EvMalloc b res) t -> res = BH_SUCCESS).
Proof.
  unfold fuse_mode.
  destruct (symbolize st block) as [symbolized fp0].
  set (src := specialize_fuse st block (fuse_ranges st block)).
  destruct symbolized; simpl.
  2:{ intros H Ht Hin; inversion H; subst.
      rewrite <- (app_nil_r (trace e')) in Ht at 1.
      apply app_inv_head in Ht. subst t. destruct Hin. }
  destruct (if jit_enabled (config e) && has_array_ops omask
               && negb (symbol_ready fp0 e)
            then jit_compile o fp0 src e else (BH_SUCCESS, e))
    as [r1 e1] eqn:H1.
  destruct (if is_success r1
            then (if has_array_ops omask then load_if_needed o fp0 e1
                  else (BH_SUCCESS, e1))
            else (r1, e1)) as [r2 e2] eqn:H2.
  destruct (compile_load_events o fp0 src _ _ e e1 e2 r1 r2 H1 H2)
    as (t12 & Hc12 & Hq12).
  assert (Hfinish : forall (ee : Engine) (tt : list event),
            continues e ee tt -> trace ee = trace e ++ t -> tt = t).
  { intros ee tt (Hee & _) Ht. rewrite Hee in Ht.
    apply app_inv_head in Ht. exact Ht. }
  destruct (is_success r1) eqn:Hs1; simpl.
  2:{ inversion H2; subst. intros H Ht Hin; inversion H; subst.
      rewrite <- (Hfinish _ _ Hc12 Ht) in Hin.
      exfalso. eapply (no_launch_in storage_event); eauto. }
  rewrite H2.
  destruct (is_success r2) eqn:Hs2; simpl.
  2:{ intros H Ht Hin; inversion H; subst.
      rewrite <- (Hfinish _ _ Hc12 Ht) in Hin.
      exfalso. eapply (no_launch_in storage_event); eauto. }
  destruct (allocate_outputs o st block e2) as [r3 e3] eqn:H3.
  destruct (allocate_outputs_mallocs _ _ _ _ _ _ H3) as (t3 & Hc3 & Hq3 & Hok3).
  apply allocate_outputs_trace in H3 as (t3' & Hc3' & _ & _ & Hm3).
  rewrite <- (continues_unique _ _ _ _ Hc3 Hc3') in Hm3. clear Hc3' t3'.
  pose proof (continues_trans _ _ _ _ _ Hc12 Hc3) as Hc123.
  destruct (is_success r3) eqn:Hs3; simpl.
  2:{ intros H Ht Hin; inversion H; subst.
      rewrite <- (Hfinish _ _ Hc123 Ht) in Hin.
      exfalso. apply in_app_or in Hin as [Hin|Hin].
      - eapply (no_launch_in storage_event); eauto.
      - eapply (no_launch_in malloc_event); eauto. }
  apply is_success_eq in Hs3. specialize (Hm3 Hs3). specialize (Hok3 Hs3).
  destruct (launch fp0 e3) as [e4|] eqn:H4; [|discriminate].
  apply launch_continues in H4 as (Hc4 & _).
  destruct (free_operands o st block e4) as [r5 e5] eqn:H5.
  apply free_operands_frees in H5 as (t5 & Hc5 & Hq5).
  pose proof (continues_trans _ _ _ _ _
                (continues_trans _ _ _ _ _ Hc123 Hc4) Hc5) as Hc.
  assert (Hgoal : forall tt, tt = ((t12 ++ t3) ++ [EvLaunch fp0]) ++ t5 ->
            (forall tac, In tac block ->
               has_array_ops (OPERATION_val (op tac)) = true ->
               In (EvMalloc (base (symbol_at st (out tac))) BH_SUCCESS) tt)
            /\ (forall b res, In (EvMalloc b res) tt -> res = BH_SUCCESS)).
  { intros tt ->. split.
    - intros tac Hin Hop. apply in_or_app. left. apply in_or_app. left.
      apply in_or_app. right. auto.
    - intros b res Hin.
      apply in_app_or in Hin as [Hin|Hin].
      + apply in_app_or in Hin as [Hin|Hin].
        * apply in_app_or in Hin as [Hin|Hin].
          -- exfalso. eapply (mallocs_in storage_event); eauto.
          -- rewrite forallb_forall in Hok3. specialize (Hok3 _ Hin).
             destruct res; simpl in Hok3; congruence.
        * destruct Hin as [Hin|[]]. discriminate.
      + exfalso. eapply (mallocs_in free_event); eauto. }
  destruct (is_success r5); simpl; intros H Ht _; inversion H; subst;
    apply Hgoal; symmetry; exact (Hfinish _ _ Hc Ht).
Qed.

End Helpers.

(** ** An instance of the core library

    The functions the section above takes as variables, filled in so that
    the helpers can be run on concrete blocks. *)

(** Modelled from the spec: the enumerator values of OPERATION and the
    masks ARRAY_OPS and NON_FUSABLE come from a header that is not part
    of the sources at hand.  Masks are ORs of operation classes (section
    3), so each class is one bit; ARRAY_OPS holds the five classes
    [sij_mode] groups as array operations, NON_FUSABLE the classes that
    section 4.3 keeps out of fusible edges. *)
Definition OPERATION_bit (x : OPERATION) : Z :=
  match x with
  | MAP => 1 | ZIP => 2 | REDUCE => 4 | SCAN => 8 | GENERATE => 16
  | SYSTEM => 32 | EXTENSION => 64 | NOOP => 128
  end.

Definition ARRAY_OPS_mask : Z :=
  Z.lor (OPERATION_bit MAP)
    (Z.lor (OPERATION_bit ZIP)
       (Z.lor (OPERATION_bit REDUCE)
          (Z.lor (OPERATION_bit SCAN) (OPERATION_bit GENERATE)))).

Definition NON_FUSABLE_mask : Z :=
  Z.lor (OPERATION_bit REDUCE)
    (Z.lor (OPERATION_bit SCAN) (OPERATION_bit EXTENSION)).

(** Modelled from the spec: core::tac_noperands is not part of the
    sources at hand.  A TAC is (op, subop, out, in1, in2); a unary MAP
    uses out and in1, the binary operations all three, a SYSTEM TAC with
    FREE, DISCARD or SYNC its out operand, NOOP none. *)
Definition operand_count (tac : tac_t) : nat :=
  match op tac with
  | MAP => 2
  | ZIP | REDUCE | SCAN | GENERATE | EXTENSION => 3
  | SYSTEM => match oper tac with PRIMITIVE _ => 0 | _ => 1 end
  | NOOP => 0
  end.

(** Modelled from the spec: core::compatible is not part of the sources
    at hand.  Section 4.4: two operands are compatible when they are the
    identical view, or both CONTIGUOUS with equal shape, or one of them
    is SCALAR. *)
Definition compatible_operands (a b : operand_t) : bool :=
  (bool_decide (base a = base b) && bool_decide (shape a = shape b)
   && bool_decide (stride a = stride b) && bool_decide (start a = start b))
  || (bool_decide (layout a = CONTIGUOUS)
      && bool_decide (layout b = CONTIGUOUS)
      && bool_decide (shape a = shape b))
  || bool_decide (layout a = SCALAR) || bool_decide (layout b = SCALAR).

Definition OPERATION_name (x : OPERATION) : string :=
  match x with
  | MAP => "MAP" | ZIP => "ZIP" | REDUCE => "REDUCE" | SCAN => "SCAN"
  | GENERATE => "GENERATE" | SYSTEM => "SYSTEM" | EXTENSION => "EXTENSION"
  | NOOP => "NOOP"
  end.

(** A fingerprint that spells the operations of the block; an empty block
    has no symbol. *)
Definition block_symbol (st : SymbolTable) (block : list tac_t)
    : bool * string :=
  (negb (bool_decide (block = [])),
   String.concat "_" (map (fun tac => OPERATION_name (op tac)) block)).

Definition kernel_source (st : SymbolTable) (block : list tac_t) : string :=
  ("kernel " ++ (block_symbol st block).2)%string.

Definition fused_kernel_source (st : SymbolTable) (block : list tac_t)
    (rs : list triplet_t) : string :=
  ("fused kernel " ++ (block_symbol st block).2)%string.

(** A batch that is given as its TACs over a symbol table [st]. *)
Definition tacs_of_batch (st : SymbolTable) (instrs : list tac_t)
    : list tac_t * SymbolTable :=
  (instrs, st).

(** A graph in which every TAC is a subgraph of its own. *)
Definition singleton_subgraphs (st : SymbolTable) (program : list tac_t)
    : list Subgraph :=
  imap (fun i tac => {| sg_omask := OPERATION_bit (op tac);
                        sg_vertices := [i] |}) program.

(** A graph that is one subgraph holding every TAC. *)
Definition one_subgraph (st : SymbolTable) (program : list tac_t)
    : list Subgraph :=
  [{| sg_omask := foldr (fun tac m => Z.lor (OPERATION_bit (op tac)) m) 0
                    program;
      sg_vertices := seq 0 (length program) |}].

Definition run_sij : oracle -> SymbolTable -> list tac_t -> Engine ->
    option (bh_error * Engine) :=
  sij_mode block_symbol kernel_source.

Definition run_fuse : oracle -> SymbolTable -> Z -> list tac_t -> Engine ->
    option (bh_error * Engine) :=
  fuse_mode block_symbol fused_kernel_source compatible_operands
    operand_count OPERATION_bit ARRAY_OPS_mask.

Definition run_execute
    (graph : SymbolTable -> list tac_t -> list Subgraph)
    (st : SymbolTable)
    : oracle -> list tac_t -> Engine -> option (bh_error * Engine) :=
  execute block_symbol kernel_source fused_kernel_source
    compatible_operands operand_count OPERATION_bit ARRAY_OPS_mask
    NON_FUSABLE_mask tac_t (tacs_of_batch st) (fun t => t) graph.

Definition run_lifetime
    : list (oracle * invocation) -> Engine -> option Engine :=
  lifetime block_symbol kernel_source fused_kernel_source
    compatible_operands operand_count OPERATION_bit ARRAY_OPS_mask.

(** A toolchain that works, and one whose compiler fails. *)
Definition working_toolchain : oracle :=
  {| compile_ok := fun _ _ => true; load_ok := fun _ => true;
     alloc_ok := fun _ => true; free_status := fun _ => BH_SUCCESS;
     extmethod_status := fun _ _ => BH_SUCCESS |}.

Definition failing_compiler : oracle :=
  {| compile_ok := fun _ _ => false; load_ok := fun _ => true;
     alloc_ok := fun _ => true; free_status := fun _ => BH_SUCCESS;
     extmethod_status := fun _ _ => BH_SUCCESS |}.

Definition jit_config (fusion : bool) : Config :=
  {| jit_enabled := true; jit_fusion := fusion; jit_dumpsrc := false;
     dump_rep := false |}.

(** Four contiguous views of 1000 elements over the bases 0..3: handles
    0 = a, 1 = b, 2 = t, 3 = out; [t] is a temporary of the batch. *)
Definition vector_operand (b : nat) : operand_t :=
  {| layout := CONTIGUOUS; base := b; shape := [1000]; stride := [1];
     start := 0 |}.

Definition temp_fusion_table : SymbolTable :=
  {| table := map vector_operand [0; 1; 2; 3]%nat; temp := {[2%nat]} |}.

Definition mk_tac (o : OPERATION) (f : OPERATOR) (x y z : nat) : tac_t :=
  {| op := o; oper := f; out := x; in1 := y; in2 := z; ext := 0 |}.

(** ZIP_MUL(t, a, b); ZIP_ADD(out, t, a); FREE(t) *)
Definition temp_fusion_block : list tac_t :=
  [mk_tac ZIP (PRIMITIVE 2) 2 0 1; mk_tac ZIP (PRIMITIVE 1) 3 2 0;
   mk_tac SYSTEM FREE 2 0 0].

(** ZIP_MUL(t, a, b); FREE(b); ZIP_ADD(out, t, a) *)
Definition free_between_block : list tac_t :=
  [mk_tac ZIP (PRIMITIVE 2) 2 0 1; mk_tac SYSTEM FREE 1 0 0;
   mk_tac ZIP (PRIMITIVE 1) 3 2 0].

(** MAP(t, a); MAP(out, t) *)
Definition two_maps : list tac_t :=
  [mk_tac MAP (PRIMITIVE 3) 2 0 0; mk_tac MAP (PRIMITIVE 3) 3 2 0].

(** An EXTENSION TAC for opcode 77, followed by MAP(out, a). *)
Definition extension_batch : list tac_t :=
  [{| op := EXTENSION; oper := PRIMITIVE 0; out := 2%nat; in1 := 0%nat;
      in2 := 1%nat; ext := 77 |};
   mk_tac MAP (PRIMITIVE 3) 3 0 0].

Definition fresh_engine (fusion : bool) : Engine :=
  new_engine (jit_config fusion) ∅ ∅.

(** What a run hands back, with the engine reduced to its trace. *)
Definition status_and_trace (r : option (bh_error * Engine))
    : option (bh_error * list event) :=
  match r with
  | Some (res, e) => Some (res, trace e)
  | None => None
  end.

(** The engine a lifetime of calls leaves ([e] itself if a call has no
    result). *)
Definition engine_after (calls : list (oracle * invocation)) (e : Engine)
    : Engine :=
  default e (run_lifetime calls e).

(** ** The helpers on concrete batches *)

(** C1. Engine::execute does not stop at a failing helper and does not
    return its status.  On the batch MAP(t, a); MAP(out, t) with a
    compiler that fails, the first call of sij_mode returns BH_ERROR;
    execute goes on to the second TAC (the compiler is called a second
    time) and returns BH_SUCCESS. *)
Theorem execute_drops_helper_status :
  status_and_trace
    (run_sij failing_compiler temp_fusion_table (compose two_maps [0%nat])
       (bump_exec_count (fresh_engine false)))
    = Some (BH_ERROR, [EvCompile "MAP" "kernel MAP" false])
  /\ status_and_trace
       (run_execute singleton_subgraphs temp_fusion_table failing_compiler
          two_maps (fresh_engine false))
     = Some (BH_SUCCESS, [EvCompile "MAP" "kernel MAP" false;
                          EvCompile "MAP" "kernel MAP" false]).
Proof. split; vm_compute; reflexivity. Qed.

(** C9. An EXTENSION TAC whose opcode has no registered implementation
    is not fatal for the batch in the CPU engine: with no extension
    registered, sij_mode returns BH_SUCCESS for the TAC without calling
    anything, and execute runs the rest of the batch and returns
    BH_SUCCESS. *)
Theorem unregistered_extension_skipped :
  status_and_trace
    (run_sij working_toolchain temp_fusion_table
       (compose extension_batch [0%nat]) (fresh_engine false))
    = Some (BH_SUCCESS, [])
  /\ status_and_trace
       (run_execute singleton_subgraphs temp_fusion_table working_toolchain
          extension_batch (fresh_engine false))
     = Some (BH_SUCCESS,
             [EvCompile "MAP" "kernel MAP" true; EvAddSymbol "MAP";
              EvLoad "MAP" true; EvMalloc 3 BH_SUCCESS; EvLaunch "MAP"]).
Proof. split; vm_compute; reflexivity. Qed.

(** C4. A SYSTEM TAC is not skipped by the sweep.  In
    ZIP_MUL(t, a, b); FREE(b); ZIP_ADD(out, t, a) all operands are
    compatible, yet the FREE closes the range of the first ZIP and gets a
    range of its own, so the block falls into three ranges; with the
    guard the specification words (SYSTEM or NOOP) the sweep would store
    the one range 0..2. *)
Theorem system_tac_splits_range :
  fuse_ranges compatible_operands operand_count temp_fusion_table
    free_between_block
  = [triplet 0 0 CONTIGUOUS; triplet 1 1 CONTIGUOUS; triplet 2 2 CONTIGUOUS]
  /\ fuse_ranges_with compatible_operands operand_count ignored_as_specified
       temp_fusion_table free_between_block
     = [triplet 0 2 CONTIGUOUS].
Proof.
  split.
  - vm_compute. reflexivity.
  - vm_compute. reflexivity.
Qed.

(** C2.  The code does not do what its comments say ("Determine arrays
    suitable for scalar-replacement", "Turn the operand into a scalar",
    "Turning ... scalar"): the call of turn_scalar is commented out.  In
    ZIP_MUL(t, a, b); ZIP_ADD(out, t, a); FREE(t) the operand [t]
    (handle 2) is written once and read once in the range 0..1 and is in
    temp(); the call of fuse_mode succeeds, and its trace holds both the
    allocation and the FREE of the base of [t]. *)
Theorem scalar_replaced_fails :
  ~ scalar_replaced block_symbol fused_kernel_source compatible_operands
      operand_count OPERATION_bit ARRAY_OPS_mask working_toolchain
      temp_fusion_table 34 temp_fusion_block (fresh_engine true).
Proof.
  intros H.
  destruct (run_fuse working_toolchain temp_fusion_table 34
              temp_fusion_block (fresh_engine true))
    as [[r e']|] eqn:Hrun; [|vm_compute in Hrun; discriminate].
  assert (Hr : r = BH_SUCCESS /\ In (EvMalloc 2 BH_SUCCESS) (trace e')).
  { vm_compute in Hrun. inversion Hrun; subst. simpl. auto 10. }
  destruct Hr as [-> Hin].
  destruct (H (triplet 0 1 CONTIGUOUS) 2%nat e' BH_SUCCESS) as [Hm _].
  - vm_compute. auto.
  - vm_compute; reflexivity.
  - exact Hrun.
  - apply Hm. exact Hin.
Qed.

Definition temp_fusion_engine : Engine :=
  engine_after [(working_toolchain,
                 FuseMode temp_fusion_table 34 temp_fusion_block)]
    (fresh_engine true).

Lemma scalar_candidate_keeps_buffer_witness :
  exists t, trace temp_fusion_engine = trace (fresh_engine true) ++ t
    /\ In (EvMalloc 2 BH_SUCCESS) t /\ In (EvFree 2 BH_SUCCESS) t.
Proof.
  destruct (scalar_candidate_keeps_buffer block_symbol fused_kernel_source
              compatible_operands operand_count OPERATION_bit ARRAY_OPS_mask
              working_toolchain temp_fusion_table 34 temp_fusion_block
              (fresh_engine true) temp_fusion_engine
              (triplet 0 1 CONTIGUOUS) 2%nat)
    as (t & Ht & Hm & Hf).
  - vm_compute. auto.
  - vm_compute; reflexivity.
  - vm_compute; reflexivity.
  - exists t. split; [exact Ht|]. split.
    + apply (Hm (mk_tac ZIP (PRIMITIVE 2) 2 0 1)).
      * simpl. auto.
      * reflexivity.
      * vm_compute; reflexivity.
    + apply (Hf (mk_tac SYSTEM FREE 2 0 0)).
      * simpl. auto.
      * reflexivity.
      * reflexivity.
Defined.

Lemma working_toolchain_healthy : healthy working_toolchain.
Proof. split; intros; reflexivity. Qed.

(** Two submissions of the temp-fusion block, then a third together with
    a single MAP. *)
Definition first_calls : list (oracle * invocation) :=
  [(working_toolchain, FuseMode temp_fusion_table 34 temp_fusion_block);
   (working_toolchain, FuseMode temp_fusion_table 34 temp_fusion_block)].

Definition later_calls : list (oracle * invocation) :=
  [(working_toolchain, FuseMode temp_fusion_table 34 temp_fusion_block);
   (working_toolchain,
    SijMode temp_fusion_table [mk_tac MAP (PRIMITIVE 3) 3 0 0])].

Lemma compile_at_most_once_witness :
  let e1 := engine_after first_calls (fresh_engine true) in
  let e2 := engine_after later_calls e1 in
  In (EvLoad "ZIP_ZIP_SYSTEM" true) (trace e1)
  /\ compiles "ZIP_ZIP_SYSTEM" (trace e1) = 1%nat
  /\ compiles "ZIP_ZIP_SYSTEM" (trace e2) = compiles "ZIP_ZIP_SYSTEM" (trace e1)
  /\ (compiles "MAP" (trace e2) <= 1)%nat.
Proof.
  intros e1 e2.
  assert (H1 : run_lifetime first_calls (new_engine (jit_config true) ∅ ∅)
               = Some e1) by (vm_compute; reflexivity).
  assert (H2 : run_lifetime later_calls e1 = Some e2)
    by (vm_compute; reflexivity).
  assert (Hload : In (EvLoad "ZIP_ZIP_SYSTEM" true) (trace e1))
    by (vm_compute; auto 10).
  assert (Hh : forall o i, In (o, i) (first_calls ++ later_calls) ->
                           healthy o).
  { intros o i Hin. simpl in Hin.
    destruct Hin as [Hin|[Hin|[Hin|[Hin|[]]]]]; inversion Hin; subst;
      apply working_toolchain_healthy. }
  split; [exact Hload|]. split; [vm_compute; reflexivity|].
  split.
  - destruct (compile_at_most_once block_symbol kernel_source
                fused_kernel_source compatible_operands operand_count
                OPERATION_bit ARRAY_OPS_mask first_calls later_calls
                (jit_config true) ∅ ∅ e1 e2 "ZIP_ZIP_SYSTEM" H1 H2)
      as [Ha _].
    apply Ha. right. exact Hload.
  - destruct (compile_at_most_once block_symbol kernel_source
                fused_kernel_source compatible_operands operand_count
                OPERATION_bit ARRAY_OPS_mask first_calls later_calls
                (jit_config true) ∅ ∅ e1 e2 "MAP" H1 H2)
      as [_ Hb].
    apply Hb. exact Hh.
Defined.

(** A toolchain whose compiler works and whose loader fails. *)
Definition failing_loader : oracle :=
  {| compile_ok := fun _ _ => true; load_ok := fun _ => false;
     alloc_ok := fun _ => true; free_status := fun _ => BH_SUCCESS;
     extmethod_status := fun _ _ => BH_SUCCESS |}.

(** The same MAP submitted twice: the first time the object is compiled
    and cannot be loaded, the second time the toolchain works. *)
Definition reload_calls : list (oracle * invocation) :=
  [(failing_loader,
    SijMode temp_fusion_table [mk_tac MAP (PRIMITIVE 3) 3 0 0]);
   (working_toolchain,
    SijMode temp_fusion_table [mk_tac MAP (PRIMITIVE 3) 3 0 0])].

(** C3 fails as stated.  The compiler is called, the object is recorded
    with add_symbol, and the load fails: the symbol is not ready, so the
    next invocation with the same fingerprint calls the compiler a second
    time. *)
Lemma compile_twice_after_failed_load :
  exists e,
    run_lifetime reload_calls (fresh_engine false) = Some e
    /\ trace e
       = [EvCompile "MAP" "kernel MAP" true; EvAddSymbol "MAP";
          EvLoad "MAP" false;
          EvCompile "MAP" "kernel MAP" true; EvAddSymbol "MAP";
          EvLoad "MAP" true; EvMalloc 3 BH_SUCCESS; EvLaunch "MAP"]
    /\ compiles "MAP" (trace e) = 2%nat.
Proof.
  eexists. split; [vm_compute; reflexivity|].
  split; vm_compute; reflexivity.
Qed.

Lemma compile_failure_not_stored_witness :
  (exists e',
     run_sij failing_compiler temp_fusion_table
       [mk_tac MAP (PRIMITIVE 3) 3 0 0] (fresh_engine false)
     = Some (BH_ERROR, e')
     /\ trace e' = [EvCompile "MAP" "kernel MAP" false]
     /\ storage e' = storage (fresh_engine false)
     /\ exists r e2 t,
          run_sij working_toolchain temp_fusion_table
            [mk_tac MAP (PRIMITIVE 3) 3 0 0] e' = Some (r, e2)
          /\ trace e2 = trace e' ++ t
          /\ In (EvCompile "MAP" "kernel MAP" true) t)
  /\ (exists e',
        run_fuse failing_compiler temp_fusion_table 1
          [mk_tac MAP (PRIMITIVE 3) 3 0 0] (fresh_engine false)
        = Some (BH_ERROR, e')
        /\ trace e' = [EvCompile "MAP" "fused kernel MAP" false]
        /\ storage e' = storage (fresh_engine false)
        /\ exists r e2 t,
             run_fuse working_toolchain temp_fusion_table 1
               [mk_tac MAP (PRIMITIVE 3) 3 0 0] e' = Some (r, e2)
             /\ trace e2 = trace e' ++ t
             /\ In (EvCompile "MAP" "fused kernel MAP" true) t).
Proof.
  destruct (compile_failure_not_stored block_symbol kernel_source
              fused_kernel_source compatible_operands operand_count
              OPERATION_bit ARRAY_OPS_mask failing_compiler
              temp_fusion_table [mk_tac MAP (PRIMITIVE 3) 3 0 0]
              (fresh_engine false) "MAP" eq_refl eq_refl)
    as [Hsij Hfuse].
  split.
  - destruct (Hsij eq_refl eq_refl eq_refl) as (e' & Hrun & Ht & Hst & Hlater).
    exists e'. split; [exact Hrun|]. split; [exact Ht|].
    split; [exact Hst|].
    exact (Hlater working_toolchain temp_fusion_table
             [mk_tac MAP (PRIMITIVE 3) 3 0 0] eq_refl eq_refl).
  - destruct (Hfuse 1 eq_refl eq_refl eq_refl)
      as (e' & Hrun & Ht & Hst & Hlater).
    exists e'. split; [exact Hrun|]. split; [exact Ht|].
    split; [exact Hst|].
    exact (Hlater working_toolchain temp_fusion_table 1
             [mk_tac MAP (PRIMITIVE 3) 3 0 0] eq_refl eq_refl).
Defined.

(** ** The further properties on concrete blocks *)

Lemma fuse_ranges_within_block_witness :
  In (triplet 0 1 CONTIGUOUS)
    (fuse_ranges compatible_operands operand_count temp_fusion_table
       temp_fusion_block)
  /\ (0 <= 1)%nat /\ (1 < length temp_fusion_block)%nat.
Proof.
  assert (Hin : In (triplet 0 1 CONTIGUOUS)
                  (fuse_ranges compatible_operands operand_count
                     temp_fusion_table temp_fusion_block))
    by (vm_compute; auto).
  split; [exact Hin|].
  exact (fuse_ranges_within_block compatible_operands operand_count
           temp_fusion_table temp_fusion_block (triplet 0 1 CONTIGUOUS) Hin).
Defined.

Lemma fuse_ranges_cover_block_witness :
  exists r,
    In r (fuse_ranges compatible_operands operand_count temp_fusion_table
            temp_fusion_block)
    /\ (r_begin r <= 2)%nat /\ (2 <= r_end r)%nat.
Proof.
  apply (fuse_ranges_cover_block compatible_operands operand_count
           temp_fusion_table temp_fusion_block 2).
  simpl. lia.
Defined.

(** A block of one FREE, handed to fuse_mode under a mask without array
    operations on an engine that holds no launcher. *)
Lemma fuse_mode_needs_array_mask_witness :
  run_fuse working_toolchain temp_fusion_table (OPERATION_bit SYSTEM)
    [mk_tac SYSTEM FREE 2 0 0] (fresh_engine true) = None.
Proof.
  apply (fuse_mode_needs_array_mask block_symbol fused_kernel_source
           compatible_operands operand_count OPERATION_bit ARRAY_OPS_mask
           working_toolchain temp_fusion_table (OPERATION_bit SYSTEM)
           [mk_tac SYSTEM FREE 2 0 0] (fresh_engine true) "SYSTEM").
  - reflexivity.
  - intros tac [<-|[]]. reflexivity.
  - reflexivity.
  - reflexivity.
Defined.

Definition no_jit_config : Config :=
  {| jit_enabled := false; jit_fusion := true; jit_dumpsrc := true;
     dump_rep := false |}.

Lemma no_jit_no_compile_witness :
  let e' := engine_after later_calls (new_engine no_jit_config ∅ ∅) in
  In (EvLoad "ZIP_ZIP_SYSTEM" true) (trace e')
  /\ compiles "ZIP_ZIP_SYSTEM" (trace e') = 0%nat.
Proof.
  intros e'. split; [vm_compute; auto|].
  apply (no_jit_no_compile block_symbol kernel_source fused_kernel_source
           compatible_operands operand_count OPERATION_bit ARRAY_OPS_mask
           later_calls no_jit_config ∅ ∅ e' "ZIP_ZIP_SYSTEM").
  - reflexivity.
  - vm_compute. reflexivity.
Defined.

(** The component knows bh_random as method 1. *)
Definition random_component (name : string) : bh_error * nat :=
  if String.eqb name "bh_random" then (BH_SUCCESS, 1%nat)
  else (BH_USERFUNC_NOT_SUPPORTED, 0%nat).

Lemma register_then_dispatch_witness :
  exists e1,
    register_extension random_component "bh_random" 77 (fresh_engine false)
      = (BH_SUCCESS, e1)
    /\ run_sij working_toolchain temp_fusion_table
         (compose extension_batch [0%nat]) e1
       = Some (BH_SUCCESS, log (EvExtmethod 77 BH_SUCCESS) e1).
Proof.
  destruct (register_then_dispatch block_symbol kernel_source
              random_component "bh_random" 77 1%nat working_toolchain
              temp_fusion_table (compose extension_batch [0%nat])
              (fresh_engine false) eq_refl eq_refl eq_refl)
    as (e1 & Hreg & _ & _ & Hrun).
  exists e1. split; [exact Hreg|]. exact Hrun.
Defined.

Lemma fuse_mode_launch_after_allocation_witness :
  In (EvLaunch "ZIP_ZIP_SYSTEM") (trace temp_fusion_engine)
  /\ In (EvMalloc 3 BH_SUCCESS) (trace temp_fusion_engine)
  /\ forall b res, In (EvMalloc b res) (trace temp_fusion_engine) ->
                   res = BH_SUCCESS.
Proof.
  assert (Hl : In (EvLaunch "ZIP_ZIP_SYSTEM") (trace temp_fusion_engine))
    by (vm_compute; auto 10).
  destruct (fuse_mode_launch_after_allocation block_symbol
              fused_kernel_source compatible_operands operand_count
              OPERATION_bit ARRAY_OPS_mask working_toolchain
              temp_fusion_table 34 temp_fusion_block (fresh_engine true)
              temp_fusion_engine BH_SUCCESS (trace temp_fusion_engine)
              "ZIP_ZIP_SYSTEM")
    as [Hm Hok].
  - vm_compute. reflexivity.
  - reflexivity.
  - exact Hl.
  - split; [exact Hl|]. split; [|exact Hok].
    apply (Hm (mk_tac ZIP (PRIMITIVE 1) 3 2 0)).
    + simpl. auto.
    + vm_compute. reflexivity.
Defined.

End Cpu.

(* ===================================================================== *)
(** * ve/uni/main.cpp: the block fuser *)
(* ===================================================================== *)
Module Uni.

(** bh_view: a view of a base array (bases are named by numbers). *)
Record bh_view : Type := {
  base : nat;
  start : Z;
  shape : list Z;
  stride : list Z
}.

Definition null_view : bh_view :=
  {| base := 0%nat; start := 0; shape := []; stride := [] |}.

(** bh_instruction, as far as the fuser reads it: the opcode and the
    operand array. *)
Record bh_instruction : Type := {
  opcode : Z;
  operand : list bh_view
}.

(** instr->operand[i] *)
Definition operand_at (instr : bh_instruction) (i : nat) : bh_view :=
  nth i (operand instr) null_view.

(** The members of class Block (block.hpp) that main.cpp reads and
    writes. [_instr] is [None] for a NULL pointer. *)
#[local] Unset Elimination Schemes.
Inductive Block : Type := mkBlock {
  _block_list : list Block;
  _instr : option bh_instruction;
  rank : Z;
  size : Z;
  _sweeps : list bh_instruction;
  _reshapable : bool
}.
#[local] Set Elimination Schemes.

(** cur._block_list = ... *)
Definition set_block_list (b : Block) (l : list Block) : Block :=
  {| _block_list := l; _instr := _instr b; rank := rank b; size := size b;
     _sweeps := _sweeps b; _reshapable := _reshapable b |}.

(** What one pass of the search loop does with the block under [it]. *)
Inductive step : Type :=
  | Stop              (* break: [it] is not merged into [cur] *)
  | Merged (b : Block)  (* cur = b; continue *)
  | Abort.            (* a failed assert, or a division by zero *)

Section Fuser.
(** Functions of the core library and of block.hpp that main.cpp uses
    but does not define. *)
Variable bh_opcode_is_system : Z -> bool.
Variable bh_noperands : Z -> nat.
Variable bh_view_disjoint : bh_view -> bh_view -> bool.
Variable bh_view_aligned : bh_view -> bh_view -> bool.
Variable isInstr : Block -> bool.
Variable getAllInstr : Block -> list bh_instruction.
Variable merge : Block -> Block -> Block.
(** The set [news] is only handed on to create_nested_block. *)
Variable news_t : Type.
Variable create_nested_block :
  list bh_instruction -> Z -> Z -> news_t -> Block.

(** One pass of a loop of [data_parallel_compatible]: the output [o] of
    one instruction against operand [i] of the other; [false] is the
    "return false". *)
Definition operand_ok (o : bh_view) (other : bh_instruction) (i : nat)
    : bool :=
  negb (negb (bh_view_disjoint o (operand_at other i))
        && negb (bh_view_aligned o (operand_at other i))).

(** static bool data_parallel_compatible(const bh_instruction *a,
                                         const bh_instruction *b) *)
Definition data_parallel_compatible (a b : bh_instruction) : bool :=
  if bh_opcode_is_system (opcode a) || bh_opcode_is_system (opcode b)
  then true
  else
    let a_nop := bh_noperands (opcode a) in
    if negb (forallb (operand_ok (operand_at b 0) a) (seq 0 a_nop))
    then false
    else
      let b_nop := bh_noperands (opcode b) in
      forallb (operand_ok (operand_at a 0) b) (seq 0 b_nop).

(** static bool data_parallel_compatible(const Block &b1, const Block &b2) *)
Definition data_parallel_compatible_blocks (b1 b2 : Block) : bool :=
  forallb (fun i1 =>
      forallb (fun i2 => data_parallel_compatible i1 i2) (getAllInstr b2))
    (getAllInstr b1).

(** a % b == 0 on int64_t; there is no result when [b] is 0. *)
Definition divides_evenly (a b : Z) : option bool :=
  if b =? 0 then None else Some (Z.rem a b =? 0).

(** Re-nesting the instructions of both blocks at [rank] and [size],
    followed by assert(b.size == size). *)
Definition renest (news : news_t) (cur it : Block) (rnk sz : Z) : step :=
  let cur_instr := getAllInstr cur ++ getAllInstr it in
  let b := create_nested_block cur_instr rnk sz news in
  if size b =? sz then Merged b else Abort.

(** The body of the loop "Let's search for fusible blocks" for the block
    under [it]. *)
Definition try_merge (news : news_t) (cur it : Block) : step :=
  if isInstr it then Stop
  else if negb (data_parallel_compatible_blocks cur it) then Stop
  else if (0 <? length (_sweeps cur))%nat then Stop
  else if negb (rank cur =? rank it) then Abort
  else if size cur =? size it then Merged (merge cur it)
  else
    match (if _reshapable it then divides_evenly (size it) (size cur)
           else Some false) with
    | None => Abort
    | Some true => renest news cur it (rank it) (size cur)
    | Some false =>
        match (if _reshapable cur then divides_evenly (size cur) (size it)
               else Some false) with
        | None => Abort
        | Some true => renest news cur it (rank cur) (size it)
        | Some false => Stop
        end
    end.

(** A merge the fuser performed: [cur], the block merged into it, and
    the block that replaced [cur]. *)
Definition merge_event : Type := (Block * Block * Block)%type.

(** The search loop: [cur] takes in the blocks that follow it until one
    stops the search.  The result is the final [cur], the blocks left,
    and the merges performed. *)
Fixpoint absorb (news : news_t) (cur : Block) (its : list Block)
    : option (Block * list Block * list merge_event) :=
  match its with
  | [] => Some (cur, [], [])
  | it :: rest =>
      match try_merge news cur it with
      | Stop => Some (cur, its, [])
      | Abort => None
      | Merged b =>
          match absorb news b rest with
          | None => None
          | Some (cur', remaining, evs) =>
              Some (cur', remaining, (cur, it, b) :: evs)
          end
      end
  end.

(** vector<Block> fuser_serial(vector<Block> &block_list, news).  The
    function calls itself on the block list of a block it has just built,
    so the recursion is bounded by [fuel]; there is no result when the
    fuel runs out or a step aborts.  Next to the fused list, the merges
    performed are returned. *)
Fixpoint fuser_serial (fuel : nat) (news : news_t) (block_list : list Block)
    : option (list Block * list merge_event) :=
  match fuel with
  | O => None
  | S fuel' =>
      match block_list with
      | [] => Some ([], [])
      | b :: rest =>
          if isInstr b then
            match fuser_serial fuel' news rest with
            | None => None
            | Some (ret, evs) => Some (b :: ret, evs)
            end
          else
            match absorb news b rest with
            | None => None
            | Some (cur, remaining, evs1) =>
                match fuser_serial fuel' news (_block_list cur) with
                | None => None
                | Some (inner, evs2) =>
                    match fuser_serial fuel' news remaining with
                    | None => None
                    | Some (ret, evs3) =>
                        Some (set_block_list cur inner :: ret,
                              evs1 ++ evs2 ++ evs3)
                    end
                end
            end
      end
  end.

(** ** Data-parallel legality of the merges *)

(** The output of each of two instructions is disjoint from or aligned
    with every operand of the other. *)
Definition operands_respected (a b : bh_instruction) : Prop :=
  (forall i, (i < bh_noperands (opcode a))%nat ->
     bh_view_disjoint (operand_at b 0) (operand_at a i) = true
     \/ bh_view_aligned (operand_at b 0) (operand_at a i) = true)
  /\ (forall i, (i < bh_noperands (opcode b))%nat ->
        bh_view_disjoint (operand_at a 0) (operand_at b i) = true
        \/ bh_view_aligned (operand_at a 0) (operand_at b i) = true).

Lemma operand_ok_spec (o : bh_view) (other : bh_instruction) (i : nat) :
  operand_ok o other i = true <->
  bh_view_disjoint o (operand_at other i) = true
  \/ bh_view_aligned o (operand_at other i) = true.
Proof.
  unfold operand_ok.
  destruct (bh_view_disjoint _ _), (bh_view_aligned _ _); simpl;
    intuition discriminate.
Qed.

Lemma forallb_seq_spec (f : nat -> bool) (n : nat) :
  forallb f (seq 0 n) = true <-> forall i, (i < n)%nat -> f i = true.
Proof.
  rewrite forallb_forall. split.
  - intros H i Hi. apply H. apply in_seq. lia.
  - intros H i Hi. apply in_seq in Hi. apply H. lia.
Qed.

(** For two instructions that are not system instructions, the check
    decides [operands_respected]. *)
Lemma data_parallel_compatible_spec (a b : bh_instruction) :
  bh_opcode_is_system (opcode a) = false ->
  bh_opcode_is_system (opcode b) = false ->
  data_parallel_compatible a b = true <-> operands_respected a b.
Proof.
  intros Ha Hb. unfold data_parallel_compatible, operands_respected.
  rewrite Ha, Hb. simpl.
  destruct (forallb (operand_ok (operand_at b 0) a) _) eqn:H1; simpl.
  - rewrite forallb_seq_spec in H1. rewrite forallb_seq_spec. split.
    + intros H2. split; intros i Hi; apply operand_ok_spec; auto.
    + intros [_ H2] i Hi. apply operand_ok_spec; auto.
  - split; [discriminate|]. intros [H2 _].
    assert (forallb (operand_ok (operand_at b 0) a)
              (seq 0 (bh_noperands (opcode a))) = true) as H3.
    { apply forallb_seq_spec. intros i Hi. apply operand_ok_spec; auto. }
    congruence.
Qed.

Lemma try_merge_compatible (news : news_t) (cur it b : Block) :
  try_merge news cur it = Merged b ->
  isInstr it = false
  /\ data_parallel_compatible_blocks cur it = true
  /\ _sweeps cur = [].
Proof.
  unfold try_merge. destruct (isInstr it); [discriminate|].
  destruct (data_parallel_compatible_blocks cur it); [|discriminate].
  destruct (_sweeps cur); [auto|discriminate].
Qed.

Lemma absorb_events (news : news_t) (its : list Block) (cur cur' : Block)
    (remaining : list Block) (evs : list merge_event) :
  absorb news cur its = Some (cur', remaining, evs) ->
  forall c i b, In (c, i, b) evs -> try_merge news c i = Merged b.
Proof.
  revert cur evs. induction its as [|it rest IH]; intros cur evs H; simpl in H.
  - inversion H; subst. intros c i b [].
  - destruct (try_merge news cur it) as [|m|] eqn:Hm; try discriminate.
    + inversion H; subst. intros c i b [].
    + destruct (absorb news m rest) as [[[c' l] ev]|] eqn:Ha; [|discriminate].
      inversion H; subst. intros c i b [Heq|Hin].
      * inversion Heq; subst. exact Hm.
      * exact (IH _ _ Ha c i b Hin).
Qed.

Lemma fuser_serial_events (fuel : nat) (news : news_t)
    (block_list ret : list Block) (evs : list merge_event) :
  fuser_serial fuel news block_list = Some (ret, evs) ->
  forall c i b, In (c, i, b) evs -> try_merge news c i = Merged b.
Proof.
  revert block_list ret evs.
  induction fuel as [|fuel IH]; intros block_list ret evs H; simpl in H;
    [discriminate|].
  destruct block_list as [|b0 rest].
  - inversion H; subst. intros c i b [].
  - destruct (isInstr b0).
    + destruct (fuser_serial fuel news rest) as [[r e]|] eqn:Hr;
        [|discriminate].
      inversion H; subst. exact (IH _ _ _ Hr).
    + destruct (absorb news b0 rest) as [[[cur remaining] evs1]|] eqn:Ha;
        [|discriminate].
      destruct (fuser_serial fuel news (_block_list cur)) as [[inner evs2]|]
        eqn:Hi; [|discriminate].
      destruct (fuser_serial fuel news remaining) as [[r evs3]|] eqn:Hr;
        [|discriminate].
      inversion H; subst. intros c i b Hin.
      apply in_app_or in Hin as [Hin|Hin];
        [exact (absorb_events _ _ _ _ _ _ Ha c i b Hin)|].
      apply in_app_or in Hin as [Hin|Hin];
        [exact (IH _ _ _ Hi c i b Hin)|exact (IH _ _ _ Hr c i b Hin)].
Qed.

(** C5. Whenever fuser_serial merges a block [it] into a block [cur],
    every pair of non-system instructions, one of [cur] and one of
    [it], is such that the output operand of each is disjoint from or
    aligned with every operand of the other. *)
Theorem fuser_merges_only_compatible (fuel : nat) (news : news_t)
    (block_list ret : list Block) (evs : list merge_event)
    (cur it merged : Block) (a b : bh_instruction) :
  fuser_serial fuel news block_list = Some (ret, evs) ->
  In (cur, it, merged) evs ->
  In a (getAllInstr cur) -> In b (getAllInstr it) ->
  bh_opcode_is_system (opcode a) = false ->
  bh_opcode_is_system (opcode b) = false ->
  operands_respected a b.
Proof.
  intros Hrun Hev Ha Hb Hsa Hsb.
  pose proof (fuser_serial_events _ _ _ _ _ Hrun _ _ _ Hev) as Hm.
  apply try_merge_compatible in Hm as (_ & Hc & _).
  unfold data_parallel_compatible_blocks in Hc.
  rewrite forallb_forall in Hc. specialize (Hc a Ha).
  rewrite forallb_forall in Hc. specialize (Hc b Hb).
  apply data_parallel_compatible_spec; assumption.
Qed.

(** ** When two blocks are merged *)








(** ** Further properties of the fuser *)

(** The check does not depend on the order of its arguments: both calls
    compare the output of each instruction with the operands of the
    other. *)
Lemma data_parallel_compatible_sym (a b : bh_instruction) :
  data_parallel_compatible a b = data_parallel_compatible b a.
Proof.
  unfold data_parallel_compatible.
  rewrite (orb_comm (bh_opcode_is_system (opcode a))).
  destruct (bh_opcode_is_system (opcode b) || bh_opcode_is_system (opcode a));
    [reflexivity|].
  destruct (forallb (operand_ok (operand_at b 0) a) _),
           (forallb (operand_ok (operand_at a 0) b) _); reflexivity.
Qed.

Lemma data_parallel_compatible_blocks_spec (b1 b2 : Block) :
  data_parallel_compatible_blocks b1 b2 = true <->
  forall i1 i2, In i1 (getAllInstr b1) -> In i2 (getAllInstr b2) ->
                data_parallel_compatible i1 i2 = true.
Proof.
  unfold data_parallel_compatible_blocks. rewrite forallb_forall. split.
  - intros H i1 i2 H1 H2. specialize (H i1 H1).
    rewrite forallb_forall in H. auto.
  - intros H i1 H1. apply forallb_forall. intros i2 H2. auto.
Qed.

(** X14. Two blocks are compatible in one order exactly when they are in the
    other. *)
Theorem data_parallel_compatible_blocks_sym (b1 b2 : Block) :
  data_parallel_compatible_blocks b1 b2
  = data_parallel_compatible_blocks b2 b1.
Proof.
  apply eq_true_iff_eq. rewrite !data_parallel_compatible_blocks_spec.
  split; intros H i1 i2 H1 H2;
    rewrite data_parallel_compatible_sym; auto.
Qed.

Lemma absorb_length (news : news_t) (its : list Block) (cur cur' : Block)
    (remaining : list Block) (evs : list merge_event) :
  absorb news cur its = Some (cur', remaining, evs) ->
  (length remaining + length evs = length its)%nat.
Proof.
  revert cur evs. induction its as [|it rest IH]; intros cur evs H; simpl in H.
  - inversion H; subst. reflexivity.
  - destruct (try_merge news cur it) as [|m|]; try discriminate.
    + inversion H; subst. simpl. lia.
    + destruct (absorb news m rest) as [[[c' l] ev]|] eqn:Ha; [|discriminate].
      inversion H; subst. apply IH in Ha. simpl. lia.
Qed.

(** X15. The fuser only merges: it never returns more blocks than it was
    given. *)
Theorem fuser_serial_length (fuel : nat) (news : news_t)
    (block_list ret : list Block) (evs : list merge_event) :
  fuser_serial fuel news block_list = Some (ret, evs) ->
  (length ret <= length block_list)%nat.
Proof.
  revert block_list ret evs.
  induction fuel as [|fuel IH]; intros block_list ret evs H; simpl in H;
    [discriminate|].
  destruct block_list as [|b0 rest].
  - inversion H; subst. simpl. lia.
  - destruct (isInstr b0).
    + destruct (fuser_serial fuel news rest) as [[r e]|] eqn:Hr;
        [|discriminate].
      inversion H; subst. apply IH in Hr. simpl. lia.
    + destruct (absorb news b0 rest) as [[[cur remaining] evs1]|] eqn:Ha;
        [|discriminate].
      destruct (fuser_serial fuel news (_block_list cur)) as [[inner evs2]|];
        [|discriminate].
      destruct (fuser_serial fuel news remaining) as [[r evs3]|] eqn:Hr;
        [|discriminate].
      inversion H; subst. apply IH in Hr. apply absorb_length in Ha.
      simpl. lia.
Qed.

(** X16. What the fuser never does: it never merges an instruction block into
    the block in front of it, and it never merges anything into a block
    that has sweeps. *)
Theorem fuser_keeps_instr_and_sweep_blocks (fuel : nat) (news : news_t)
    (block_list ret : list Block) (evs : list merge_event)
    (cur it merged : Block) :
  fuser_serial fuel news block_list = Some (ret, evs) ->
  In (cur, it, merged) evs ->
  isInstr it = false /\ _sweeps cur = [].
Proof.
  intros Hrun Hev.
  pose proof (fuser_serial_events _ _ _ _ _ Hrun _ _ _ Hev) as Hm.
  apply try_merge_compatible in Hm as (Hi & _ & Hs). auto.
Qed.

(** X17. A list of instruction blocks passes the fuser unchanged, with no
    merge performed. *)
Theorem fuser_serial_instr_blocks (fuel : nat) (news : news_t)
    (block_list : list Block) :
  (length block_list < fuel)%nat ->
  (forall b, In b block_list -> isInstr b = true) ->
  fuser_serial fuel news block_list = Some (block_list, []).
Proof.
  revert block_list. induction fuel as [|fuel IH]; intros block_list Hf Hall;
    [lia|].
  destruct block_list as [|b rest]; simpl; [reflexivity|].
  rewrite (Hall b) by (left; reflexivity).
  rewrite IH; [reflexivity|simpl in Hf; lia|].
  intros b' Hb'. apply Hall. right. exact Hb'.
Qed.

End Fuser.

(** ** Impl::update_allocated_bases *)

Section AllocatedBases.
(** From the core library: the operand count of an opcode, whether a
    view is a constant, and the opcode BH_FREE.  A constant is a view
    without a base: its base pointer is NULL, which is never a member of
    the set of allocated bases. *)
Variable bh_noperands : Z -> nat.
Variable bh_is_constant : bh_view -> bool.
Variable BH_FREE : Z.

(** The state of the walk: [_allocated_bases], and [ret], the
    instructions (by their position in the list) found to create a new
    array. *)
Definition bases_state : Type := (gset nat * gset nat)%type.

(** The body of the loop over the operands, for operand [o] of the
    instruction at position [idx]. *)
Definition note_operand (idx : nat) (instr : bh_instruction)
    (acc : bases_state) (o : nat) : bases_state :=
  let v := operand_at instr o in
  if bh_is_constant v then acc
  else
    let inserted := bool_decide (base v ∉ acc.1) in
    ({[base v]} ∪ acc.1,
     if inserted && Nat.eqb o 0 then {[idx]} ∪ acc.2 else acc.2).

(** The body of the loop over the instructions; [None] is the
    runtime_error "freeing unknown base array". *)
Definition note_instr (idx : nat) (instr : bh_instruction)
    (acc : bases_state) : option bases_state :=
  let nop := bh_noperands (opcode instr) in
  let acc1 := fold_left (note_operand idx instr) (seq 0 nop) acc in
  if opcode instr =? BH_FREE then
    let v := operand_at instr 0 in
    if negb (bh_is_constant v) && bool_decide (base v ∈ acc1.1)
    then Some (acc1.1 ∖ {[base v]}, acc1.2)
    else None
  else Some acc1.

Fixpoint update_from (idx : nat) (instrs : list bh_instruction)
    (acc : bases_state) : option bases_state :=
  match instrs with
  | [] => Some acc
  | instr :: rest =>
      match note_instr idx instr acc with
      | None => None
      | Some acc1 => update_from (S idx) rest acc1
      end
  end.

(** set<bh_instruction*> Impl::update_allocated_bases(bh_ir *bhir): the
    new [_allocated_bases] and the returned set. *)
Definition update_allocated_bases (allocated : gset nat)
    (instr_list : list bh_instruction) : option bases_state :=
  update_from 0 instr_list (allocated, ∅).

(** An instruction mentions base [b] when one of its operands (within
    its operand count) is a view of [b]. *)
Definition mentions (b : nat) (instr : bh_instruction) : Prop :=
  exists o, (o < bh_noperands (opcode instr))%nat
            /\ bh_is_constant (operand_at instr o) = false
            /\ base (operand_at instr o) = b.

Lemma note_operands_allocated (idx : nat) (instr : bh_instruction)
    (os : list nat) (acc : bases_state) (b : nat) :
  b ∈ (fold_left (note_operand idx instr) os acc).1 <->
  b ∈ acc.1
  \/ exists o, In o os /\ bh_is_constant (operand_at instr o) = false
               /\ base (operand_at instr o) = b.
Proof.
  revert acc. induction os as [|o os IH]; intros acc; simpl.
  - split; [auto|]. intros [H|(o & [] & _)]. exact H.
  - rewrite IH. unfold note_operand.
    destruct (bh_is_constant (operand_at instr o)) eqn:Hc; simpl.
    + split.
      * intros [H|(o' & Hin & H)]; [auto|right; exists o'; auto].
      * intros [H|(o' & [<-|Hin] & Hc' & H)];
          [auto|congruence|right; exists o'; auto].
    + rewrite elem_of_union, elem_of_singleton. split.
      * intros [[->|H]|(o' & Hin & H)];
          [right; exists o; auto|auto|right; exists o'; auto].
      * intros [H|(o' & [<-|Hin] & Hc' & H)];
          [auto|auto|right; exists o'; auto].
Qed.

(** With the first operand of a BH_FREE a view, the instruction is its
    own licence: the walk over its operands enters the base into the set
    before the erase looks for it. *)
Lemma note_instr_free_view (idx : nat) (instr : bh_instruction)
    (acc : bases_state) :
  opcode instr = BH_FREE -> (1 <= bh_noperands BH_FREE)%nat ->
  bh_is_constant (operand_at instr 0) = false ->
  exists acc1, note_instr idx instr acc = Some acc1
               /\ base (operand_at instr 0) ∉ acc1.1.
Proof.
  intros Hop Hn Hc. unfold note_instr. rewrite Hop, Z.eqb_refl, Hc. simpl.
  rewrite bool_decide_eq_true_2.
  - eexists. split; [reflexivity|]. simpl.
    rewrite elem_of_difference, elem_of_singleton. intros [_ H]. auto.
  - apply note_operands_allocated. right. exists 0%nat.
    split; [apply in_seq; lia|auto].
Qed.

Lemma update_from_accepts (instrs : list bh_instruction) (idx : nat)
    (acc : bases_state) :
  (1 <= bh_noperands BH_FREE)%nat ->
  (forall instr, In instr instrs -> opcode instr = BH_FREE ->
     bh_is_constant (operand_at instr 0) = false) ->
  exists r, update_from idx instrs acc = Some r.
Proof.
  intros Hn. revert idx acc.
  induction instrs as [|instr rest IH]; intros idx acc Hall; simpl;
    [eauto|].
  assert (Hstep : exists acc1, note_instr idx instr acc = Some acc1).
  { destruct (Z.eqb_spec (opcode instr) BH_FREE) as [Hop|Hop].
    - destruct (note_instr_free_view idx instr acc Hop Hn) as (a & Ha & _);
        [apply Hall; [left; reflexivity|exact Hop]|eauto].
    - unfold note_instr. apply Z.eqb_neq in Hop. rewrite Hop. eauto. }
  destruct Hstep as [acc1 ->]. apply IH.
  intros i Hi. apply Hall. right. exact Hi.
Qed.

(** X18. The error "freeing unknown base array" cannot be reached by a
    BH_FREE of a view: a batch in which no BH_FREE has a constant as its
    operand is accepted whatever bases were allocated before, also when
    it frees a base that never was. *)
Theorem update_accepts_view_frees (allocated : gset nat)
    (instr_list : list bh_instruction) :
  (1 <= bh_noperands BH_FREE)%nat ->
  (forall instr, In instr instr_list -> opcode instr = BH_FREE ->
     bh_is_constant (operand_at instr 0) = false) ->
  exists r, update_allocated_bases allocated instr_list = Some r.
Proof. intros Hn Hall. apply update_from_accepts; assumption. Qed.

Lemma note_instr_keeps_absent (idx : nat) (instr : bh_instruction)
    (acc acc1 : bases_state) (b : nat) :
  note_instr idx instr acc = Some acc1 ->
  ~ mentions b instr -> b ∉ acc.1 -> b ∉ acc1.1.
Proof.
  unfold note_instr. intros H Hno Hb.
  assert (Hb1 : b ∉ (fold_left (note_operand idx instr)
                       (seq 0 (bh_noperands (opcode instr))) acc).1).
  { rewrite note_operands_allocated. intros [H1|(o & Hin & Hc & Hbase)].
    - auto.
    - apply Hno. exists o. apply in_seq in Hin. split; [lia|auto]. }
  destruct (opcode instr =? BH_FREE).
  - destruct (_ && _); inversion H; subst. simpl.
    rewrite elem_of_difference. intros [H1 _]. auto.
  - inversion H; subst. exact Hb1.
Qed.

Lemma update_from_keeps_absent (instrs : list bh_instruction) (idx : nat)
    (acc r : bases_state) (b : nat) :
  update_from idx instrs acc = Some r ->
  (forall instr, In instr instrs -> ~ mentions b instr) ->
  b ∉ acc.1 -> b ∉ r.1.
Proof.
  revert idx acc. induction instrs as [|instr rest IH]; intros idx acc H Hno Hb;
    simpl in H.
  - inversion H; subst. exact Hb.
  - destruct (note_instr idx instr acc) as [acc1|] eqn:Hi; [|discriminate].
    apply (IH (S idx) acc1 H).
    + intros i Hin. apply Hno. right. exact Hin.
    + eapply note_instr_keeps_absent; eauto. apply Hno. left. reflexivity.
Qed.

Lemma update_from_app (l1 l2 : list bh_instruction) (idx : nat)
    (acc : bases_state) :
  update_from idx (l1 ++ l2) acc
  = match update_from idx l1 acc with
    | Some acc1 => update_from (idx + length l1) l2 acc1
    | None => None
    end.
Proof.
  revert idx acc. induction l1 as [|i l1 IH]; intros idx acc; simpl.
  - rewrite Nat.add_0_r. reflexivity.
  - destruct (note_instr idx i acc); [|reflexivity].
    rewrite IH. replace (S idx + length l1)%nat with (idx + S (length l1))%nat
      by lia. reflexivity.
Qed.

(** X19. A base the batch frees and does not mention afterwards is not among
    the allocated bases when the walk is over. *)
Theorem freed_base_not_allocated (allocated : gset nat)
    (before after : list bh_instruction) (free : bh_instruction)
    (r : bases_state) :
  update_allocated_bases allocated (before ++ free :: after) = Some r ->
  opcode free = BH_FREE ->
  (forall instr, In instr after ->
     ~ mentions (base (operand_at free 0)) instr) ->
  base (operand_at free 0) ∉ r.1.
Proof.
  unfold update_allocated_bases. rewrite update_from_app. simpl.
  destruct (update_from 0 before (allocated, ∅)) as [acc0|]; [|discriminate].
  destruct (note_instr _ free acc0) as [acc1|] eqn:Hf; [|discriminate].
  intros Hrest Hop Hno.
  apply (update_from_keeps_absent after _ acc1 r _ Hrest Hno).
  unfold note_instr in Hf. rewrite Hop, Z.eqb_refl in Hf.
  destruct (_ && _); inversion Hf; subst. simpl.
  rewrite elem_of_difference, elem_of_singleton. intros [_ H]. auto.
Qed.

Lemma note_operands_ret_mono (idx : nat) (instr : bh_instruction)
    (os : list nat) (acc : bases_state) (i : nat) :
  i ∈ acc.2 -> i ∈ (fold_left (note_operand idx instr) os acc).2.
Proof.
  revert acc. induction os as [|o os IH]; intros acc H; simpl; [exact H|].
  apply IH. unfold note_operand.
  destruct (bh_is_constant _); simpl; [exact H|].
  destruct (_ && _); [apply elem_of_union; auto|exact H].
Qed.

Lemma note_instr_ret_mono (idx : nat) (instr : bh_instruction)
    (acc acc1 : bases_state) (i : nat) :
  note_instr idx instr acc = Some acc1 -> i ∈ acc.2 -> i ∈ acc1.2.
Proof.
  unfold note_instr. intros H Hi.
  pose proof (note_operands_ret_mono idx instr
                (seq 0 (bh_noperands (opcode instr))) acc i Hi) as Hm.
  destruct (opcode instr =? BH_FREE).
  - destruct (_ && _); inversion H; subst. exact Hm.
  - inversion H; subst. exact Hm.
Qed.

Lemma update_from_ret_mono (instrs : list bh_instruction) (idx : nat)
    (acc r : bases_state) (i : nat) :
  update_from idx instrs acc = Some r -> i ∈ acc.2 -> i ∈ r.2.
Proof.
  revert idx acc. induction instrs as [|instr rest IH]; intros idx acc H Hi;
    simpl in H.
  - inversion H; subst. exact Hi.
  - destruct (note_instr idx instr acc) as [acc1|] eqn:Hn; [|discriminate].
    apply (IH _ _ H). eapply note_instr_ret_mono; eauto.
Qed.

Lemma note_instr_new_output (idx : nat) (instr : bh_instruction)
    (acc acc1 : bases_state) :
  note_instr idx instr acc = Some acc1 ->
  (1 <= bh_noperands (opcode instr))%nat ->
  bh_is_constant (operand_at instr 0) = false ->
  base (operand_at instr 0) ∉ acc.1 ->
  idx ∈ acc1.2.
Proof.
  unfold note_instr. intros H Hn Hc Hb.
  assert (Hin : idx ∈ (fold_left (note_operand idx instr)
                         (seq 0 (bh_noperands (opcode instr))) acc).2).
  { destruct (bh_noperands (opcode instr)) as [|n]; [lia|]. simpl.
    apply note_operands_ret_mono. unfold note_operand. rewrite Hc. simpl.
    rewrite bool_decide_eq_true_2 by exact Hb. simpl.
    apply elem_of_union. left. apply elem_of_singleton. reflexivity. }
  destruct (opcode instr =? BH_FREE).
  - destruct (_ && _); inversion H; subst. exact Hin.
  - inversion H; subst. exact Hin.
Qed.

(** X20. The instruction that is the first of the batch to mention a base the
    engine has not allocated, with that base under its first operand, is
    returned as creating a new array, whatever its opcode: a BH_FREE of
    an unknown base counts as the creation of an array. *)
Theorem new_output_returned (allocated : gset nat)
    (before after : list bh_instruction) (instr : bh_instruction)
    (r : bases_state) :
  update_allocated_bases allocated (before ++ instr :: after) = Some r ->
  (1 <= bh_noperands (opcode instr))%nat ->
  bh_is_constant (operand_at instr 0) = false ->
  base (operand_at instr 0) ∉ allocated ->
  (forall i, In i before -> ~ mentions (base (operand_at instr 0)) i) ->
  length before ∈ r.2.
Proof.
  unfold update_allocated_bases. rewrite update_from_app. simpl.
  destruct (update_from 0 before (allocated, ∅)) as [acc0|] eqn:Hb;
    [|discriminate].
  destruct (note_instr _ instr acc0) as [acc1|] eqn:Hi; [|discriminate].
  intros Hrest Hn Hc Hnew Hno.
  apply (update_from_ret_mono after _ acc1 r _ Hrest).
  apply (note_instr_new_output _ instr acc0 acc1 Hi Hn Hc).
  exact (update_from_keeps_absent before 0 (allocated, ∅) acc0 _ Hb Hno Hnew).
Qed.

End AllocatedBases.

(** ** An instance of the core library and of block.hpp *)

(** The offsets, relative to [start], that a view with the given shape
    and strides reaches. *)
Fixpoint view_offsets (shp strd : list Z) : list Z :=
  match shp, strd with
  | n :: shp', s :: strd' =>
      flat_map (fun i => map (fun o => Z.of_nat i * s + o)
                           (view_offsets shp' strd'))
        (seq 0 (Z.to_nat n))
  | _, _ => [0]
  end.

Definition view_indices (v : bh_view) : list Z :=
  map (Z.add (start v)) (view_offsets (shape v) (stride v)).

(** Modelled from the spec: bh_view_disjoint and bh_view_aligned belong
    to the core library, which is not part of the sources at hand.
    Section 3: two views are disjoint if their index sets do not
    intersect, and aligned if they have identical (shape, stride, offset)
    over the same base. *)
Definition view_disjoint (a b : bh_view) : bool :=
  negb (bool_decide (base a = base b))
  || forallb (fun i => negb (existsb (Z.eqb i) (view_indices b)))
       (view_indices a).

Definition view_aligned (a b : bh_view) : bool :=
  bool_decide (base a = base b) && bool_decide (shape a = shape b)
  && bool_decide (stride a = stride b) && bool_decide (start a = start b).

(** Opcode numbers for the examples. *)
Definition BH_ADD : Z := 1.
Definition BH_MULTIPLY : Z := 2.
Definition BH_ADD_REDUCE : Z := 3.
Definition BH_FREE : Z := 55.
Definition BH_DISCARD : Z := 56.
Definition BH_SYNC : Z := 57.
Definition BH_NONE : Z := 58.

Definition opcode_is_system (c : Z) : bool :=
  (c =? BH_FREE) || (c =? BH_DISCARD) || (c =? BH_SYNC) || (c =? BH_NONE).

Definition noperands (c : Z) : nat :=
  if c =? BH_NONE then 0
  else if opcode_is_system c then 1
  else 3.

(** A block without sub-blocks is an instruction block. *)
Definition is_instr (b : Block) : bool :=
  match _block_list b with [] => true | _ => false end.

(** The instructions of a block, left to right. *)
Fixpoint all_instr (b : Block) : list bh_instruction :=
  match _block_list b with
  | [] => match _instr b with Some i => [i] | None => [] end
  | bl => flat_map all_instr bl
  end.

Definition instr_block (rnk : Z) (i : bh_instruction) : Block :=
  {| _block_list := []; _instr := Some i; rank := rnk; size := 0;
     _sweeps := []; _reshapable := false |}.

(** A loop of the given rank and size around the instructions. *)
Definition nested_block (l : list bh_instruction) (rnk sz : Z) (news : unit)
    : Block :=
  {| _block_list := map (instr_block (rnk + 1)) l; _instr := None;
     rank := rnk; size := sz; _sweeps := []; _reshapable := false |}.

(** One loop around the sub-blocks of both. *)
Definition merge_blocks (a b : Block) : Block :=
  {| _block_list := _block_list a ++ _block_list b; _instr := None;
     rank := rank a; size := size a; _sweeps := _sweeps a ++ _sweeps b;
     _reshapable := _reshapable a && _reshapable b |}.

Definition run_try_merge : Block -> Block -> step :=
  try_merge opcode_is_system noperands view_disjoint view_aligned
    is_instr all_instr merge_blocks unit nested_block tt.

Definition run_fuser_serial (fuel : nat) (block_list : list Block)
    : option (list Block * list merge_event) :=
  fuser_serial opcode_is_system noperands view_disjoint view_aligned
    is_instr all_instr merge_blocks unit nested_block fuel tt block_list.

(** Contiguous vectors of [n] elements over base [b]. *)
Definition vec (b : nat) (n : Z) : bh_view :=
  {| base := b; start := 0; shape := [n]; stride := [1] |}.

(** c = a + b and d = c * a over vectors of [n] elements (bases 0..3). *)
Definition add_instr (n : Z) : bh_instruction :=
  {| opcode := BH_ADD; operand := [vec 2 n; vec 0 n; vec 1 n] |}.
Definition mul_instr (n : Z) : bh_instruction :=
  {| opcode := BH_MULTIPLY; operand := [vec 3 n; vec 2 n; vec 0 n] |}.

(** g = e + f over vectors of [n] elements (bases 4..6). *)
Definition far_instr (n : Z) : bh_instruction :=
  {| opcode := BH_ADD; operand := [vec 6 n; vec 4 n; vec 5 n] |}.

Definition loop_block (i : bh_instruction) (sz : Z)
    (sweeps : list bh_instruction) (reshapable : bool) : Block :=
  {| _block_list := [instr_block 1 i]; _instr := None; rank := 0;
     size := sz; _sweeps := sweeps; _reshapable := reshapable |}.

Lemma fuser_merges_only_compatible_witness :
  run_fuser_serial 5
    [loop_block (add_instr 4) 4 [] false; loop_block (mul_instr 4) 4 [] false]
  = Some ([merge_blocks (loop_block (add_instr 4) 4 [] false)
             (loop_block (mul_instr 4) 4 [] false)],
          [(loop_block (add_instr 4) 4 [] false,
            loop_block (mul_instr 4) 4 [] false,
            merge_blocks (loop_block (add_instr 4) 4 [] false)
              (loop_block (mul_instr 4) 4 [] false))])
  /\ operands_respected noperands view_disjoint view_aligned
       (add_instr 4) (mul_instr 4).
Proof.
  assert (Hrun : run_fuser_serial 5
            [loop_block (add_instr 4) 4 [] false;
             loop_block (mul_instr 4) 4 [] false]
          = Some ([merge_blocks (loop_block (add_instr 4) 4 [] false)
                     (loop_block (mul_instr 4) 4 [] false)],
                  [(loop_block (add_instr 4) 4 [] false,
                    loop_block (mul_instr 4) 4 [] false,
                    merge_blocks (loop_block (add_instr 4) 4 [] false)
                      (loop_block (mul_instr 4) 4 [] false))]))
    by (vm_compute; reflexivity).
  split; [exact Hrun|].
  apply (fuser_merges_only_compatible opcode_is_system noperands
           view_disjoint view_aligned is_instr all_instr merge_blocks unit
           nested_block 5 tt _ _ _
           (loop_block (add_instr 4) 4 [] false)
           (loop_block (mul_instr 4) 4 [] false)
           (merge_blocks (loop_block (add_instr 4) 4 [] false)
              (loop_block (mul_instr 4) 4 [] false))
           (add_instr 4) (mul_instr 4) Hrun).
  - left. reflexivity.
  - simpl. auto.
  - simpl. auto.
  - reflexivity.
  - reflexivity.
Defined.


(** The same two blocks through fuser_serial: both come back, and no
    merge is recorded. *)
Lemma sweep_block_not_fused :
  run_fuser_serial 5
    [loop_block (add_instr 4) 4 [add_instr 4] false;
     loop_block (mul_instr 4) 4 [] false]
  = Some ([loop_block (add_instr 4) 4 [add_instr 4] false;
           loop_block (mul_instr 4) 4 [] false], []).
Proof. vm_compute. reflexivity. Qed.

(** Equal sizes do not merge blocks that are not data-parallel
    compatible either: the second block reads the first four elements
    of the eight the first block writes. *)
Lemma overlapping_blocks_not_fused :
  run_try_merge (loop_block (add_instr 8) 8 [] false)
    (loop_block (mul_instr 4) 8 [] false) = Stop.
Proof. vm_compute. reflexivity. Qed.



(** ** The further properties on concrete blocks and batches *)

Lemma fuser_serial_length_witness :
  (1 <= 2)%nat.
Proof.
  apply (fuser_serial_length opcode_is_system noperands view_disjoint
           view_aligned is_instr all_instr merge_blocks unit nested_block
           5 tt
           [loop_block (add_instr 4) 4 [] false;
            loop_block (mul_instr 4) 4 [] false]
           [merge_blocks (loop_block (add_instr 4) 4 [] false)
              (loop_block (mul_instr 4) 4 [] false)]
           [(loop_block (add_instr 4) 4 [] false,
             loop_block (mul_instr 4) 4 [] false,
             merge_blocks (loop_block (add_instr 4) 4 [] false)
               (loop_block (mul_instr 4) 4 [] false))]).
  vm_compute. reflexivity.
Defined.

Lemma fuser_keeps_instr_and_sweep_blocks_witness :
  is_instr (loop_block (mul_instr 4) 4 [] false) = false
  /\ _sweeps (loop_block (add_instr 4) 4 [] false) = [].
Proof.
  apply (fuser_keeps_instr_and_sweep_blocks opcode_is_system noperands
           view_disjoint view_aligned is_instr all_instr merge_blocks unit
           nested_block 5 tt
           [loop_block (add_instr 4) 4 [] false;
            loop_block (mul_instr 4) 4 [] false]
           [merge_blocks (loop_block (add_instr 4) 4 [] false)
              (loop_block (mul_instr 4) 4 [] false)]
           [(loop_block (add_instr 4) 4 [] false,
             loop_block (mul_instr 4) 4 [] false,
             merge_blocks (loop_block (add_instr 4) 4 [] false)
               (loop_block (mul_instr 4) 4 [] false))]
           (loop_block (add_instr 4) 4 [] false)
           (loop_block (mul_instr 4) 4 [] false)
           (merge_blocks (loop_block (add_instr 4) 4 [] false)
              (loop_block (mul_instr 4) 4 [] false))).
  - vm_compute. reflexivity.
  - left. reflexivity.
Defined.

Lemma fuser_serial_instr_blocks_witness :
  run_fuser_serial 3 [instr_block 0 (add_instr 4); instr_block 0 (mul_instr 4)]
  = Some ([instr_block 0 (add_instr 4); instr_block 0 (mul_instr 4)], []).
Proof.
  apply (fuser_serial_instr_blocks opcode_is_system noperands view_disjoint
           view_aligned is_instr all_instr merge_blocks unit nested_block
           3 tt [instr_block 0 (add_instr 4); instr_block 0 (mul_instr 4)]).
  - simpl. lia.
  - intros b [<-|[<-|[]]]; reflexivity.
Defined.

(** In the batches below the base 0 stands for the NULL base of a
    constant. *)
Definition is_constant (v : bh_view) : bool := Nat.eqb (base v) 0.

Definition free_instr (b : nat) : bh_instruction :=
  {| opcode := BH_FREE; operand := [vec b 4] |}.

Definition run_update_allocated_bases
    : gset nat -> list bh_instruction -> option (gset nat * gset nat) :=
  update_allocated_bases noperands is_constant BH_FREE.

Lemma update_accepts_view_frees_witness :
  exists r, run_update_allocated_bases ∅ [free_instr 9] = Some r.
Proof.
  apply (update_accepts_view_frees noperands is_constant BH_FREE ∅
           [free_instr 9]).
  - vm_compute. lia.
  - intros instr [<-|[]] _. reflexivity.
Defined.

(** g = e + f over the bases 4..6, then FREE(g), then c = a + b over the
    bases 1..3. *)
Definition near_instr (n : Z) : bh_instruction :=
  {| opcode := BH_ADD; operand := [vec 3 n; vec 1 n; vec 2 n] |}.

Lemma freed_base_not_allocated_witness :
  exists r,
    run_update_allocated_bases {[4%nat; 5%nat]}
      ([far_instr 4] ++ free_instr 6 :: [near_instr 4]) = Some r
    /\ 6%nat ∉ r.1.
Proof.
  destruct (run_update_allocated_bases {[4%nat; 5%nat]}
              ([far_instr 4] ++ free_instr 6 :: [near_instr 4]))
    as [r|] eqn:Hrun; [|vm_compute in Hrun; discriminate].
  exists r. split; [reflexivity|].
  apply (freed_base_not_allocated noperands is_constant BH_FREE
           {[4%nat; 5%nat]} [far_instr 4] [near_instr 4] (free_instr 6) r
           Hrun eq_refl).
  intros instr [<-|[]] (o & Ho & _ & Hb).
  vm_compute in Ho.
  destruct o as [|[|[|o]]]; try lia; vm_compute in Hb; discriminate.
Defined.

Lemma new_output_returned_witness :
  exists r,
    run_update_allocated_bases {[4%nat; 5%nat]}
      ([far_instr 4] ++ near_instr 4 :: [free_instr 3]) = Some r
    /\ 1%nat ∈ r.2.
Proof.
  destruct (run_update_allocated_bases {[4%nat; 5%nat]}
              ([far_instr 4] ++ near_instr 4 :: [free_instr 3]))
    as [r|] eqn:Hrun; [|vm_compute in Hrun; discriminate].
  exists r. split; [reflexivity|].
  apply (new_output_returned noperands is_constant BH_FREE
           {[4%nat; 5%nat]} [far_instr 4] [free_instr 3] (near_instr 4) r
           Hrun).
  - vm_compute. lia.
  - reflexivity.
  - intros H. apply elem_of_union in H as [H|H];
      apply elem_of_singleton in H; vm_compute in H; discriminate.
  - intros instr [<-|[]] (o & Ho & _ & Hb).
    vm_compute in Ho.
    destruct o as [|[|[|o]]]; try lia; vm_compute in Hb; discriminate.
Defined.

End Uni.

(* ===================================================================== *)
(** * core/compute/cphvb_compute_random.cpp *)
(* ===================================================================== *)
Module Random.

(** [unsigned long] has 64 bits on the platforms of the branch that is
    not _WIN32 (LP64); arithmetic on it wraps. *)
Definition ULONG_BITS : Z := 64.
Definition ulong (x : Z) : Z := x mod 2 ^ ULONG_BITS.
(** ~x on unsigned long *)
Definition ulong_not (x : Z) : Z := ulong (Z.lnot x).

(** Magic Mersenne Twister constants *)
Definition N : nat := 624.
Definition M : nat := 397.
Definition MATRIX_A : Z := 0x9908b0df.
Definition UPPER_MASK : Z := 0x80000000.
Definition LOWER_MASK : Z := 0x7fffffff.
Definition RK_STATE_LEN : nat := 624.

(** rk_state: unsigned long key[624]; int pos *)
Record rk_state : Type := {
  key : list Z;
  pos : nat
}.

(** state->key[i] *)
Definition key_at (k : list Z) (i : nat) : Z := nth i k 0.

(** One assignment of the regeneration loops:
      y = (key[i] & UPPER_MASK) | (key[j] & LOWER_MASK);
      key[i] = key[m] ^ (y >> 1) ^ (-(y & 1) & MATRIX_A); *)
Definition twist (k : list Z) (i j m : nat) : list Z :=
  let y := Z.lor (Z.land (key_at k i) UPPER_MASK)
             (Z.land (key_at k j) LOWER_MASK) in
  <[i := Z.lxor (Z.lxor (key_at k m) (Z.shiftr y 1))
           (Z.land (ulong (- Z.land y 1)) MATRIX_A)]> k.

(** The block under "if (state->pos == RK_STATE_LEN)", without the reset
    of pos: the two loops and the last word. *)
Definition regenerate (k : list Z) : list Z :=
  let k1 := fold_left (fun k i => twist k i (i + 1) (i + M)) (seq 0 (N - M)) k in
  let k2 := fold_left (fun k i => twist k i (i + 1) (i + M - N))
              (seq (N - M) (M - 1)) k1 in
  twist k2 (N - 1) 0 (M - 1).

(** Tempering *)
Definition temper (y : Z) : Z :=
  let y := Z.lxor y (Z.shiftr y 11) in
  let y := Z.lxor y (Z.land (ulong (Z.shiftl y 7)) 0x9d2c5680) in
  let y := Z.lxor y (Z.land (ulong (Z.shiftl y 15)) 0xefc60000) in
  Z.lxor y (Z.shiftr y 18).

(** unsigned long rk_random(rk_state *state) *)
Definition rk_random (state : rk_state) : Z * rk_state :=
  let state1 :=
    if Nat.eqb (pos state) RK_STATE_LEN
    then {| key := regenerate (key state); pos := 0 |}
    else state in
  let y := key_at (key state1) (pos state1) in
  (temper y, {| key := key state1; pos := S (pos state1) |}).

(** The loop of rk_seed from position [p] on, [n] words to go. *)
Fixpoint seed_keys (n : nat) (p : Z) (seed : Z) : list Z :=
  match n with
  | O => []
  | S n' =>
      seed ::
      seed_keys n' (p + 1)
        (Z.land (ulong (1812433253 * Z.lxor seed (Z.shiftr seed 30) + p + 1))
           0xffffffff)
  end.

(** void rk_seed(unsigned long seed, rk_state *state) *)
Definition rk_seed (seed : Z) : rk_state :=
  let seed := Z.land seed 0xffffffff in
  {| key := seed_keys RK_STATE_LEN 0 seed; pos := RK_STATE_LEN |}.

(** Thomas Wang 32 bits integer hash function, on unsigned long. *)
Definition rk_hash (key : Z) : Z :=
  let key := ulong (key + ulong_not (ulong (Z.shiftl key 15))) in
  let key := Z.lxor key (Z.shiftr key 10) in
  let key := ulong (key + ulong (Z.shiftl key 3)) in
  let key := Z.lxor key (Z.shiftr key 6) in
  let key := ulong (key + ulong_not (ulong (Z.shiftl key 11))) in
  Z.lxor key (Z.shiftr key 16).

(** What rk_initseed reads from the process: getpid() and the two fields
    of gettimeofday(). *)
Record process_clock : Type := {
  pid : Z;
  tv_sec : Z;
  tv_usec : Z
}.

(** The seed rk_initseed hands to rk_seed. *)
Definition initseed_value (c : process_clock) : Z :=
  Z.lxor (Z.lxor (rk_hash (ulong (pid c))) (rk_hash (ulong (tv_sec c))))
    (rk_hash (ulong (tv_usec c))).

(** int rk_initseed(rk_state *state) *)
Definition rk_initseed (c : process_clock) : rk_state :=
  rk_seed (initseed_value c).

(** The integer generators. *)
Definition rk_int8 (s : rk_state) : Z * rk_state :=
  let '(r, s1) := rk_random s in (Z.land r 0x7f, s1).
Definition rk_int16 (s : rk_state) : Z * rk_state :=
  let '(r, s1) := rk_random s in (Z.land r 0x7fff, s1).
Definition rk_int32 (s : rk_state) : Z * rk_state :=
  let '(r, s1) := rk_random s in (Z.land r 0x7fffffff, s1).
Definition rk_int64 (s : rk_state) : Z * rk_state :=
  let '(r1, s1) := rk_random s in
  let res := Z.land r1 0x7fffffff in
  let '(r2, s2) := rk_random s1 in
  (Z.lor (Z.shiftl res 32) r2, s2).
Definition rk_uint8 (s : rk_state) : Z * rk_state :=
  let '(r, s1) := rk_random s in (Z.land r 0xff, s1).
Definition rk_uint16 (s : rk_state) : Z * rk_state :=
  let '(r, s1) := rk_random s in (Z.land r 0xffff, s1).
Definition rk_uint32 (s : rk_state) : Z * rk_state :=
  let '(r, s1) := rk_random s in (r mod 2 ^ 32, s1).
Definition rk_uint64 (s : rk_state) : Z * rk_state :=
  let '(r1, s1) := rk_random s in
  let '(r2, s2) := rk_random s1 in
  (Z.lor (ulong (Z.shiftl r1 32)) r2, s2).

(** The scalar types of an array. *)
Inductive cphvb_type : Type :=
  | CPHVB_BOOL
  | CPHVB_INT8 | CPHVB_INT16 | CPHVB_INT32 | CPHVB_INT64
  | CPHVB_UINT8 | CPHVB_UINT16 | CPHVB_UINT32 | CPHVB_UINT64
  | CPHVB_FLOAT16 | CPHVB_FLOAT32 | CPHVB_FLOAT64
  | CPHVB_UNKNOWN.

Inductive cphvb_error : Type :=
  | CPHVB_SUCCESS
  | CPHVB_OUT_OF_MEMORY
  | CPHVB_TYPE_NOT_SUPPORTED.

(** ** The words of the generator *)

(** [x] is a word of [n] bits. *)
Definition fits (n x : Z) : Prop := 0 <= x < 2 ^ n.

Definition word32 (x : Z) : bool := (0 <=? x) && (x <? 2 ^ 32).

(** The state a caller may hand to rk_random: 624 keys of 32 bits and a
    position inside key[] or at its end. *)
Definition state_ok (s : rk_state) : bool :=
  Nat.eqb (length (key s)) RK_STATE_LEN
  && (pos s <=? RK_STATE_LEN)%nat
  && forallb word32 (key s).

(** The bits the C type of the elements leaves for the values the
    generators produce: all bits of an unsigned type, all but the sign of
    a signed one. *)
Definition value_bits (t : cphvb_type) : option Z :=
  match t with
  | CPHVB_INT8 => Some 7
  | CPHVB_INT16 => Some 15
  | CPHVB_INT32 => Some 31
  | CPHVB_INT64 => Some 63
  | CPHVB_UINT8 => Some 8
  | CPHVB_UINT16 => Some 16
  | CPHVB_UINT32 => Some 32
  | CPHVB_UINT64 => Some 64
  | _ => None
  end.

Lemma fits_testbit (n x : Z) :
  0 <= n -> fits n x <-> (forall i, n <= i -> Z.testbit x i = false).
Proof.
  intros Hn. split.
  - intros [H0 H1] i Hi.
    rewrite <- (Z.mod_small x (2 ^ n)) by lia.
    apply Z.mod_pow2_bits_high. lia.
  - intros H.
    assert (Hx : 0 <= x).
    { destruct (Z.neg_nonneg_cases x) as [Hneg|]; [|assumption].
      apply Z.bits_iff_neg_ex in Hneg as [k Hk].
      specialize (Hk (Z.max (k + 1) n) ltac:(lia)).
      rewrite H in Hk by lia. discriminate. }
    assert (E : x mod 2 ^ n = x).
    { apply Z.bits_inj'. intros i Hi.
      destruct (Z.lt_ge_cases i n).
      - apply Z.mod_pow2_bits_low. lia.
      - rewrite Z.mod_pow2_bits_high by lia. symmetry. apply H. lia. }
    unfold fits. rewrite <- E. apply Z.mod_pos_bound.
    apply Z.pow_pos_nonneg; lia.
Qed.

Lemma fits_lxor (n a b : Z) :
  0 <= n -> fits n a -> fits n b -> fits n (Z.lxor a b).
Proof.
  intros Hn Ha Hb. rewrite fits_testbit in * by assumption.
  intros i Hi. rewrite Z.lxor_spec, Ha, Hb by assumption. reflexivity.
Qed.

Lemma fits_lor (n a b : Z) :
  0 <= n -> fits n a -> fits n b -> fits n (Z.lor a b).
Proof.
  intros Hn Ha Hb. rewrite fits_testbit in * by assumption.
  intros i Hi. rewrite Z.lor_spec, Ha, Hb by assumption. reflexivity.
Qed.

Lemma fits_land_r (n a b : Z) : 0 <= n -> fits n b -> fits n (Z.land a b).
Proof.
  intros Hn Hb. rewrite fits_testbit in * by assumption.
  intros i Hi. rewrite Z.land_spec, Hb by assumption. apply andb_false_r.
Qed.

Lemma fits_shiftr (n a k : Z) :
  0 <= n -> 0 <= k -> fits n a -> fits n (Z.shiftr a k).
Proof.
  intros Hn Hk Ha. rewrite fits_testbit in * by assumption.
  intros i Hi. rewrite Z.shiftr_spec by lia. apply Ha. lia.
Qed.

Lemma fits_shiftl (n a k : Z) :
  0 <= n -> 0 <= k -> fits n a -> fits (n + k) (Z.shiftl a k).
Proof.
  intros Hn Hk Ha. rewrite fits_testbit in * by lia.
  intros i Hi. rewrite Z.shiftl_spec by lia. apply Ha. lia.
Qed.

Lemma fits_mono (n m x : Z) : 0 <= n <= m -> fits n x -> fits m x.
Proof.
  intros Hnm [H0 H1]. split; [assumption|].
  apply Z.lt_le_trans with (2 ^ n); [assumption|].
  apply Z.pow_le_mono_r; lia.
Qed.

Lemma fits_ulong (x : Z) : fits 64 (ulong x).
Proof. apply Z.mod_pos_bound. reflexivity. Qed.

Lemma word32_fits (x : Z) : word32 x = true <-> fits 32 x.
Proof.
  unfold word32, fits. rewrite andb_true_iff, Z.leb_le, Z.ltb_lt.
  reflexivity.
Qed.

Lemma state_ok_spec (s : rk_state) :
  state_ok s = true
  <-> length (key s) = RK_STATE_LEN /\ (pos s <= RK_STATE_LEN)%nat
      /\ Forall (fits 32) (key s).
Proof.
  unfold state_ok.
  rewrite !andb_true_iff, Nat.eqb_eq, Nat.leb_le, forallb_forall,
    List.Forall_forall.
  split.
  - intros [[Hlen Hpos] Hall]. split; [|split]; try assumption.
    intros w Hw. apply word32_fits, Hall, Hw.
  - intros (Hlen & Hpos & Hall). split; [split|]; try assumption.
    intros w Hw. apply word32_fits, Hall, Hw.
Qed.

Lemma key_at_fits (k : list Z) (i : nat) :
  Forall (fits 32) k -> fits 32 (key_at k i).
Proof.
  intros Hall. unfold key_at.
  destruct (nth_in_or_default i k 0) as [Hin| ->].
  - revert Hin. apply List.Forall_forall. assumption.
  - unfold fits. lia.
Qed.

Lemma temper_fits (y : Z) : fits 32 y -> fits 32 (temper y).
Proof.
  intros Hy. unfold temper. cbv zeta.
  assert (H1 : fits 32 (Z.lxor y (Z.shiftr y 11))).
  { apply fits_lxor; [lia|assumption|apply fits_shiftr; [lia|lia|assumption]]. }
  set (y1 := Z.lxor y (Z.shiftr y 11)) in *.
  assert (H2 : fits 32
                 (Z.lxor y1 (Z.land (ulong (Z.shiftl y1 7)) 0x9d2c5680))).
  { apply fits_lxor; [lia|assumption|].
    apply fits_land_r; [lia|unfold fits; lia]. }
  set (y2 := Z.lxor y1 (Z.land (ulong (Z.shiftl y1 7)) 0x9d2c5680)) in *.
  assert (H3 : fits 32
                 (Z.lxor y2 (Z.land (ulong (Z.shiftl y2 15)) 0xefc60000))).
  { apply fits_lxor; [lia|assumption|].
    apply fits_land_r; [lia|unfold fits; lia]. }
  apply fits_lxor; [lia|assumption|apply fits_shiftr; [lia|lia|assumption]].
Qed.

Lemma twist_keeps (k : list Z) (i j m : nat) :
  Forall (fits 32) k ->
  length (twist k i j m) = length k /\ Forall (fits 32) (twist k i j m).
Proof.
  intros Hall. unfold twist. cbv zeta. split; [apply length_insert|].
  apply Forall_insert; [assumption|].
  apply fits_lxor; [lia| |apply fits_land_r; [lia|unfold fits, MATRIX_A; lia]].
  apply fits_lxor; [lia|apply key_at_fits; assumption|].
  apply fits_shiftr; [lia|lia|].
  apply fits_lor; [lia| |];
    (apply fits_land_r;
     [lia|unfold fits, UPPER_MASK, LOWER_MASK; lia]).
Qed.

Lemma twists_keep (g h : nat -> nat) (l : list nat) (k : list Z) :
  Forall (fits 32) k ->
  length (fold_left (fun k i => twist k i (g i) (h i)) l k) = length k
  /\ Forall (fits 32) (fold_left (fun k i => twist k i (g i) (h i)) l k).
Proof.
  revert k. induction l as [|i l IH]; intros k Hall; cbn [fold_left].
  - split; [reflexivity|assumption].
  - destruct (twist_keeps k i (g i) (h i) Hall) as [Hlen Hall1].
    destruct (IH _ Hall1) as [Hlen2 Hall2].
    split; [congruence|assumption].
Qed.

Lemma regenerate_keeps (k : list Z) :
  Forall (fits 32) k ->
  length (regenerate k) = length k /\ Forall (fits 32) (regenerate k).
Proof.
  intros Hall. unfold regenerate. cbv zeta.
  destruct (twists_keep (fun i => (i + 1)%nat) (fun i => (i + M)%nat)
              (seq 0 (N - M)) k Hall) as [Hlen1 Hall1].
  destruct (twists_keep (fun i => (i + 1)%nat) (fun i => (i + M - N)%nat)
              (seq (N - M) (M - 1)) _ Hall1) as [Hlen2 Hall2].
  destruct (twist_keeps _ (N - 1) 0 (M - 1) Hall2) as [Hlen3 Hall3].
  split; [congruence|assumption].
Qed.

Lemma seed_keys_fit (n : nat) (p seed : Z) :
  fits 32 seed ->
  length (seed_keys n p seed) = n /\ Forall (fits 32) (seed_keys n p seed).
Proof.
  revert p seed. induction n as [|n IH]; intros p seed Hseed; simpl.
  - split; [reflexivity|constructor].
  - destruct (IH (p + 1)
                (Z.land
                   (ulong (1812433253 * Z.lxor seed (Z.shiftr seed 30) + p + 1))
                   0xffffffff)) as [Hlen Hall].
    { apply fits_land_r; [lia|unfold fits; lia]. }
    split; [congruence|constructor; assumption].
Qed.

Lemma rk_seed_keeps (seed : Z) :
  state_ok (rk_seed seed) = true /\ pos (rk_seed seed) = RK_STATE_LEN.
Proof.
  split; [|reflexivity].
  apply state_ok_spec. unfold rk_seed. cbv zeta.
  destruct (seed_keys_fit RK_STATE_LEN 0 (Z.land seed 0xffffffff))
    as [Hlen Hall].
  { apply fits_land_r; [lia|unfold fits; lia]. }
  cbn [key pos]. split; [|split]; [assumption|lia|assumption].
Qed.

Lemma rk_random_keeps (s : rk_state) :
  state_ok s = true ->
  fits 32 (rk_random s).1 /\ state_ok (rk_random s).2 = true.
Proof.
  intros Hok. apply state_ok_spec in Hok as (Hlen & Hpos & Hall).
  unfold rk_random. cbv zeta.
  destruct (Nat.eqb (pos s) RK_STATE_LEN) eqn:Heq; cbn [fst snd key pos].
  - destruct (regenerate_keeps (key s) Hall) as [Hlen1 Hall1].
    split; [apply temper_fits, key_at_fits; assumption|].
    apply state_ok_spec. cbn [key pos].
    split; [|split]; [congruence|unfold RK_STATE_LEN; lia|assumption].
  - apply Nat.eqb_neq in Heq.
    split; [apply temper_fits, key_at_fits; assumption|].
    apply state_ok_spec. cbn [key pos].
    split; [|split]; [assumption|lia|assumption].
Qed.

(** X21. rk_seed leaves a state rk_random can be called on, whatever the seed:
    624 keys of 32 bits, the position at the end of key[] so that the
    first call regenerates them. *)
Theorem rk_seed_state_ok (seed : Z) :
  state_ok (rk_seed seed) = true /\ pos (rk_seed seed) = RK_STATE_LEN.
Proof. apply rk_seed_keeps. Qed.

(** X22. On a state of 624 keys of 32 bits, rk_random returns a word of 32
    bits although unsigned long has 64, and leaves such a state with the
    position inside key[] or at its end. *)
Theorem rk_random_word32 (s : rk_state) :
  state_ok s = true ->
  fits 32 (rk_random s).1 /\ state_ok (rk_random s).2 = true.
Proof. apply rk_random_keeps. Qed.

(** ** The typed generators *)

(** What a generator owes the loop that calls it: from a good state, a
    value with property [P] and a good state again. *)
Definition generates {A : Type} (gen : rk_state -> A * rk_state)
    (P : A -> Prop) : Prop :=
  forall s, state_ok s = true -> P (gen s).1 /\ state_ok (gen s).2 = true.

Lemma rk_random_generates : generates rk_random (fits 32).
Proof. intros s Hok. apply rk_random_keeps, Hok. Qed.

(** A generator that masks one word of rk_random. *)
Lemma masked_generates (mask n : Z) :
  0 <= n -> fits n mask ->
  generates (fun s => let '(r, s1) := rk_random s in (Z.land r mask, s1))
    (fits n).
Proof.
  intros Hn Hmask s Hok.
  destruct (rk_random_keeps s Hok) as [Hr Hs].
  destruct (rk_random s) as [r s1]. cbn [fst snd] in *.
  split; [apply fits_land_r; assumption|assumption].
Qed.

Lemma rk_int8_generates : generates rk_int8 (fits 7).
Proof. apply (masked_generates 0x7f 7); [lia|unfold fits; lia]. Qed.

Lemma rk_int16_generates : generates rk_int16 (fits 15).
Proof. apply (masked_generates 0x7fff 15); [lia|unfold fits; lia]. Qed.

Lemma rk_int32_generates : generates rk_int32 (fits 31).
Proof. apply (masked_generates 0x7fffffff 31); [lia|unfold fits; lia]. Qed.

Lemma rk_uint8_generates : generates rk_uint8 (fits 8).
Proof. apply (masked_generates 0xff 8); [lia|unfold fits; lia]. Qed.

Lemma rk_uint16_generates : generates rk_uint16 (fits 16).
Proof. apply (masked_generates 0xffff 16); [lia|unfold fits; lia]. Qed.

Lemma rk_uint32_generates : generates rk_uint32 (fits 32).
Proof.
  intros s Hok. unfold rk_uint32.
  destruct (rk_random_keeps s Hok) as [Hr Hs].
  destruct (rk_random s) as [r s1]. cbn [fst snd] in *.
  split; [apply Z.mod_pos_bound; reflexivity|assumption].
Qed.

Lemma rk_int64_generates : generates rk_int64 (fits 63).
Proof.
  intros s Hok. unfold rk_int64.
  destruct (rk_random_keeps s Hok) as [Hr1 Hs1].
  destruct (rk_random s) as [r1 s1]. cbn [fst snd] in *.
  destruct (rk_random_keeps s1 Hs1) as [Hr2 Hs2].
  destruct (rk_random s1) as [r2 s2]. cbn [fst snd] in *.
  split; [|assumption].
  apply fits_lor; [lia| |apply (fits_mono 32); [lia|assumption]].
  apply (fits_shiftl 31 _ 32); [lia|lia|].
  apply fits_land_r; [lia|unfold fits; lia].
Qed.

Lemma rk_uint64_generates : generates rk_uint64 (fits 64).
Proof.
  intros s Hok. unfold rk_uint64.
  destruct (rk_random_keeps s Hok) as [Hr1 Hs1].
  destruct (rk_random s) as [r1 s1]. cbn [fst snd] in *.
  destruct (rk_random_keeps s1 Hs1) as [Hr2 Hs2].
  destruct (rk_random s1) as [r2 s2]. cbn [fst snd] in *.
  split; [|assumption].
  apply fits_lor; [lia|apply fits_ulong|].
  apply (fits_mono 32); [lia|assumption].
Qed.

Section Compute.
(** Floating point is not modelled: the two conversions are taken as
    given.  [float_of r] is (float)(r * 2.3283064365387e-10) and
    [double_of a b] is (a * 67108864.0 + b) / 9007199254740992.0. *)
Variable cphvb_float32 : Type.
Variable cphvb_float64 : Type.
Variable float_of : Z -> cphvb_float32.
Variable double_of : Z -> Z -> cphvb_float64.
(** cphvb_nelements(ndim, shape) is a function of the core library that
    is not among the sources: the count it returns for a shape is taken
    as given. *)
Variable cphvb_nelements : list Z -> Z.

(** An element of the data of a base array. *)
Inductive element : Type :=
  | Int (z : Z)
  | Float32 (f : cphvb_float32)
  | Float64 (d : cphvb_float64).

Definition rk_float (s : rk_state) : cphvb_float32 * rk_state :=
  let '(r, s1) := rk_random s in (float_of r, s1).

Definition rk_double (s : rk_state) : cphvb_float64 * rk_state :=
  let '(r1, s1) := rk_random s in
  let '(r2, s2) := rk_random s1 in
  (double_of (Z.shiftr r1 5) (Z.shiftr r2 6), s2).

(** for(i = 0; i < size; ++i) data[i] = gen(&state); from index [i] on,
    [n] elements to go.  [data] is the allocation behind base->data: a
    store behind its end has no defined result. *)
Fixpoint fill (gen : rk_state -> element * rk_state) (n i : nat)
    (s : rk_state) (data : list element) : option (list element) :=
  match n with
  | O => Some data
  | S n' =>
      let '(v, s1) := gen s in
      if (i <? length data)%nat
      then fill gen n' (S i) s1 (<[i := v]> data)
      else None
  end.

Definition as_int (g : rk_state -> Z * rk_state) (s : rk_state)
    : element * rk_state :=
  let '(z, s1) := g s in (Int z, s1).

(** The array of the call: the type and shape of operand[0], whether
    cphvb_data_malloc succeeds, and the data of its base once that call
    is through. *)
Record cphvb_array : Type := {
  type : cphvb_type;
  shape : list Z;
  malloc_ok : bool;
  data : list element
}.

(** The value a variable of type cphvb_intp holds: 64 bits, two's
    complement. *)
Definition cphvb_intp (z : Z) : Z := (z + 2 ^ 63) mod 2 ^ 64 - 2 ^ 63.

(** cphvb_intp size = cphvb_nelements(ary->ndim, ary->shape), as the
    number of passes of for(i = 0; i < size; ++i): none when [size] is
    not positive. *)
Definition size_of (ary : cphvb_array) : nat :=
  Z.to_nat (cphvb_intp (cphvb_nelements (shape ary))).

(** cphvb_error cphvb_compute_random(cphvb_userfunc *arg, void* ve_arg):
    the status and the data of the base after the call; no result when
    a store leaves the allocation.  [c] is the process state rk_initseed
    reads. *)
Definition cphvb_compute_random (ary : cphvb_array) (c : process_clock)
    : option (cphvb_error * list element) :=
  let size := size_of ary in
  if negb (malloc_ok ary) then Some (CPHVB_OUT_OF_MEMORY, data ary) else
  let state := rk_initseed c in
  let filled gen :=
    match fill gen size 0 state (data ary) with
    | Some d => Some (CPHVB_SUCCESS, d)
    | None => None
    end in
  match type ary with
  | CPHVB_INT8 => filled (as_int rk_int8)
  | CPHVB_INT16 => filled (as_int rk_int16)
  | CPHVB_INT32 => filled (as_int rk_int32)
  | CPHVB_INT64 => filled (as_int rk_int64)
  | CPHVB_UINT8 => filled (as_int rk_uint8)
  | CPHVB_UINT16 => filled (as_int rk_uint16)
  | CPHVB_UINT32 => filled (as_int rk_uint32)
  | CPHVB_UINT64 => filled (as_int rk_uint64)
  | CPHVB_FLOAT32 =>
      filled (fun s => let '(f, s1) := rk_float s in (Float32 f, s1))
  | CPHVB_FLOAT64 =>
      filled (fun s => let '(d, s1) := rk_double s in (Float64 d, s1))
  | _ => Some (CPHVB_TYPE_NOT_SUPPORTED, data ary)
  end.

(** ** A batch that calls the extension *)

(** The status of the routine as the engine's bh_error. *)
Definition status_of (e : cphvb_error) : bh_error :=
  match e with
  | CPHVB_SUCCESS => BH_SUCCESS
  | CPHVB_OUT_OF_MEMORY => BH_OUT_OF_MEMORY
  | CPHVB_TYPE_NOT_SUPPORTED => BH_TYPE_NOT_SUPPORTED
  end.

Definition set_data (ary : cphvb_array) (d : list element) : cphvb_array :=
  {| type := type ary; shape := shape ary; malloc_ok := malloc_ok ary;
     data := d |}.

(** The arrays of a process, and how often it has read its clock. *)
Record process : Type := {
  arrays : gmap nat cphvb_array;
  clock_reads : nat
}.

(** [None]: a store has left an allocation or a pointer led nowhere, and
    C says nothing about the process from there on. *)
Definition world : Type := option process.

(** The three implementations bh_ve_naive.cpp defines (lines 160-173). *)
Inductive userfunc_impl : Type :=
  | Bh_random
  | Bh_matmul
  | Bh_nselect.

Section Batch.
(** The routines of the other translation units; none of them reads the
    clock. *)
Variable bh_vcache_free :
  Naive.bh_instruction -> gmap nat cphvb_array
  -> bh_error * gmap nat cphvb_array.
Variable bh_vcache_malloc :
  Naive.bh_instruction -> gmap nat cphvb_array
  -> bh_error * gmap nat cphvb_array.
Variable bh_compute_apply_naive :
  Naive.bh_instruction -> gmap nat cphvb_array
  -> bh_error * gmap nat cphvb_array.
Variable data_is_null : Naive.bh_instruction -> gmap nat cphvb_array -> bool.
Variable bh_compute_matmul :
  Naive.bh_instruction -> gmap nat cphvb_array
  -> bh_error * gmap nat cphvb_array.
Variable bh_compute_nselect :
  Naive.bh_instruction -> gmap nat cphvb_array
  -> bh_error * gmap nat cphvb_array.

Definition on_arrays
    (f : Naive.bh_instruction -> gmap nat cphvb_array
         -> bh_error * gmap nat cphvb_array)
    (inst : Naive.bh_instruction) (w : world) : bh_error * world :=
  match w with
  | Some p =>
      let '(res, a) := f inst (arrays p) in
      (res, Some {| arrays := a; clock_reads := clock_reads p |})
  | None => (BH_ERROR, None)
  end.

(** Modelled from the spec: bh_compute_random, whose status bh_random of
    bh_ve_naive.cpp (lines 160-163) returns, is not among the sources.
    Following the spec's extension dispatch (the engine calls the
    registered implementation, and the output is populated by the
    external routine), it is taken to be cphvb_compute_random on the
    array of operand[0] of the user function, arrays being named by
    numbers.  [clock n] is what the process reads at its n-th call of
    rk_initseed, which follows a successful allocation. *)
Definition bh_random (clock : nat -> process_clock)
    (inst : Naive.bh_instruction) (w : world) : bh_error * world :=
  match w with
  | Some p =>
      match arrays p !! Naive.operand0_base inst with
      | Some ary =>
          match cphvb_compute_random ary (clock (clock_reads p)) with
          | Some (res, d) =>
              (status_of res,
               Some {| arrays := <[Naive.operand0_base inst := set_data ary d]>
                                   (arrays p);
                       clock_reads := if malloc_ok ary
                                      then S (clock_reads p)
                                      else clock_reads p |})
          | None => (BH_ERROR, None)
          end
      | None => (BH_ERROR, None)
      end
  | None => (BH_ERROR, None)
  end.

Definition call_impl (clock : nat -> process_clock) (f : userfunc_impl)
    : Naive.bh_instruction -> world -> bh_error * world :=
  match f with
  | Bh_random => bh_random clock
  | Bh_matmul => on_arrays bh_compute_matmul
  | Bh_nselect => on_arrays bh_compute_nselect
  end.


End Batch.

(** ** What a call writes *)

(** The first [n] values a generator produces from a state. *)
Fixpoint draws {A : Type} (gen : rk_state -> A * rk_state) (n : nat)
    (s : rk_state) : list A :=
  match n with
  | O => []
  | S n' => let '(v, s1) := gen s in v :: draws gen n' s1
  end.

(** The generator of the values of a type. *)
Definition generator (t : cphvb_type)
    : option (rk_state -> element * rk_state) :=
  match t with
  | CPHVB_INT8 => Some (as_int rk_int8)
  | CPHVB_INT16 => Some (as_int rk_int16)
  | CPHVB_INT32 => Some (as_int rk_int32)
  | CPHVB_INT64 => Some (as_int rk_int64)
  | CPHVB_UINT8 => Some (as_int rk_uint8)
  | CPHVB_UINT16 => Some (as_int rk_uint16)
  | CPHVB_UINT32 => Some (as_int rk_uint32)
  | CPHVB_UINT64 => Some (as_int rk_uint64)
  | CPHVB_FLOAT32 =>
      Some (fun s => let '(f, s1) := rk_float s in (Float32 f, s1))
  | CPHVB_FLOAT64 =>
      Some (fun s => let '(d, s1) := rk_double s in (Float64 d, s1))
  | _ => None
  end.

(** The seed of a call: the 32 bits rk_seed keeps of the value
    rk_initseed derives from the process id and the time of day. *)
Definition seed32 (c : process_clock) : Z :=
  Z.land (initseed_value c) 0xffffffff.


(** rk_seed looks at the low 32 bits of the seed only. *)
Lemma rk_seed_low_bits (s1 s2 : Z) :
  Z.land s1 0xffffffff = Z.land s2 0xffffffff -> rk_seed s1 = rk_seed s2.
Proof. intros H. unfold rk_seed. rewrite H. reflexivity. Qed.




Lemma rk_seed_seed32 (c : process_clock) :
  rk_seed (seed32 c) = rk_initseed c.
Proof.
  unfold rk_initseed, seed32. apply rk_seed_low_bits.
  rewrite <- Z.land_assoc, Z.land_diag. reflexivity.
Qed.


(** Inside the allocation the loop replaces data[i .. i+n) by the values
    of the generator, in their order. *)
Lemma fill_draws (gen : rk_state -> element * rk_state) (n i : nat)
    (s : rk_state) (dat : list element) :
  (i + n <= length dat)%nat ->
  fill gen n i s dat
  = Some (take i dat ++ draws gen n s ++ drop (i + n) dat).
Proof.
  revert i s dat. induction n as [|n IH]; intros i s dat Hlen;
    cbn [fill draws].
  - rewrite Nat.add_0_r. cbn [app]. rewrite take_drop. reflexivity.
  - destruct (gen s) as [v s1].
    destruct (Nat.ltb_spec i (length dat)) as [Hi|Hi]; [|lia].
    rewrite IH by (rewrite length_insert; lia).
    rewrite (take_S_r _ i v) by (apply list_lookup_insert_eq; exact Hi).
    rewrite take_insert_ge by lia.
    rewrite drop_insert_lt by lia.
    rewrite <- app_assoc. cbn [app].
    replace (S i + n)%nat with (i + S n)%nat by lia. reflexivity.
Qed.

(** Behind the allocation it has no result. *)
Lemma fill_overrun (gen : rk_state -> element * rk_state) (n i : nat)
    (s : rk_state) (dat : list element) :
  (i <= length dat < i + n)%nat -> fill gen n i s dat = None.
Proof.
  revert i s dat. induction n as [|n IH]; intros i s dat Hlen;
    cbn [fill]; [lia|].
  destruct (gen s) as [v s1].
  destruct (Nat.ltb_spec i (length dat)) as [Hi|Hi]; [|reflexivity].
  apply IH. rewrite length_insert. lia.
Qed.

Lemma draws_length {A : Type} (gen : rk_state -> A * rk_state) (n : nat)
    (s : rk_state) :
  length (draws gen n s) = n.
Proof.
  revert s. induction n as [|n IH]; intros s; cbn [draws]; [reflexivity|].
  destruct (gen s) as [v s1]. cbn [length]. rewrite IH. reflexivity.
Qed.

Lemma draws_generates {A : Type} (gen : rk_state -> A * rk_state)
    (P : A -> Prop) (n : nat) (s : rk_state) :
  generates gen P -> state_ok s = true -> Forall P (draws gen n s).
Proof.
  intros Hgen. revert s. induction n as [|n IH]; intros s Hok;
    cbn [draws]; [constructor|].
  destruct (Hgen s Hok) as [Hv Hs].
  destruct (gen s) as [v s1]. cbn [fst snd] in *.
  constructor; [assumption|apply IH; assumption].
Qed.

(** The switch hands the loop the generator of the type. *)
Lemma compute_random_generator (ary : cphvb_array) (c : process_clock)
    (gen : rk_state -> element * rk_state) :
  generator (type ary) = Some gen -> malloc_ok ary = true ->
  cphvb_compute_random ary c
  = match fill gen (size_of ary) 0 (rk_initseed c) (data ary) with
    | Some d => Some (CPHVB_SUCCESS, d)
    | None => None
    end.
Proof.
  intros Hgen Hmalloc. unfold cphvb_compute_random.
  rewrite Hmalloc. cbn [negb]. cbv zeta.
  destruct (type ary); cbn [generator] in Hgen; try discriminate Hgen;
    injection Hgen as <-; reflexivity.
Qed.

(** A call on an allocated array of a supported type whose base holds
    the elements of the array writes the values of the generator of the
    type, seeded with the seed of the call, over the first [size]
    elements and leaves the rest. *)
Lemma compute_random_draws (ary : cphvb_array) (c : process_clock)
    (gen : rk_state -> element * rk_state) :
  generator (type ary) = Some gen -> malloc_ok ary = true ->
  (size_of ary <= length (data ary))%nat ->
  cphvb_compute_random ary c
  = Some (CPHVB_SUCCESS,
          draws gen (size_of ary) (rk_seed (seed32 c))
          ++ drop (size_of ary) (data ary)).
Proof.
  intros Hgen Hmalloc Hlen.
  rewrite (compute_random_generator ary c gen Hgen Hmalloc).
  rewrite fill_draws by (cbn [Nat.add]; exact Hlen).
  rewrite take_0, rk_seed_seed32. reflexivity.
Qed.



(** ** The filled array *)

(** The element a generator of integers stores. *)
Definition int_fits (n : Z) (v : element) : Prop :=
  exists z, v = Int z /\ fits n z.

Lemma as_int_generates (g : rk_state -> Z * rk_state) (n : Z) :
  generates g (fits n) -> generates (as_int g) (int_fits n).
Proof.
  intros Hg s Hok. destruct (Hg s Hok) as [Hv Hs]. unfold as_int.
  destruct (g s) as [z s1]. cbn [fst snd] in *.
  split; [exists z; split; [reflexivity|assumption]|assumption].
Qed.

(** The generator of an integer type stays inside the value bits of the
    type. *)
Lemma generator_fits (t : cphvb_type) (bits : Z)
    (gen : rk_state -> element * rk_state) :
  value_bits t = Some bits -> generator t = Some gen ->
  generates gen (int_fits bits).
Proof.
  intros Hbits Hgen.
  destruct t; cbn [value_bits] in Hbits; try discriminate Hbits;
    injection Hbits as <-; cbn [generator] in Hgen; injection Hgen as <-;
    apply as_int_generates.
  - apply rk_int8_generates.
  - apply rk_int16_generates.
  - apply rk_int32_generates.
  - apply rk_int64_generates.
  - apply rk_uint8_generates.
  - apply rk_uint16_generates.
  - apply rk_uint32_generates.
  - apply rk_uint64_generates.
Qed.

Lemma value_bits_generator (t : cphvb_type) (bits : Z) :
  value_bits t = Some bits -> exists gen, generator t = Some gen.
Proof.
  destruct t; cbn [value_bits]; intros H; try discriminate H;
    cbn [generator]; eauto.
Qed.

(** X23. A call on an allocated array of an integer type whose base
    holds the elements of the array (the count is the 64-bit [size] of
    the source) succeeds, and every element of the first [size] of the
    base is an integer that is not negative and fits the bits of the
    type: a signed array never receives a negative value, and no value
    is cut when it is stored. *)
Theorem compute_random_values_fit (ary : cphvb_array) (c : process_clock)
    (bits : Z) (j : nat) :
  value_bits (type ary) = Some bits ->
  malloc_ok ary = true ->
  (size_of ary <= length (data ary))%nat ->
  (j < size_of ary)%nat ->
  exists d z,
    cphvb_compute_random ary c = Some (CPHVB_SUCCESS, d)
    /\ d !! j = Some (Int z) /\ 0 <= z < 2 ^ bits.
Proof.
  intros Hbits Hmalloc Hlen Hj.
  destruct (value_bits_generator _ _ Hbits) as [gen Hgen].
  pose proof (generator_fits _ _ _ Hbits Hgen) as Hfits.
  destruct (rk_seed_keeps (seed32 c)) as [Hok _].
  pose proof (draws_generates gen (int_fits bits) (size_of ary) _ Hfits Hok)
    as Hall.
  pose proof (draws_length gen (size_of ary) (rk_seed (seed32 c))) as Hdl.
  destruct (lookup_lt_is_Some_2 (draws gen (size_of ary) (rk_seed (seed32 c)))
              j) as [v Hv]; [lia|].
  destruct (proj1 (Forall_lookup _ _) Hall j v Hv) as (z & -> & Hz).
  exists (draws gen (size_of ary) (rk_seed (seed32 c))
          ++ drop (size_of ary) (data ary)), z.
  split; [apply compute_random_draws; assumption|].
  split; [|exact Hz].
  rewrite lookup_app_l by lia. exact Hv.
Qed.

(** X24. Whatever the type, the allocation and the clock: when the base
    holds the elements of the array, the call returns and leaves every
    element of the base behind the first [size] as it was. *)
Theorem compute_random_keeps_rest (ary : cphvb_array) (c : process_clock) :
  (size_of ary <= length (data ary))%nat ->
  exists res d,
    cphvb_compute_random ary c = Some (res, d)
    /\ drop (size_of ary) d = drop (size_of ary) (data ary).
Proof.
  intros Hlen.
  destruct (malloc_ok ary) eqn:Hmalloc.
  2:{ exists CPHVB_OUT_OF_MEMORY, (data ary).
      unfold cphvb_compute_random. rewrite Hmalloc. split; reflexivity. }
  destruct (generator (type ary)) as [gen|] eqn:Hgen.
  - exists CPHVB_SUCCESS,
      (draws gen (size_of ary) (rk_seed (seed32 c))
       ++ drop (size_of ary) (data ary)).
    split; [apply compute_random_draws; assumption|].
    apply drop_app_length'. symmetry. apply draws_length.
  - exists CPHVB_TYPE_NOT_SUPPORTED, (data ary).
    unfold cphvb_compute_random. rewrite Hmalloc. cbn [negb]. cbv zeta.
    destruct (type ary); cbn [generator] in Hgen; try discriminate Hgen;
      split; reflexivity.
Qed.

End Compute.

(** The reference output of MT19937 for the seed 5489: the translation of
    rk_seed and rk_random produces its first two words. *)
Lemma rk_random_reference :
  (rk_random (rk_seed 5489)).1 = 3499211612
  /\ (rk_random (rk_random (rk_seed 5489)).2).1 = 581869302.
Proof. split; vm_compute; reflexivity. Qed.

(** ** The extension on concrete arrays *)

(** The element count of the shapes of the examples: the product of the
    extents. *)
Definition shape_product (shp : list Z) : Z := fold_right Z.mul 1 shp.

(** Floating point values stand for themselves in the examples: a
    float is kept as the word it is computed from. *)
Definition run_compute_random
    : cphvb_array Z (Z * Z) -> process_clock ->
      option (cphvb_error * list (element Z (Z * Z))) :=
  cphvb_compute_random Z (Z * Z) (fun r => r) (fun a b => (a, b))
    shape_product.


Definition clock_a : process_clock :=
  {| pid := 1234; tv_sec := 1700000000; tv_usec := 5 |}.








(** ** The ranges on concrete states and arrays *)

Lemma rk_random_word32_witness :
  fits 32 (rk_random (rk_random (rk_seed 5489)).2).1
  /\ state_ok (rk_random (rk_random (rk_seed 5489)).2).2 = true.
Proof.
  apply (rk_random_word32 (rk_random (rk_seed 5489)).2).
  vm_compute. reflexivity.
Defined.

(** Three elements of int64 in a base of four. *)
Definition int64_array : cphvb_array Z (Z * Z) :=
  {| type := CPHVB_INT64; shape := [3]; malloc_ok := true;
     data := [Int _ _ (-1); Int _ _ (-1); Int _ _ (-1); Int _ _ (-1)] |}.

Lemma compute_random_values_fit_witness :
  exists d z,
    run_compute_random int64_array clock_a = Some (CPHVB_SUCCESS, d)
    /\ d !! 2%nat = Some (Int _ _ z)
    /\ 0 <= z < 2 ^ 63.
Proof.
  apply (compute_random_values_fit Z (Z * Z) (fun r => r)
           (fun a b => (a, b)) shape_product int64_array clock_a 63 2).
  - reflexivity.
  - reflexivity.
  - vm_compute. lia.
  - vm_compute. lia.
Defined.

Lemma compute_random_keeps_rest_witness :
  exists res d,
    run_compute_random int64_array clock_a = Some (res, d)
    /\ drop 3 d = [Int _ _ (-1)].
Proof.
  apply (compute_random_keeps_rest Z (Z * Z) (fun r => r)
           (fun a b => (a, b)) shape_product int64_array clock_a).
  vm_compute. lia.
Defined.

End Random.
